(** * Avt virtual texturing runtime: page streaming core

    A shallow embedding of the page-id codec, the cache page tree, the
    LRU page cache manager, the page provider's request counter, the
    indirection tables, the feedback analysis of the page resolver and
    the VTFF page file, together with the properties proved about them.

    Conventions.
    - C++ [int] and [uint32_t] values are integers in [Z]; bit operations
      are [Z.land], [Z.lor], [Z.shiftl], [Z.shiftr].  Signed overflow is
      undefined behaviour in C++, so the [int] counters are mathematical
      integers here.
    - A [CacheEntry *] into the fixed entry pool is an index into that
      pool; [nullptr] is [None].
    - A failed [assert], a null dereference or an out-of-bounds access is
      the failure [None] of the option monad. *)

From Stdlib Require Import ZArith List Lia Bool.
From stdpp Require Import base option list numbers strings gmap sorting.

Open Scope Z_scope.

(* ================================================================== *)
(** * Part I: the embedding *)
(* ================================================================== *)

(** ** vt_common.hpp: the PageId codec *)

Definition PageId := Z.

Definition InvalidPageId : PageId := 0xFFFFFFFF.

Definition pageIdExtractPageX (pageId : PageId) : Z :=
  Z.shiftr (Z.land pageId 0x000000FF) 0.
Definition pageIdExtractPageY (pageId : PageId) : Z :=
  Z.shiftr (Z.land pageId 0x0000FF00) 8.
Definition pageIdExtractMipLevel (pageId : PageId) : Z :=
  Z.shiftr (Z.land pageId 0x00FF0000) 16.
Definition pageIdExtractTextureIndex (pageId : PageId) : Z :=
  Z.shiftr (Z.land pageId 0xFF000000) 24.

Definition makePageId (x y level texId : Z) : PageId :=
  Z.lor (Z.lor (Z.lor (Z.shiftl (Z.land texId 0xFF) 24)
                      (Z.shiftl (Z.land level 0xFF) 16))
               (Z.shiftl (Z.land y 0xFF) 8))
        (Z.land x 0xFF).

Arguments pageIdExtractPageX : simpl never.
Arguments pageIdExtractPageY : simpl never.
Arguments pageIdExtractMipLevel : simpl never.
Arguments pageIdExtractTextureIndex : simpl never.
Arguments makePageId : simpl never.

(** [clampByte]: an [unsigned int] clamped to 255. *)
Definition clampByte (b : Z) : Z := if decide (b > 255) then 255 else b `mod` 256.

(** [reverseByte]: the multiplications are in [unsigned long long], the
    result is cut to [uint8_t]. *)
Definition reverseByte (b : Z) : Z :=
  Z.shiftr ((Z.land ((b * 0x80200802) `mod` 2 ^ 64) 0x0884422110 * 0x0101010101) `mod` 2 ^ 64)
           32
  `mod` 256.

Arguments reverseByte : simpl never.

(** ** vt_page_table.hpp: constants *)

Definition MaxVTMipLevels : Z := 16.
Definition PageSizeInPixels : Z := 128.
Definition PageBorderSizeInPixels : Z := 4.
Definition TableSizeInPages : Z := 16.
Definition TotalTablePages : Z := TableSizeInPages * TableSizeInPages.

(** ** vt_page_cache_mgr.hpp: cache entries *)

Record CachePageCoord := { coordX : Z; coordY : Z }.

Record CacheEntry := {
  prev : option nat;
  next : option nat;
  pageId : PageId;
  cacheCoord : CachePageCoord
}.

Definition set_prev (v : option nat) (e : CacheEntry) : CacheEntry :=
  {| prev := v; next := next e; pageId := pageId e; cacheCoord := cacheCoord e |}.
Definition set_next (v : option nat) (e : CacheEntry) : CacheEntry :=
  {| prev := prev e; next := v; pageId := pageId e; cacheCoord := cacheCoord e |}.
Definition set_pageId (v : PageId) (e : CacheEntry) : CacheEntry :=
  {| prev := prev e; next := next e; pageId := v; cacheCoord := cacheCoord e |}.
Definition set_cacheCoord (v : CachePageCoord) (e : CacheEntry) : CacheEntry :=
  {| prev := prev e; next := next e; pageId := pageId e; cacheCoord := v |}.

(** Reading and writing through a [CacheEntry *]: [None] when the pointer
    is null or does not point into the pool. *)
Definition deref (pool : list CacheEntry) (p : option nat) : option CacheEntry :=
  e ← p; pool !! e.

Definition store (pool : list CacheEntry) (p : option nat)
    (f : CacheEntry → CacheEntry) : option (list CacheEntry) :=
  e ← p; _ ← pool !! e; Some (alter f e pool).

(** ** CachePageTree *)

(** A tree slot is a [CacheEntry *]: null, the address of the static
    dummy returned by [getRequestedPageDummy], or an entry of the pool. *)
Inductive TreeSlot :=
  | Null
  | RequestedPageDummy
  | Entry (e : nat).

Global Instance TreeSlot_eq_dec : EqDecision TreeSlot.
Proof. solve_decision. Defined.

Module CachePageTree.

Record t := {
  numLevels : Z;
  numPagesX : list Z;
  numPagesY : list Z;
  cacheEntryPtrPool : list TreeSlot
}.

Definition getNumLevels (tr : t) : Z := numLevels tr.
Definition getNumPagesX (tr : t) (level : Z) : Z :=
  default 0 (numPagesX tr !! Z.to_nat level).
Definition getNumPagesY (tr : t) (level : Z) : Z :=
  default 0 (numPagesY tr !! Z.to_nat level).

(** [levels[l]] points [entriesBefore l] slots into the pool: the
    running [totalEntries] of the constructor's last loop. *)
Fixpoint entriesBefore (tr : t) (l : nat) : Z :=
  match l with
  | O => 0
  | S k => entriesBefore tr k
           + getNumPagesX tr (Z.of_nat k) * getNumPagesY tr (Z.of_nat k)
  end.

(** The constructor; the three asserts are the guards. *)
Definition make (vtPagesX vtPagesY : list Z) (vtNumLevels : Z) : option t :=
  if decide (0 < vtNumLevels ≤ MaxVTMipLevels) then
    let n := Z.to_nat vtNumLevels in
    let px := take n vtPagesX in
    let py := take n vtPagesY in
    if decide (length px = n ∧ length py = n
               ∧ Forall (λ v, 0 < v) px ∧ Forall (λ v, 0 < v) py) then
      let pad := replicate (Z.to_nat MaxVTMipLevels - n)%nat 0 in
      let tr := {| numLevels := vtNumLevels;
                   numPagesX := px ++ pad;
                   numPagesY := py ++ pad;
                   cacheEntryPtrPool := [] |} in
      Some {| numLevels := vtNumLevels;
              numPagesX := px ++ pad;
              numPagesY := py ++ pad;
              cacheEntryPtrPool :=
                replicate (Z.to_nat (entriesBefore tr n)) Null |}
    else None
  else None.

Definition clear (tr : t) : t :=
  {| numLevels := numLevels tr;
     numPagesX := numPagesX tr;
     numPagesY := numPagesY tr;
     cacheEntryPtrPool := replicate (length (cacheEntryPtrPool tr)) Null |}.

(** Position in the pool of [levels[level][x + y * numPagesX[level]]],
    guarded by the two asserts of [get] and [set]. *)
Definition slotIndex (tr : t) (level x y : Z) : option nat :=
  if decide (0 ≤ level < numLevels tr) then
    let pageIndex := x + y * getNumPagesX tr level in
    if decide (0 ≤ pageIndex < getNumPagesX tr level * getNumPagesY tr level)
    then Some (Z.to_nat (entriesBefore tr (Z.to_nat level) + pageIndex))
    else None
  else None.

Definition get (tr : t) (level x y : Z) : option TreeSlot :=
  i ← slotIndex tr level x y; cacheEntryPtrPool tr !! i.

Definition getId (tr : t) (id : PageId) : option TreeSlot :=
  get tr (pageIdExtractMipLevel id) (pageIdExtractPageX id) (pageIdExtractPageY id).

Definition set (tr : t) (level x y : Z) (entry : TreeSlot) : option t :=
  i ← slotIndex tr level x y;
  _ ← cacheEntryPtrPool tr !! i;
  Some {| numLevels := numLevels tr;
          numPagesX := numPagesX tr;
          numPagesY := numPagesY tr;
          cacheEntryPtrPool := <[i := entry]> (cacheEntryPtrPool tr) |}.

Definition setId (tr : t) (id : PageId) (entry : TreeSlot) : option t :=
  set tr (pageIdExtractMipLevel id) (pageIdExtractPageX id) (pageIdExtractPageY id) entry.

End CachePageTree.

Arguments CachePageTree.slotIndex : simpl never.

(** ** PageCacheMgr *)

Inductive CachePageStatus := Cached | InFlight | Unavailable.

Module PageCacheMgr.

Definition CacheSizeInPages : Z := TableSizeInPages.
Definition TotalCachePages : nat := Z.to_nat TotalTablePages.

Record RuntimeStats := {
  servicedRequests : Z;
  newFrameRequests : Z;
  droppedRequests : Z;
  reFrameRequests : Z;
  totalFrameRequests : Z;
  hitFrameRequests : Z
}.

Definition zeroStats : RuntimeStats :=
  {| servicedRequests := 0; newFrameRequests := 0; droppedRequests := 0;
     reFrameRequests := 0; totalFrameRequests := 0; hitFrameRequests := 0 |}.

Record t := {
  stats : RuntimeStats;
  mru : option nat;
  lru : option nat;
  cachePageTree : CachePageTree.t;
  cacheEntryPool : list CacheEntry
}.

Definition with_stats (s : RuntimeStats) (c : t) : t :=
  {| stats := s; mru := mru c; lru := lru c;
     cachePageTree := cachePageTree c; cacheEntryPool := cacheEntryPool c |}.
Definition with_mru (m : option nat) (c : t) : t :=
  {| stats := stats c; mru := m; lru := lru c;
     cachePageTree := cachePageTree c; cacheEntryPool := cacheEntryPool c |}.
Definition with_lru (l : option nat) (c : t) : t :=
  {| stats := stats c; mru := mru c; lru := l;
     cachePageTree := cachePageTree c; cacheEntryPool := cacheEntryPool c |}.
Definition with_tree (tr : CachePageTree.t) (c : t) : t :=
  {| stats := stats c; mru := mru c; lru := lru c;
     cachePageTree := tr; cacheEntryPool := cacheEntryPool c |}.
Definition with_pool (p : list CacheEntry) (c : t) : t :=
  {| stats := stats c; mru := mru c; lru := lru c;
     cachePageTree := cachePageTree c; cacheEntryPool := p |}.

Definition incServiced (s : RuntimeStats) : RuntimeStats :=
  {| servicedRequests := servicedRequests s + 1;
     newFrameRequests := newFrameRequests s;
     droppedRequests := droppedRequests s;
     reFrameRequests := reFrameRequests s;
     totalFrameRequests := totalFrameRequests s;
     hitFrameRequests := hitFrameRequests s |}.
Definition incNew (s : RuntimeStats) : RuntimeStats :=
  {| servicedRequests := servicedRequests s;
     newFrameRequests := newFrameRequests s + 1;
     droppedRequests := droppedRequests s;
     reFrameRequests := reFrameRequests s;
     totalFrameRequests := totalFrameRequests s;
     hitFrameRequests := hitFrameRequests s |}.
Definition incDropped (s : RuntimeStats) : RuntimeStats :=
  {| servicedRequests := servicedRequests s;
     newFrameRequests := newFrameRequests s;
     droppedRequests := droppedRequests s + 1;
     reFrameRequests := reFrameRequests s;
     totalFrameRequests := totalFrameRequests s;
     hitFrameRequests := hitFrameRequests s |}.
Definition incRe (s : RuntimeStats) : RuntimeStats :=
  {| servicedRequests := servicedRequests s;
     newFrameRequests := newFrameRequests s;
     droppedRequests := droppedRequests s;
     reFrameRequests := reFrameRequests s + 1;
     totalFrameRequests := totalFrameRequests s;
     hitFrameRequests := hitFrameRequests s |}.
Definition incTotal (s : RuntimeStats) : RuntimeStats :=
  {| servicedRequests := servicedRequests s;
     newFrameRequests := newFrameRequests s;
     droppedRequests := droppedRequests s;
     reFrameRequests := reFrameRequests s;
     totalFrameRequests := totalFrameRequests s + 1;
     hitFrameRequests := hitFrameRequests s |}.
Definition incHit (s : RuntimeStats) : RuntimeStats :=
  {| servicedRequests := servicedRequests s;
     newFrameRequests := newFrameRequests s;
     droppedRequests := droppedRequests s;
     reFrameRequests := reFrameRequests s;
     totalFrameRequests := totalFrameRequests s;
     hitFrameRequests := hitFrameRequests s + 1 |}.

Definition validPageRequest (c : t) (level pageX pageY : Z) : bool :=
  (level <? CachePageTree.getNumLevels (cachePageTree c))
  && (pageX <? CachePageTree.getNumPagesX (cachePageTree c) level)
  && (pageY <? CachePageTree.getNumPagesY (cachePageTree c) level).

(** One assignment through entry pointers, [p->field = v], as a step on
    the manager. *)
Definition storeEntry (p : option nat) (f : CacheEntry → CacheEntry) (c : t) : option t :=
  pool ← store (cacheEntryPool c) p f; Some (with_pool pool c).

Definition lookupPage (id : PageId) (c : t) : option (CachePageStatus * t) :=
  let level := pageIdExtractMipLevel id in
  let pageX := pageIdExtractPageX id in
  let pageY := pageIdExtractPageY id in
  if validPageRequest c level pageX pageY then
    let c := with_stats (incTotal (stats c)) c in
    entry ← CachePageTree.get (cachePageTree c) level pageX pageY;
    match entry with
    | Null =>
        tr ← CachePageTree.set (cachePageTree c) level pageX pageY RequestedPageDummy;
        let c := with_tree tr c in
        let c := with_stats (incNew (stats c)) c in
        Some (Unavailable, c)
    | RequestedPageDummy =>
        let c := with_stats (incRe (stats c)) c in
        Some (InFlight, c)
    | Entry e =>
        let c := with_stats (incHit (stats c)) c in
        let entry := Some e in
        if decide (entry ≠ mru c) then
          ent ← deref (cacheEntryPool c) entry;
          c ← (if decide (next ent ≠ None) then
                 (* entry->prev->next = entry->next *)
                 ent ← deref (cacheEntryPool c) entry;
                 c ← storeEntry (prev ent) (set_next (next ent)) c;
                 (* entry->next->prev = entry->prev *)
                 ent ← deref (cacheEntryPool c) entry;
                 storeEntry (next ent) (set_prev (prev ent)) c
               else
                 if decide (entry = lru c) then
                   (* entry->prev->next = nullptr; lru = entry->prev *)
                   ent ← deref (cacheEntryPool c) entry;
                   c ← storeEntry (prev ent) (set_next None) c;
                   ent ← deref (cacheEntryPool c) entry;
                   Some (with_lru (prev ent) c)
                 else None);
          if decide (mru c ≠ None) then
            c ← storeEntry entry (set_prev None) c;
            c ← storeEntry entry (set_next (mru c)) c;
            c ← storeEntry (mru c) (set_prev entry) c;
            Some (Cached, with_mru entry c)
          else None
        else Some (Cached, c)
    end
  else None.

Definition stillWantPage (id : PageId) (c : t) : option bool :=
  let level := pageIdExtractMipLevel id in
  let pageX := pageIdExtractPageX id in
  let pageY := pageIdExtractPageY id in
  if validPageRequest c level pageX pageY then
    slot ← CachePageTree.get (cachePageTree c) level pageX pageY;
    Some (bool_decide (slot = RequestedPageDummy))
  else None.

Definition allocPageEntry (c : t) : option (nat * t) :=
  l ← deref (cacheEntryPool c) (lru c);
  c ← (if decide (pageId l ≠ InvalidPageId) then
         tr ← CachePageTree.setId (cachePageTree c) (pageId l) Null;
         Some (with_tree tr c)
       else Some c);
  (* entry = lru; entry->prev->next = nullptr; lru = entry->prev *)
  let entry := lru c in
  ent ← deref (cacheEntryPool c) entry;
  c ← storeEntry (prev ent) (set_next None) c;
  ent ← deref (cacheEntryPool c) entry;
  let c := with_lru (prev ent) c in
  (* move it to the head of the list *)
  c ← storeEntry entry (set_prev None) c;
  c ← storeEntry entry (set_next (mru c)) c;
  c ← storeEntry (mru c) (set_prev entry) c;
  let c := with_mru entry c in
  e ← entry;
  Some (e, c).

Definition accommodatePage (id : PageId) (c : t) : option (CachePageCoord * t) :=
  let level := pageIdExtractMipLevel id in
  let pageX := pageIdExtractPageX id in
  let pageY := pageIdExtractPageY id in
  if validPageRequest c level pageX pageY then
    '(e, c) ← allocPageEntry c;
    tr ← CachePageTree.set (cachePageTree c) level pageX pageY (Entry e);
    let c := with_tree tr c in
    c ← storeEntry (Some e) (set_pageId id) c;
    let c := with_stats (incServiced (stats c)) c in
    ent ← deref (cacheEntryPool c) (Some e);
    Some (cacheCoord ent, c)
  else None.

Definition notifyDroppedRequest (id : PageId) (c : t) : option t :=
  let level := pageIdExtractMipLevel id in
  let pageX := pageIdExtractPageX id in
  let pageY := pageIdExtractPageY id in
  if validPageRequest c level pageX pageY then
    slot ← CachePageTree.get (cachePageTree c) level pageX pageY;
    if decide (slot = RequestedPageDummy) then
      tr ← CachePageTree.set (cachePageTree c) level pageX pageY Null;
      let c := with_tree tr c in
      Some (with_stats (incDropped (stats c)) c)
    else None
  else None.

(** The loop body of [purgeCache] for entry [i]. *)
Definition purgeEntry (i : nat) (page : CacheEntry) : CacheEntry :=
  {| prev := if decide (0 < i)%nat then Some (i - 1)%nat else None;
     next := if decide (i < TotalCachePages - 1)%nat then Some (i + 1)%nat else None;
     pageId := InvalidPageId;
     cacheCoord := cacheCoord page |}.

Definition purgeCache (c : t) : t :=
  {| stats := zeroStats;
     mru := Some 0%nat;
     lru := Some (TotalCachePages - 1)%nat;
     cachePageTree := CachePageTree.clear (cachePageTree c);
     cacheEntryPool := imap purgeEntry (cacheEntryPool c) |}.

(** The constructor: entry [x + y * CacheSizeInPages] gets the
    coordinate [(x, y)], then the cache is purged. *)
Definition initEntry (i : nat) : CacheEntry :=
  {| prev := None; next := None; pageId := InvalidPageId;
     cacheCoord := {| coordX := Z.of_nat i `mod` CacheSizeInPages;
                      coordY := Z.of_nat i `div` CacheSizeInPages |} |}.

Definition make (vtPagesX vtPagesY : list Z) (vtNumLevels : Z) : option t :=
  tr ← CachePageTree.make vtPagesX vtPagesY vtNumLevels;
  Some (purgeCache {| stats := zeroStats; mru := None; lru := None;
                      cachePageTree := tr;
                      cacheEntryPool := initEntry <$> seq 0 TotalCachePages |}).

Definition sanitizePageId (pageId : PageId) (c : t) : PageId :=
  let x := pageIdExtractPageX pageId in
  let y := pageIdExtractPageY pageId in
  let level := pageIdExtractMipLevel pageId in
  let texId := pageIdExtractTextureIndex pageId in
  let level := if decide (level >= CachePageTree.getNumLevels (cachePageTree c))
               then CachePageTree.getNumLevels (cachePageTree c) - 1 else level in
  let x := if decide (x >= CachePageTree.getNumPagesX (cachePageTree c) level)
           then CachePageTree.getNumPagesX (cachePageTree c) level - 1 else x in
  let y := if decide (y >= CachePageTree.getNumPagesY (cachePageTree c) level)
           then CachePageTree.getNumPagesY (cachePageTree c) level - 1 else y in
  makePageId x y level texId.

End PageCacheMgr.

Arguments PageCacheMgr.TotalCachePages : simpl never.

(** ** vt_page_provider.hpp: completed page requests *)

Module PageRequestDataPacket.
(** [pageData] stands for the [TotalPagePixels] RGBA pixels of the page. *)
Record t := {
  pageId : PageId;
  fileId : Z;
  pageData : list Z
}.
End PageRequestDataPacket.

Definition FulfilledPageRequestQueue := list PageRequestDataPacket.t.

(** ** vt_virtual_texture.cpp: the upload loop of frameUpdate *)

Module VirtualTexture.

Record PageUpload := {
  pageData : list Z;
  cacheCoord : CachePageCoord
}.

(** What the loop does to the OpenGL side: [pageTables[t]->bind()] and
    [pageTables[t]->uploadPage(upload)]. *)
Inductive GLCall :=
  | Bind (t : nat)
  | UploadPage (t : nat) (upload : PageUpload).

Record t := {
  textureIndex : Z;
  numPageTables : nat;
  pageCacheMgr : PageCacheMgr.t;
  numPageUploads : Z;
  glCalls : list GLCall
}.

Definition with_cache (c : PageCacheMgr.t) (vt : t) : t :=
  {| textureIndex := textureIndex vt; numPageTables := numPageTables vt;
     pageCacheMgr := c; numPageUploads := numPageUploads vt;
     glCalls := glCalls vt |}.

(** [if (currentPageTexture != pageTables[t].get()) { ...bind() }],
    then [pageTables[t]->uploadPage(upload); ++numPageUploads].  The
    loop state is the texture and the local [currentPageTexture]. *)
Definition uploadTo (tbl : nat) (upload : PageUpload) (st : t * option nat)
    : t * option nat :=
  let '(vt, currentPageTexture) := st in
  let binds := if decide (currentPageTexture ≠ Some tbl) then [Bind tbl] else [] in
  ({| textureIndex := textureIndex vt; numPageTables := numPageTables vt;
      pageCacheMgr := pageCacheMgr vt;
      numPageUploads := numPageUploads vt + 1;
      glCalls := glCalls vt ++ binds ++ [UploadPage tbl upload] |},
   Some tbl).

(** The inner loops, lines 167-188: for every sub-texture [tbl] the
    queue is scanned for the packets of the same page and file [tbl]. *)
Definition uploadSubTextures (pageRequestUploads : FulfilledPageRequestQueue)
    (request : PageRequestDataPacket.t) (coord : CachePageCoord)
    (st : t * option nat) : t * option nat :=
  foldl (λ st tbl,
           foldl (λ st subRequest,
                    if decide (PageRequestDataPacket.pageId subRequest
                                 ≠ PageRequestDataPacket.pageId request
                               ∨ PageRequestDataPacket.fileId subRequest ≠ Z.of_nat tbl)
                    then st
                    else uploadTo tbl
                           {| pageData := PageRequestDataPacket.pageData subRequest;
                              cacheCoord := coord |} st)
                 st pageRequestUploads)
        st (seq 1 (numPageTables st.1 - 1)).

(** The body of the outer loop, lines 147-188. *)
Definition processRequest (pageRequestUploads : FulfilledPageRequestQueue)
    (request : PageRequestDataPacket.t) (st : t * option nat)
    : option (t * option nat) :=
  let id := PageRequestDataPacket.pageId request in
  if decide (pageIdExtractTextureIndex id ≠ textureIndex st.1) then Some st
  else if decide (PageRequestDataPacket.fileId request ≠ 0) then Some st
  else
    want ← PageCacheMgr.stillWantPage id (pageCacheMgr st.1);
    if negb want then Some st
    else
      '(coord, c) ← PageCacheMgr.accommodatePage id (pageCacheMgr st.1);
      let st := (with_cache c st.1, st.2) in
      let st := uploadTo 0 {| pageData := PageRequestDataPacket.pageData request;
                              cacheCoord := coord |} st in
      Some (uploadSubTextures pageRequestUploads request coord st).

(** The outer loop run over the requests [rs] of the queue. *)
Fixpoint processRequests (pageRequestUploads rs : FulfilledPageRequestQueue)
    (st : t * option nat) : option (t * option nat) :=
  match rs with
  | [] => Some st
  | request :: rest =>
      st' ← processRequest pageRequestUploads request st;
      processRequests pageRequestUploads rest st'
  end.

(** Lines 135-189 of [frameUpdate]: the early return on an empty queue
    and the upload loop.  The rebuild of the indirection table that
    follows is [updateIndirectionTexture] below. *)
Definition frameUpdate (pageRequestUploads : FulfilledPageRequestQueue) (vt : t)
    : option t :=
  if decide (pageRequestUploads = []) then Some vt
  else fst <$> processRequests pageRequestUploads pageRequestUploads (vt, None).

End VirtualTexture.

Arguments VirtualTexture.processRequest : simpl never.
Arguments VirtualTexture.uploadSubTextures : simpl never.
Arguments VirtualTexture.uploadTo : simpl never.
Arguments PageCacheMgr.accommodatePage : simpl never.
Arguments PageCacheMgr.lookupPage : simpl never.
Arguments PageCacheMgr.stillWantPage : simpl never.

(** ** vt_page_provider.cpp: PageProvider *)

Module PageProvider.

Definition MaxOutstandingPageRequests : Z := 256.

(** What the provider uses of a page file: the pixels that its
    [loadPage] writes for a page id.  A registered texture is the list
    of its page files.  Log output is not part of this model. *)
Definition PageFile := PageId → list Z.
Definition RegisteredTexture := list PageFile.

Record WorkerContext := {
  pageFile : PageFile;
  requestId : PageId;
  fileId : Z
}.

(** [dispatched] holds the tasks given to [dispatch_async_f] that have
    not run yet. *)
Record t := {
  outstandingRequests : Z;
  readyQueue : FulfilledPageRequestQueue;
  registeredTextures : list RegisteredTexture;
  forceSynchronous : bool;
  dispatched : list WorkerContext
}.

Definition make (async : bool) : t :=
  {| outstandingRequests := 0; readyQueue := []; registeredTextures := [];
     forceSynchronous := negb async; dispatched := [] |}.

Definition registerVirtualTexture (vtTex : RegisteredTexture) (p : t) : t :=
  {| outstandingRequests := outstandingRequests p; readyQueue := readyQueue p;
     registeredTextures := registeredTextures p ++ [vtTex];
     forceSynchronous := forceSynchronous p; dispatched := dispatched p |}.

Definition pushReadyRequest (readyRequest : PageRequestDataPacket.t) (p : t) : t :=
  {| outstandingRequests := outstandingRequests p - 1;
     readyQueue := readyQueue p ++ [readyRequest];
     registeredTextures := registeredTextures p;
     forceSynchronous := forceSynchronous p; dispatched := dispatched p |}.

(** One iteration of the loop of [runAsyncRequest]: the task is
    dispatched and the counter incremented. *)
Definition dispatchOne (requestId : PageId) (p : t) (f : nat) (pageFile : PageFile) : t :=
  {| outstandingRequests := outstandingRequests p + 1;
     readyQueue := readyQueue p;
     registeredTextures := registeredTextures p;
     forceSynchronous := forceSynchronous p;
     dispatched := dispatched p
                   ++ [{| pageFile := pageFile; requestId := requestId;
                          fileId := Z.of_nat f |}] |}.

Definition foldli {A B} (f : A → nat → B → A) (a : A) (l : list B) : A :=
  foldl (λ a ix, f a ix.1 ix.2) a (imap pair l).

Definition runAsyncRequest (requestId : PageId) (p : t) : option (bool * t) :=
  let textureIndex := Z.min (pageIdExtractTextureIndex requestId)
                        (Z.of_nat (length (registeredTextures p))) in
  tex ← registeredTextures p !! Z.to_nat textureIndex;
  Some (true, foldli (dispatchOne requestId) p tex).

(** One iteration of the loop of [runImmediateRequest]. *)
Definition loadOne (requestId : PageId) (p : t) (f : nat) (pageFile : PageFile) : t :=
  let p := {| outstandingRequests := outstandingRequests p + 1;
              readyQueue := readyQueue p;
              registeredTextures := registeredTextures p;
              forceSynchronous := forceSynchronous p;
              dispatched := dispatched p |} in
  pushReadyRequest {| PageRequestDataPacket.pageId := requestId;
                      PageRequestDataPacket.fileId := Z.of_nat f;
                      PageRequestDataPacket.pageData := pageFile requestId |} p.

Definition runImmediateRequest (requestId : PageId) (p : t) : option (bool * t) :=
  let textureIndex := Z.min (pageIdExtractTextureIndex requestId)
                        (Z.of_nat (length (registeredTextures p))) in
  tex ← registeredTextures p !! Z.to_nat textureIndex;
  Some (true, foldli (loadOne requestId) p tex).

Definition addPageRequest (requestId : PageId) (p : t) : option (bool * t) :=
  if decide (outstandingRequests p = MaxOutstandingPageRequests) then Some (false, p)
  else if negb (forceSynchronous p) then runAsyncRequest requestId p
  else runImmediateRequest requestId p.

(** The [k]-th dispatched task runs to completion on a worker thread:
    the lambda of [runAsyncRequest]. *)
Definition workerRuns (k : nat) (p : t) : option t :=
  workerCtx ← dispatched p !! k;
  if decide (requestId workerCtx = InvalidPageId) then None
  else
    let pageRequest :=
      {| PageRequestDataPacket.pageId := requestId workerCtx;
         PageRequestDataPacket.fileId := fileId workerCtx;
         PageRequestDataPacket.pageData := pageFile workerCtx (requestId workerCtx) |} in
    let p := {| outstandingRequests := outstandingRequests p;
                readyQueue := readyQueue p;
                registeredTextures := registeredTextures p;
                forceSynchronous := forceSynchronous p;
                dispatched := delete k (dispatched p) |} in
    Some (pushReadyRequest pageRequest p).

Definition getReadyQueue (p : t) : FulfilledPageRequestQueue * t :=
  (readyQueue p,
   {| outstandingRequests := outstandingRequests p; readyQueue := [];
      registeredTextures := registeredTextures p;
      forceSynchronous := forceSynchronous p; dispatched := dispatched p |}).

(** The events of a run: a request from the main thread, the
    completion of a dispatched load, the main thread taking the queue. *)
Inductive Event :=
  | AddPageRequest (requestId : PageId)
  | Completion (k : nat)
  | GetReadyQueue.

Definition step (ev : Event) (p : t) : option t :=
  match ev with
  | AddPageRequest requestId => snd <$> addPageRequest requestId p
  | Completion k => workerRuns k p
  | GetReadyQueue => Some (getReadyQueue p).2
  end.

Fixpoint run (evs : list Event) (p : t) : option t :=
  match evs with
  | [] => Some p
  | ev :: rest => p' ← step ev p; run rest p'
  end.

End PageProvider.

(** ** vt_common.hpp: the log and fatal errors *)

(** The log macros hand a message to the installed callbacks; the text
    kept here is the fixed part of the message, without the values
    streamed into it. *)
Inductive LogEntry :=
  | LogComment (x : string)
  | LogWarning (x : string)
  | LogError (x : string).

(** How a call ends: it returns, [vtFatalError] throws [vt::Exception],
    or an [assert] fails ([cassert]). *)
Inductive Outcome (A : Type) :=
  | Returned (a : A)
  | Thrown (what : string)
  | Aborted.
Arguments Returned {A} a.
Arguments Thrown {A} what.
Arguments Aborted {A}.

Definition Run (A : Type) : Type := list LogEntry → list LogEntry * Outcome A.

Definition ret {A} (a : A) : Run A := λ log, (log, Returned a).

Definition bindRun {A B} (m : Run A) (k : A → Run B) : Run B :=
  λ log, match m log with
         | (log', Returned a) => k a log'
         | (log', Thrown what) => (log', Thrown what)
         | (log', Aborted) => (log', Aborted)
         end.

Notation "'let!' x ':=' m 'in' k" := (bindRun m (λ x, k))
  (at level 10, x name, m at level 100, k at level 200).
Notation "m ';;' k" := (bindRun m (λ _, k))
  (at level 100, k at level 200, right associativity).

Definition vtLogComment (x : string) : Run unit := λ log, (log ++ [LogComment x], Returned tt).
Definition vtLogWarning (x : string) : Run unit := λ log, (log ++ [LogWarning x], Returned tt).
Definition vtLogError (x : string) : Run unit := λ log, (log ++ [LogError x], Returned tt).
Definition vtFatalError {A} (x : string) : Run A := λ log, (log ++ [LogError x], Thrown x).
Definition cassert (b : bool) : Run unit := λ log, (log, if b then Returned tt else Aborted).
Definition when (b : bool) (m : Run unit) : Run unit := if b then m else ret tt.

(** A loop [for (i = 0; i < n; ++i) body] with a loop state. *)
Fixpoint forLoop {St} (i : nat) (n : nat) (body : nat → St → Run St) (s : St) : Run St :=
  match n with
  | O => ret s
  | S n' => let! s' := body i s in forLoop (S i) n' body s'
  end.

(** ** <cstdio>: the stream of a page file *)

(** The C library as the page file uses it.  [fread f size] is
    [fread(buf, size, 1, f)]: the [size] bytes of the item when it was
    read, [None] when the call did not return 1.  [fseek f offset] is
    [fseek(f, offset, SEEK_SET)] and says whether it returned 0;
    likewise [fgetpos] and [fsetpos]. *)
Record Stdio := {
  FILE : Type;
  fpos_t : Type;
  fread : FILE → nat → option (list Z) * FILE;
  fseek : FILE → Z → bool * FILE;
  fgetpos : FILE → option fpos_t;
  fsetpos : FILE → fpos_t → bool * FILE
}.

(** A file held in memory: its bytes and the position of the stream.
    Seeking to a negative offset fails, an item that does not fit before
    the end of the file is not read. *)
Definition memStdio : Stdio :=
  {| FILE := list Z * nat;
     fpos_t := nat;
     fread := λ f size,
       if decide (f.2 + size ≤ length f.1)%nat
       then (Some (take size (drop f.2 f.1)), (f.1, (f.2 + size)%nat))
       else (None, (f.1, length f.1));
     fseek := λ f offset,
       if decide (offset < 0) then (false, f) else (true, (f.1, Z.to_nat offset));
     fgetpos := λ f, Some f.2;
     fsetpos := λ f pos, (true, (f.1, pos)) |}.

(** ** vt_file_format.hpp: the VTFF structures *)

(** Little-endian value of a run of bytes. *)
Definition le (bs : list Z) : Z := foldr (λ b acc, b + 256 * acc) 0 bs.
Definition field (bs : list Z) (off n : nat) : Z := le (take n (drop off bs)).

Module VTFF.

Definition Magic : Z := 0x56544646.
Definition Version : Z := 4.

Record Header := {
  magic : Z;
  version : Z;
  pixelFormat : Z;
  numMipMapLevels : Z;
  pageContentSize : Z;
  pageSize : Z;
  borderSize : Z
}.
Definition sizeofHeader : nat := 28.
Definition decodeHeader (bs : list Z) : Header :=
  {| magic := field bs 0 4; version := field bs 4 4; pixelFormat := field bs 8 4;
     numMipMapLevels := field bs 12 4; pageContentSize := field bs 16 4;
     pageSize := field bs 20 4; borderSize := field bs 24 4 |}.

Record MipLevelInfo := {
  width : Z;
  height : Z;
  numPagesX : Z;
  numPagesY : Z
}.
Definition sizeofMipLevelInfo : nat := 12.
Definition decodeMipLevelInfo (bs : list Z) : MipLevelInfo :=
  {| width := field bs 0 4; height := field bs 4 4;
     numPagesX := field bs 8 2; numPagesY := field bs 10 2 |}.

Record PageInfo := {
  fileOffset : Z;
  sizeInBytes : Z
}.
Definition sizeofPageInfo : nat := 12.
Definition decodePageInfo (bs : list Z) : PageInfo :=
  {| fileOffset := field bs 0 8; sizeInBytes := field bs 8 4 |}.

End VTFF.

(** [tool::PixelFormat::RgbaU8]. *)
Definition RgbaU8 : Z := 2.

Module VTFFPageTree.

(** [levels] is kept as its size, the level bases being the running
    sums of the page counts as in [CachePageTree]. *)
Record t := {
  numLevels : Z;
  pageInfoPool : list VTFF.PageInfo;
  numPagesX : list Z;
  numPagesY : list Z
}.

Definition getNumLevels (tr : t) : Z := numLevels tr.
Definition getNumPagesX (tr : t) (level : Z) : Z :=
  default 0 (numPagesX tr !! Z.to_nat level).
Definition getNumPagesY (tr : t) (level : Z) : Z :=
  default 0 (numPagesY tr !! Z.to_nat level).

Fixpoint entriesBefore (px py : list Z) (l : nat) : Z :=
  match l with
  | O => 0
  | S k => entriesBefore px py k + default 0 (px !! k) * default 0 (py !! k)
  end.

Definition make (vtPagesX vtPagesY : list Z) (numLevels : Z) : Run t :=
  cassert (bool_decide (0 < numLevels ≤ MaxVTMipLevels));;
  let n := Z.to_nat numLevels in
  let px := take n vtPagesX in
  let py := take n vtPagesY in
  cassert (bool_decide (length px = n ∧ length py = n
                       ∧ Forall (λ v, 0 < v) px ∧ Forall (λ v, 0 < v) py));;
  let pad := replicate (Z.to_nat MaxVTMipLevels - n)%nat 0 in
  ret {| numLevels := numLevels;
         pageInfoPool :=
           replicate (Z.to_nat (entriesBefore (px ++ pad) (py ++ pad) n))
             {| VTFF.fileOffset := 0; VTFF.sizeInBytes := 0 |};
         numPagesX := px ++ pad;
         numPagesY := py ++ pad |}.

Definition slotIndex (tr : t) (level x y : Z) : option nat :=
  if decide (0 ≤ level < getNumLevels tr) then
    let pageIndex := x + y * getNumPagesX tr level in
    if decide (0 ≤ pageIndex < getNumPagesX tr level * getNumPagesY tr level)
    then Some (Z.to_nat (entriesBefore (numPagesX tr) (numPagesY tr) (Z.to_nat level)
                         + pageIndex))
    else None
  else None.

Definition set (x y level fileOffset sizeInBytes : Z) (tr : t) : option t :=
  i ← slotIndex tr level x y;
  _ ← pageInfoPool tr !! i;
  Some {| numLevels := numLevels tr;
          pageInfoPool := <[i := {| VTFF.fileOffset := fileOffset;
                                    VTFF.sizeInBytes := sizeInBytes |}]> (pageInfoPool tr);
          numPagesX := numPagesX tr;
          numPagesY := numPagesY tr |}.

Definition get (id : PageId) (tr : t) : option VTFF.PageInfo :=
  i ← slotIndex tr (pageIdExtractMipLevel id) (pageIdExtractPageX id)
        (pageIdExtractPageY id);
  pageInfoPool tr !! i.

End VTFFPageTree.

Arguments VTFFPageTree.slotIndex : simpl never.

(** ** vt_page_file.cpp: VTFFPageFile *)

Module VTFFPageFile.
Section WithStdio.

Variable io : Stdio.

(** [tool::addDebugInfoToPageData], the text and border overlay drawn
    on a loaded page when [addDebugInfo] is set. *)
Variable addDebugInfoToPageData : Z → Z → Z → list Z → list Z.

Record t := {
  pageFile : FILE io;
  inputFileName : string;
  addDebugInfo : bool;
  pageTree : VTFFPageTree.t
}.

Definition with_file (f : FILE io) (pf : t) : t :=
  {| pageFile := f; inputFileName := inputFileName pf;
     addDebugInfo := addDebugInfo pf; pageTree := pageTree pf |}.

(** [size - 1] is computed in [uint32_t]. *)
Definition isPowerOfTwo (size : Z) : bool :=
  bool_decide (Z.land size ((size - 1) `mod` 2 ^ 32) = 0).

(** [sizeof(pageRequest.pageData)]: the bytes of a page. *)
Definition pageDataBytes : nat := Z.to_nat (PageSizeInPixels * PageSizeInPixels * 4).

(** [fileOffset] is a [uint64_t] given to [fseek] as a [long]. *)
Definition toLong (v : Z) : Z := if decide (v < 2 ^ 63) then v else v - 2 ^ 64.

(** Lines 193-209: the checks on one [MipLevelInfo]. *)
Definition checkLevelInfo (header : VTFF.Header) (levelInfo : VTFF.MipLevelInfo)
    : Run unit :=
  when (negb (isPowerOfTwo (VTFF.numPagesX levelInfo)))
    (vtFatalError "numPagesX is not a power-of-2!");;
  when (negb (isPowerOfTwo (VTFF.numPagesY levelInfo)))
    (vtFatalError "numPagesY is not a power-of-2!");;
  when (bool_decide (VTFF.width levelInfo `mod` VTFF.pageSize header ≠ 0
                     ∨ VTFF.height levelInfo `mod` VTFF.pageSize header ≠ 0))
    (vtFatalError "Bad mipmap level layout").

Definition freadItem {A} (size : nat) (decode : list Z → A) (what : string)
    (f : FILE io) : Run (A * FILE io) :=
  match fread io f size with
  | (Some bs, f') => ret (decode bs, f')
  | (None, f') => vtFatalError what
  end.

(** Lines 185-235: the first pass over the level and page headers. *)
Definition validateLevel (header : VTFF.Header) (level : nat)
    (s : FILE io * list Z * list Z) : Run (FILE io * list Z * list Z) :=
  let '(f, vtPagesX, vtPagesY) := s in
  let! r := freadItem VTFF.sizeofMipLevelInfo VTFF.decodeMipLevelInfo
              "Unable to read mipmap information" f in
  let '(levelInfo, f) := r in
  checkLevelInfo header levelInfo;;
  let! f := forLoop 0 (Z.to_nat (VTFF.numPagesY levelInfo)) (λ y f,
              forLoop 0 (Z.to_nat (VTFF.numPagesX levelInfo)) (λ x f,
                let! r := freadItem VTFF.sizeofPageInfo VTFF.decodePageInfo
                            "Unable to read page info" f in
                let '(pageInfo, f) := r in
                when (bool_decide (VTFF.sizeInBytes pageInfo
                                   ≠ PageSizeInPixels * PageSizeInPixels * 4))
                  (vtFatalError "Bad page size in bytes!");;
                ret f) f) f in
  ret (f, <[level := VTFF.numPagesX levelInfo]> vtPagesX,
          <[level := VTFF.numPagesY levelInfo]> vtPagesY).

(** Lines 248-270: the second pass, which fills the page tree. *)
Definition collectLevel (level : nat) (s : FILE io * VTFFPageTree.t)
    : Run (FILE io * VTFFPageTree.t) :=
  let '(f, tree) := s in
  let! r := freadItem VTFF.sizeofMipLevelInfo VTFF.decodeMipLevelInfo
              "Unable to read mipmap information" f in
  let '(levelInfo, f) := r in
  forLoop 0 (Z.to_nat (VTFF.numPagesY levelInfo)) (λ y s,
    forLoop 0 (Z.to_nat (VTFF.numPagesX levelInfo)) (λ x s,
      let '(f, tree) := s in
      let! r := freadItem VTFF.sizeofPageInfo VTFF.decodePageInfo
                  "Unable to read page info" f in
      let '(pageInfo, f) := r in
      match VTFFPageTree.set (Z.of_nat x) (Z.of_nat y) (Z.of_nat level)
              (VTFF.fileOffset pageInfo) (VTFF.sizeInBytes pageInfo) tree with
      | Some tree => ret (f, tree)
      | None => cassert false;; ret (f, tree)
      end) s) (f, tree).

(** The constructor from an open stream. *)
Definition make (fileStream : FILE io) (filename : string) (debug : bool) : Run t :=
  let! r := freadItem VTFF.sizeofHeader VTFF.decodeHeader
              "Unable to read file header!" fileStream in
  let '(header, f) := r in
  when (bool_decide (VTFF.magic header ≠ VTFF.Magic ∨ VTFF.version header ≠ VTFF.Version))
    (vtFatalError "Wrong file type / bad file version!");;
  when (bool_decide (VTFF.numMipMapLevels header = 0
                     ∨ VTFF.numMipMapLevels header > MaxVTMipLevels
                     ∨ VTFF.pageSize header ≠ PageSizeInPixels
                     ∨ VTFF.borderSize header ≠ PageBorderSizeInPixels
                     ∨ VTFF.pageContentSize header
                       ≠ PageSizeInPixels - PageBorderSizeInPixels * 2))
    (vtFatalError "Bad file format! Data layout is incompatible.");;
  when (bool_decide (VTFF.pixelFormat header ≠ RgbaU8))
    (vtFatalError "Currently, we only support 8bits RGBA page files!");;
  vtLogComment "VTFF file mipmap levels";;
  let numLevels := Z.to_nat (VTFF.numMipMapLevels header) in
  match fgetpos io f with
  | None => vtFatalError "fgetpos() failed!"
  | Some oldFilePos =>
      let zeros := replicate (Z.to_nat MaxVTMipLevels) 0 in
      let! s := forLoop 0 numLevels (validateLevel header) (f, zeros, zeros) in
      let '(f, vtPagesX, vtPagesY) := s in
      match fsetpos io f oldFilePos with
      | (false, _) => vtFatalError "fsetpos() failed!"
      | (true, f) =>
          let! tree := VTFFPageTree.make vtPagesX vtPagesY (VTFF.numMipMapLevels header) in
          let! s := forLoop 0 numLevels collectLevel (f, tree) in
          ret {| pageFile := s.1; inputFileName := filename;
                 addDebugInfo := debug; pageTree := s.2 |}
      end
  end.

(** [loadPage]: the result is the page file, whose stream has moved,
    and the [pageData] of the request. *)
Definition loadPage (pageId : PageId) (pageData : list Z) (pf : t) : Run (t * list Z) :=
  if decide (pageId = InvalidPageId) then
    vtLogError "VTFFPageFile: Invalid page id!";;
    ret (pf, replicate pageDataBytes 0)
  else
    match VTFFPageTree.get pageId (pageTree pf) with
    | None => cassert false;; ret (pf, pageData)
    | Some pageInfo =>
        match fseek io (pageFile pf) (toLong (VTFF.fileOffset pageInfo)) with
        | (false, f) =>
            vtLogError "VTFFPageFile: Failed to seek file offset! fseek() failed!";;
            ret (with_file f pf, replicate pageDataBytes 0)
        | (true, f) =>
            match fread io f pageDataBytes with
            | (None, f) =>
                vtLogWarning "VTFFPageFile: fread() failed to read the bytes of page file!";;
                ret (with_file f pf, replicate pageDataBytes 0)
            | (Some bs, f) =>
                let pageData :=
                  if addDebugInfo pf
                  then addDebugInfoToPageData (pageIdExtractPageX pageId)
                         (pageIdExtractPageY pageId) (pageIdExtractMipLevel pageId) bs
                  else bs in
                ret (with_file f pf, pageData)
            end
        end
    end.

End WithStdio.
End VTFFPageFile.

(** ** vt_page_file.cpp: DebugPageFile *)

Module DebugPageFile.
Section WithDebugInfo.

(** [tool::addDebugInfoToPageData], as for [VTFFPageFile]. *)
Variable addDebugInfoToPageData : Z → Z → Z → list Z → list Z.

(** [PageRequestDataPacket::TotalPagePixels]. *)
Definition TotalPagePixels : nat := Z.to_nat (PageSizeInPixels * PageSizeInPixels).

(** The [Pixel4b] written to every pixel of the page. *)
Definition color (pageId : PageId) : list Z :=
  let x := pageIdExtractPageX pageId in
  let y := pageIdExtractPageY pageId in
  let level := pageIdExtractMipLevel pageId in
  [reverseByte x; reverseByte y;
   reverseByte (clampByte (level + pageIdExtractTextureIndex pageId)); 0xFF].

(** [loadPage]: the [pageData] of the request, as bytes. *)
Definition loadPage (addDebugInfo : bool) (pageId : PageId) : list Z :=
  let pageData := mjoin (replicate TotalPagePixels (color pageId)) in
  if addDebugInfo
  then addDebugInfoToPageData (pageIdExtractPageX pageId) (pageIdExtractPageY pageId)
         (pageIdExtractMipLevel pageId) pageData
  else pageData.

End WithDebugInfo.
End DebugPageFile.

(** ** vt_page_indirection_table.cpp: the indirection tables *)

(** A [for] loop over [xs] whose body may fail. *)
Fixpoint forEach {A St : Type} (xs : list A) (body : A → St → option St) (s : St)
    : option St :=
  match xs with
  | [] => Some s
  | x :: rest => s' ← body x s; forEach rest body s'
  end.

Module PageIndirectionTable.

(** The fields of the base class and the entry pool that both table
    classes declare.  The GL texture and the calls on it are left out. *)
Record t (TableEntry : Type) := {
  numLevels : Z;
  numPagesX : list Z;
  numPagesY : list Z;
  tableEntryPool : list TableEntry
}.
Arguments numLevels {TableEntry}.
Arguments numPagesX {TableEntry}.
Arguments numPagesY {TableEntry}.
Arguments tableEntryPool {TableEntry}.

Section Levels.
Context {TableEntry : Type}.

Definition getNumPagesX (tb : t TableEntry) (level : Z) : Z :=
  default 0 (numPagesX tb !! Z.to_nat level).
Definition getNumPagesY (tb : t TableEntry) (level : Z) : Z :=
  default 0 (numPagesY tb !! Z.to_nat level).

(** [tableLevels[l]] points [entriesBefore l] entries into the pool:
    the running [totalTableEntries] of [initTexture]. *)
Fixpoint entriesBefore (tb : t TableEntry) (l : nat) : Z :=
  match l with
  | O => 0
  | S k => entriesBefore tb k
           + getNumPagesX tb (Z.of_nat k) * getNumPagesY tb (Z.of_nat k)
  end.

Definition with_pool (pool : list TableEntry) (tb : t TableEntry) : t TableEntry :=
  {| numLevels := numLevels tb;
     numPagesX := numPagesX tb;
     numPagesY := numPagesY tb;
     tableEntryPool := pool |}.

(** Position in the pool of [tableLevels[level][index]]. *)
Definition poolIndex (tb : t TableEntry) (level index : Z) : Z :=
  entriesBefore tb (Z.to_nat level) + index.

(** [tableLevels[level][index]] read; [None] outside the pool. *)
Definition readEntry (tb : t TableEntry) (level index : Z) : option TableEntry :=
  let i := poolIndex tb level index in
  if decide (0 ≤ i) then tableEntryPool tb !! Z.to_nat i else None.

(** [tableLevels[level][index] = entry]; [None] outside the pool. *)
Definition writeEntry (tb : t TableEntry) (level index : Z) (entry : TableEntry)
    : option (t TableEntry) :=
  let i := poolIndex tb level index in
  if decide (0 ≤ i) then
    _ ← tableEntryPool tb !! Z.to_nat i;
    Some (with_pool (<[Z.to_nat i := entry]> (tableEntryPool tb)) tb)
  else None.

(** The constructor of the base class with its asserts, then the
    pool of [initTexture], every entry of level [l] set to
    [defaultEntry l]. *)
Definition make (defaultEntry : Z → TableEntry) (vtPagesX vtPagesY : list Z)
    (vtNumLevels : Z) : option (t TableEntry) :=
  if decide (0 < vtNumLevels ≤ MaxVTMipLevels) then
    let n := Z.to_nat vtNumLevels in
    let px := take n vtPagesX in
    let py := take n vtPagesY in
    if decide (length px = n ∧ length py = n
               ∧ Forall (λ v, 0 < v) px ∧ Forall (λ v, 0 < v) py) then
      let pad := replicate (Z.to_nat MaxVTMipLevels - n)%nat 0 in
      let tb := {| numLevels := vtNumLevels;
                   numPagesX := px ++ pad;
                   numPagesY := py ++ pad;
                   tableEntryPool := [] |} in
      Some (with_pool
              (l ← seqZ 0 vtNumLevels;
               replicate (Z.to_nat (getNumPagesX tb l * getNumPagesY tb l))
                         (defaultEntry l))
              tb)
    else None
  else None.

(** The loops of [updateIndirectionTexture], which the two table
    classes repeat word for word but for the entry they write for a
    cache entry: [entryFor l cacheEntry]. *)
Section Update.
Variable entryFor : Z → CacheEntry → TableEntry.

(** The body of the loop over the cache entries. *)
Definition writePage (l : Z) (cacheEntry : CacheEntry) (tb : t TableEntry)
    : option (t TableEntry) :=
  if decide (pageIdExtractMipLevel (pageId cacheEntry) ≠ l
             ∨ pageId cacheEntry = InvalidPageId)
  then Some tb
  else
    let x := pageIdExtractPageX (pageId cacheEntry) in
    let y := pageIdExtractPageY (pageId cacheEntry) in
    let index := x + y * getNumPagesX tb l in
    if decide (index >= 0) then
      if decide (index < getNumPagesX tb l * getNumPagesY tb l) then
        writeEntry tb l index (entryFor l cacheEntry)
      else None
    else None.

(** Write all pages in a level. *)
Definition writePages (l : Z) (pages : list CacheEntry) (tb : t TableEntry)
    : option (t TableEntry) :=
  forEach (seq 0 PageCacheMgr.TotalCachePages)
          (λ p tb, cacheEntry ← pages !! p; writePage l cacheEntry tb)
          tb.

(** Upsample for next level. *)
Definition upsample (l : Z) (tb : t TableEntry) : option (t TableEntry) :=
  let srcW := getNumPagesX tb l in
  let destW := getNumPagesX tb (l - 1) in
  let destH := getNumPagesY tb (l - 1) in
  forEach (seqZ 0 destH)
          (λ y, forEach (seqZ 0 destW)
                  (λ x tb,
                     entry ← readEntry tb l (Z.shiftr x 1 + Z.shiftr y 1 * srcW);
                     writeEntry tb (l - 1) (x + y * destW) entry))
          tb.

(** The body of the loop over the levels. *)
Definition updateLevel (pages : list CacheEntry) (l : Z) (tb : t TableEntry)
    : option (t TableEntry) :=
  tb ← writePages l pages tb;
  if decide (l ≠ 0) then upsample l tb else Some tb.

(** The levels from [numLevels - 1] down to [0]. *)
Definition updateLevels (pages : list CacheEntry) (tb : t TableEntry)
    : option (t TableEntry) :=
  forEach (reverse (seqZ 0 (numLevels tb))) (updateLevel pages) tb.
End Update.
End Levels.

End PageIndirectionTable.

Module PageIndirectionTableRgba8888.

Record TableEntry := {
  cachePageX : Z;
  cachePageY : Z;
  scaleHigh : Z;
  scaleLow : Z
}.

Definition t := PageIndirectionTable.t TableEntry.

(** [const uint16_t scale = (numPagesX[0] * 16) >> l]. *)
Definition scale (numPagesX0 l : Z) : Z :=
  Z.shiftr (numPagesX0 * 16) l mod 65536.

Definition defaultEntry (numPagesX0 l : Z) : TableEntry :=
  {| cachePageX := 0;
     cachePageY := 0;
     scaleHigh := Z.land (scale numPagesX0 l) 0xFF mod 256;
     scaleLow := Z.shiftr (scale numPagesX0 l) 8 mod 256 |}.

Definition make (vtPagesX vtPagesY : list Z) (vtNumLevels : Z) : option t :=
  PageIndirectionTable.make (defaultEntry (default 0 (vtPagesX !! 0%nat)))
    vtPagesX vtPagesY vtNumLevels.

(** The entry written for [cacheEntry] at level [l]. *)
Definition entryFor (tb : t) (l : Z) (cacheEntry : CacheEntry) : TableEntry :=
  {| cachePageX := coordX (cacheCoord cacheEntry);
     cachePageY := coordY (cacheCoord cacheEntry);
     scaleHigh := Z.land (scale (PageIndirectionTable.getNumPagesX tb 0) l) 0xFF mod 256;
     scaleLow := Z.shiftr (scale (PageIndirectionTable.getNumPagesX tb 0) l) 8 mod 256 |}.

Definition updateIndirectionTexture (pages : list CacheEntry) (tb : t) : option t :=
  PageIndirectionTable.updateLevels (entryFor tb) pages tb.

End PageIndirectionTableRgba8888.

Module PageIndirectionTableRgb565.

(** [using TableEntry = uint16_t]. *)
Definition TableEntry := Z.

Record t := {
  table : PageIndirectionTable.t TableEntry;
  log2VirtPagesWide : Z
}.

Definition defaultEntry (log2Wide l : Z) : TableEntry :=
  Z.shiftl (log2Wide - l) 5 mod 65536.

(** [log2VirtPagesWide] is [static_cast<int>(std::log2(vtPagesX[0]))]. *)
Definition make (vtPagesX vtPagesY : list Z) (vtNumLevels : Z) : option t :=
  let log2Wide := Z.log2 (default 0 (vtPagesX !! 0%nat)) in
  tb ← PageIndirectionTable.make (defaultEntry log2Wide) vtPagesX vtPagesY vtNumLevels;
  Some {| table := tb; log2VirtPagesWide := log2Wide |}.

(** The entry written for [cacheEntry] at level [l]. *)
Definition entryFor (tb : t) (l : Z) (cacheEntry : CacheEntry) : TableEntry :=
  Z.lor (Z.lor (Z.shiftl (coordX (cacheCoord cacheEntry) * 32 ÷ TableSizeInPages) 11)
               (Z.shiftl (log2VirtPagesWide tb - l) 5))
        (coordY (cacheCoord cacheEntry) * 32 ÷ TableSizeInPages)
  mod 65536.

Definition updateIndirectionTexture (pages : list CacheEntry) (tb : t) : option t :=
  table' ← PageIndirectionTable.updateLevels (entryFor tb) pages (table tb);
  Some {| table := table'; log2VirtPagesWide := log2VirtPagesWide tb |}.

End PageIndirectionTableRgb565.

(** ** vt_page_resolver.cpp: PageResolver *)

Module PageResolver.

(** The resolver keeps its bound on requests per frame, the count of
    visible pages and the registered textures, of which the loop uses
    the page caches.  [pageMap] and [sortedPages] are empty between
    calls and are values of [feedbackBufferAnalysis] here. *)
Record t := {
  maxPageRequestsPerFrame : Z;
  visiblePages : Z;
  registeredTextures : list PageCacheMgr.t
}.

(** [pageMap[a]] of [std::unordered_map<PageId, int>]: zero for a key
    that was not inserted. *)
Definition frequency (pageMap : gmap Z Z) (a : PageId) : Z := default 0 (pageMap !! a).

(** Lines 172-180: the frequency map of the feedback pixels. *)
Definition countPages (framePages : list PageId) : gmap Z Z :=
  foldl (λ pageMap p,
           if decide (p ≠ InvalidPageId)
           then <[p := frequency pageMap p + 1]> pageMap
           else pageMap)
        ∅ framePages.

(** The comparison given to [std::sort], lines 196-216. *)
Definition pageBefore (pageMap : gmap Z Z) (a b : PageId) : bool :=
  let aMip := pageIdExtractMipLevel a in
  let bMip := pageIdExtractMipLevel b in
  if decide (aMip > bMip) then true
  else if decide (aMip = bMip) then bool_decide (frequency pageMap a > frequency pageMap b)
  else false.

(** [a] may stand before [b] in a range sorted by [pageBefore]. *)
Definition notAfter (pageMap : gmap Z Z) (a b : PageId) : Prop :=
  pageBefore pageMap b a = false.

Global Instance notAfter_dec pageMap a b : Decision (notAfter pageMap a b).
Proof. unfold notAfter. apply _. Defined.

(** Lines 183-217.  The keys of the map are copied in the order of the
    map's iteration, which the standard leaves open, and sorted;
    [std::sort] is a merge sort by the same comparison here, the order
    it gives to ids that the comparison does not separate being
    unspecified too. *)
Definition sortPages (pageMap : gmap Z Z) : list PageId :=
  merge_sort (notAfter pageMap) (map_to_list pageMap).*1.

(** Lines 277-300. *)
Definition processPageRequest (requestId : PageId) (pageCache : PageCacheMgr.t)
    (pageProvider : PageProvider.t)
    : option (Z * PageCacheMgr.t * PageProvider.t) :=
  '(pageStatus, pageCache) ← PageCacheMgr.lookupPage requestId pageCache;
  match pageStatus with
  | Unavailable =>
      '(added, pageProvider) ← PageProvider.addPageRequest requestId pageProvider;
      if (added : bool) then Some (1, pageCache, pageProvider)
      else
        pageCache ← PageCacheMgr.notifyDroppedRequest requestId pageCache;
        Some (0, pageCache, pageProvider)
  | _ => Some (1, pageCache, pageProvider)
  end.

(** [static_cast<size_t>] of an [int]. *)
Definition toSizeT (v : Z) : Z := v `mod` 2 ^ 64.

(** Lines 245-262: the loop over the sorted pages, from [pages] on. *)
Fixpoint requestLoop (pages : list PageId) (newRequests : Z) (r : t)
    (pageProvider : PageProvider.t) : option (Z * t * PageProvider.t) :=
  match pages with
  | [] => Some (newRequests, r, pageProvider)
  | requestId :: rest =>
      if decide (newRequests < toSizeT (maxPageRequestsPerFrame r)) then
        let textureIndex :=
          Z.to_nat (Z.min (pageIdExtractTextureIndex requestId)
                      (Z.of_nat (length (registeredTextures r)))) in
        pageCache ← registeredTextures r !! textureIndex;
        '(n, pageCache, pageProvider) ←
          processPageRequest (PageCacheMgr.sanitizePageId requestId pageCache)
            pageCache pageProvider;
        let r := {| maxPageRequestsPerFrame := maxPageRequestsPerFrame r;
                    visiblePages := visiblePages r;
                    registeredTextures :=
                      <[textureIndex := pageCache]> (registeredTextures r) |} in
        requestLoop rest (newRequests + n) r pageProvider
      else Some (newRequests, r, pageProvider)
  end.

(** [feedbackBufferAnalysis] after the read-back of the feedback
    buffer into [framePages]. *)
Definition feedbackBufferAnalysis (framePages : list PageId) (r : t)
    (pageProvider : PageProvider.t) : option (t * PageProvider.t) :=
  let pageMap := countPages framePages in
  let sortedPages := sortPages pageMap in
  let visible := Z.of_nat (size pageMap) in
  let r := {| maxPageRequestsPerFrame :=
                if decide (visible >= TotalTablePages) then TotalTablePages
                else maxPageRequestsPerFrame r;
              visiblePages := visible;
              registeredTextures := registeredTextures r |} in
  '(_, r, pageProvider) ← requestLoop sortedPages 0 r pageProvider;
  Some (r, pageProvider).

End PageResolver.

Arguments PageResolver.processPageRequest : simpl never.

(* ================================================================== *)
(** * Specification predicates *)
(* ================================================================== *)

(** The page coordinates [(level, x, y)] that address a tree slot. *)
Definition pageKey (id : PageId) : Z * Z * Z :=
  (pageIdExtractMipLevel id, pageIdExtractPageX id, pageIdExtractPageY id).

(** [id] is in range for the tree: the condition of [validPageRequest]. *)
Definition inRange (tr : CachePageTree.t) (id : PageId) : Prop :=
  pageIdExtractMipLevel id < CachePageTree.numLevels tr
  ∧ pageIdExtractPageX id < CachePageTree.getNumPagesX tr (pageIdExtractMipLevel id)
  ∧ pageIdExtractPageY id < CachePageTree.getNumPagesY tr (pageIdExtractMipLevel id).

(** What the [CachePageTree] constructor establishes. *)
Record tree_wf (tr : CachePageTree.t) : Prop := {
  tw_levels : 0 < CachePageTree.numLevels tr ≤ MaxVTMipLevels;
  tw_pagesX : ∀ l, 0 ≤ l < CachePageTree.numLevels tr → 0 < CachePageTree.getNumPagesX tr l;
  tw_pagesY : ∀ l, 0 ≤ l < CachePageTree.numLevels tr → 0 < CachePageTree.getNumPagesY tr l;
  tw_pool : length (CachePageTree.cacheEntryPtrPool tr)
            = Z.to_nat (CachePageTree.entriesBefore tr (Z.to_nat (CachePageTree.numLevels tr)))
}.

Definition head_or (l : list nat) (n : option nat) : option nat :=
  match l with [] => n | b :: _ => Some b end.

Definition last_or (l : list nat) (p : option nat) : option nat :=
  match last l with Some b => Some b | None => p end.

(** [seg pool p l n]: the entries [l] are linked in this order, the first
    one's [prev] is [p] and the last one's [next] is [n]. *)
Fixpoint seg (pool : list CacheEntry) (p : option nat) (l : list nat)
    (n : option nat) : Prop :=
  match l with
  | [] => True
  | a :: l' =>
      (∃ ent, pool !! a = Some ent ∧ prev ent = p ∧ next ent = head_or l' n)
      ∧ seg pool (Some a) l' n
  end.

(** The LRU chain of the manager is the list [order], from [mru] to [lru]:
    a doubly linked, acyclic list through all the entries of the pool. *)
Record lru_chain (c : PageCacheMgr.t) (order : list nat) : Prop := {
  lc_nodup : NoDup order;
  lc_length : length order = PageCacheMgr.TotalCachePages;
  lc_seg : seg (PageCacheMgr.cacheEntryPool c) None order None;
  lc_mru : PageCacheMgr.mru c = head order;
  lc_lru : PageCacheMgr.lru c = last order
}.

(** The invariant of the cache manager. *)
Record cache_inv (c : PageCacheMgr.t) : Prop := {
  ci_tree : tree_wf (PageCacheMgr.cachePageTree c);
  ci_pool : length (PageCacheMgr.cacheEntryPool c) = PageCacheMgr.TotalCachePages;
  ci_chain : ∃ order, lru_chain c order;
  ci_slots : Forall (λ s, ∀ e, s = Entry e → (e < PageCacheMgr.TotalCachePages)%nat)
               (CachePageTree.cacheEntryPtrPool (PageCacheMgr.cachePageTree c));
  ci_ids : Forall (λ pid, pid = InvalidPageId
                          ∨ inRange (PageCacheMgr.cachePageTree c) pid)
             (pageId <$> PageCacheMgr.cacheEntryPool c)
}.

(** Two trees of the same shape. *)
Definition same_geometry (tr tr' : CachePageTree.t) : Prop :=
  CachePageTree.numLevels tr' = CachePageTree.numLevels tr
  ∧ CachePageTree.numPagesX tr' = CachePageTree.numPagesX tr
  ∧ CachePageTree.numPagesY tr' = CachePageTree.numPagesY tr
  ∧ length (CachePageTree.cacheEntryPtrPool tr') = length (CachePageTree.cacheEntryPtrPool tr).

(** The pool position of the tree slot of an in-range page. *)
Definition slot_of (tr : CachePageTree.t) (id : PageId) : nat :=
  default 0%nat (CachePageTree.slotIndex tr (pageIdExtractMipLevel id)
                   (pageIdExtractPageX id) (pageIdExtractPageY id)).

(** The fixed part of the entries, their page ids and cache coordinates,
    is the same in both pools. *)
Definition same_payload (pool pool' : list CacheEntry) : Prop :=
  pageId <$> pool' = pageId <$> pool ∧ cacheCoord <$> pool' = cacheCoord <$> pool.

(** The pool after the entry [e], whose neighbours are [q] and [nx], has
    been unlinked and linked in front of the old head [a]. *)
Definition moved_front (pool : list CacheEntry) (a q e : nat) (nx : option nat)
    : list CacheEntry :=
  let pool1 := alter (set_next nx) q pool in
  let pool2 := match nx with
               | Some b => alter (set_prev (Some q)) b pool1
               | None => pool1
               end in
  alter (set_prev (Some e)) a
    (alter (set_next (Some a)) e (alter (set_prev None) e pool2)).

(** A call of the cache manager's interface, and a sequence of calls. *)
Inductive CacheCall :=
  | CallLookupPage (id : PageId)
  | CallAccommodatePage (id : PageId)
  | CallPurgeCache.

Definition runCall (call : CacheCall) (c : PageCacheMgr.t) : option PageCacheMgr.t :=
  match call with
  | CallLookupPage id => snd <$> PageCacheMgr.lookupPage id c
  | CallAccommodatePage id => snd <$> PageCacheMgr.accommodatePage id c
  | CallPurgeCache => Some (PageCacheMgr.purgeCache c)
  end.

Fixpoint runCalls (calls : list CacheCall) (c : PageCacheMgr.t) : option PageCacheMgr.t :=
  match calls with
  | [] => Some c
  | call :: rest => c' ← runCall call c; runCalls rest c'
  end.

Definition call_inRange (tr : CachePageTree.t) (call : CacheCall) : Prop :=
  match call with
  | CallLookupPage id | CallAccommodatePage id => inRange tr id
  | CallPurgeCache => True
  end.

(** Accommodating pages in succession. *)
Fixpoint accommodatePages (ids : list PageId) (c : PageCacheMgr.t) : option PageCacheMgr.t :=
  match ids with
  | [] => Some c
  | id :: rest => r ← PageCacheMgr.accommodatePage id c; accommodatePages rest r.2
  end.

(** The entry [e] at position [i] of the chain [order] points back to its
    predecessor and forward to its successor in [order]. *)
Definition linked_at (pool : list CacheEntry) (order : list nat) (i e : nat) : Prop :=
  ∃ ent, pool !! e = Some ent
         ∧ prev ent = match i with O => None | S j => order !! j end
         ∧ next ent = order !! S i.

(** The page ids held by the entries of the chain, in chain order. *)
Definition ids_of (pool : list CacheEntry) (order : list nat) : list PageId :=
  (λ e, default InvalidPageId (pageId <$> pool !! e)) <$> order.

(** The cache holds exactly the pages [ids], most recently used first:
    every resident page is published in the tree under its entry, and
    the slot of every other in-range page is null. *)
Record tracked (c : PageCacheMgr.t) (ids : list PageId) : Prop := {
  tk_inv : cache_inv c;
  tk_chain : ∃ order, lru_chain c order
                      ∧ ids_of (PageCacheMgr.cacheEntryPool c) order = ids;
  tk_published : ∀ e ent,
      PageCacheMgr.cacheEntryPool c !! e = Some ent → pageId ent ≠ InvalidPageId →
      CachePageTree.getId (PageCacheMgr.cachePageTree c) (pageId ent) = Some (Entry e);
  tk_unpublished : ∀ id,
      inRange (PageCacheMgr.cachePageTree c) id →
      (∀ e ent, PageCacheMgr.cacheEntryPool c !! e = Some ent →
                pageId ent ≠ InvalidPageId → pageKey (pageId ent) ≠ pageKey id) →
      CachePageTree.getId (PageCacheMgr.cachePageTree c) id = Some Null
}.

(** The requests that pass the first two tests of the loop body address
    pages of this texture's tree. *)
Definition request_ok (vt : VirtualTexture.t) (request : PageRequestDataPacket.t) : Prop :=
  pageIdExtractTextureIndex (PageRequestDataPacket.pageId request) = VirtualTexture.textureIndex vt →
  PageRequestDataPacket.fileId request = 0 →
  inRange (PageCacheMgr.cachePageTree (VirtualTexture.pageCacheMgr vt))
    (PageRequestDataPacket.pageId request).

Definition not_in_flight (pool : list TreeSlot) (s : nat) : Prop :=
  pool !! s ≠ Some RequestedPageDummy.

(** A provider in asynchronous mode with one registered texture made of
    three page files, as the planets demo registers its textures. *)
Definition threeFileProvider : PageProvider.t :=
  PageProvider.registerVirtualTexture [λ _, []; λ _, []; λ _, []] (PageProvider.make true).

(** The [n] little-endian bytes of [v]. *)
Fixpoint leBytes (n : nat) (v : Z) : list Z :=
  match n with
  | O => []
  | S n' => v `mod` 256 :: leBytes n' (v `div` 256)
  end.

(** A VTFF file with a well-formed header for one mip level whose level
    header declares zero pages in both axes. *)
Definition zeroPagesFile : list Z :=
  leBytes 4 VTFF.Magic ++ leBytes 4 VTFF.Version ++ leBytes 4 RgbaU8 ++ leBytes 4 1
  ++ leBytes 4 120 ++ leBytes 4 128 ++ leBytes 4 4
  ++ leBytes 4 0 ++ leBytes 4 0 ++ leBytes 2 0 ++ leBytes 2 0.

(** The number of feedback pixels that hold [id]. *)
Definition occurrences (id : PageId) (framePages : list PageId) : Z :=
  Z.of_nat (length (filter (λ p, p = id) framePages)).

(** The page ids of the feedback buffer without the sentinel, each once. *)
Definition uniquePages (framePages : list PageId) : list PageId :=
  remove_dups (filter (λ p, p ≠ InvalidPageId) framePages).

(** The pool of a table at a position given as an integer. *)
Definition poolAt {E : Type} (tb : PageIndirectionTable.t E) (i : Z) : option E :=
  if decide (0 ≤ i) then PageIndirectionTable.tableEntryPool tb !! Z.to_nat i else None.

(** Two tables of the same geometry and pool size. *)
Definition same_shape {E : Type} (a b : PageIndirectionTable.t E) : Prop :=
  PageIndirectionTable.numLevels a = PageIndirectionTable.numLevels b
  ∧ PageIndirectionTable.numPagesX a = PageIndirectionTable.numPagesX b
  ∧ PageIndirectionTable.numPagesY a = PageIndirectionTable.numPagesY b
  ∧ length (PageIndirectionTable.tableEntryPool a)
    = length (PageIndirectionTable.tableEntryPool b).

(** What the constructor of the base class asserts. *)
Definition levels_wf {E : Type} (tb : PageIndirectionTable.t E) : Prop :=
  ∀ l, 0 ≤ l < PageIndirectionTable.numLevels tb →
    0 < PageIndirectionTable.getNumPagesX tb l
    ∧ 0 < PageIndirectionTable.getNumPagesY tb l.

(** The index that [updateIndirectionTexture] computes for a cache entry
    at level [l]. *)
Definition pageIndex {E : Type} (tb : PageIndirectionTable.t E) (l : Z)
    (cacheEntry : CacheEntry) : Z :=
  pageIdExtractPageX (pageId cacheEntry)
  + pageIdExtractPageY (pageId cacheEntry) * PageIndirectionTable.getNumPagesX tb l.

(** One of the first [TotalCachePages] cache entries holds a page of
    level [l] that is written at [index] of that level. *)
Definition overwrites {E : Type} (pages : list CacheEntry)
    (tb : PageIndirectionTable.t E) (l index : Z) : Prop :=
  ∃ p cacheEntry,
    (p < PageCacheMgr.TotalCachePages)%nat
    ∧ pages !! p = Some cacheEntry
    ∧ pageId cacheEntry ≠ InvalidPageId
    ∧ pageIdExtractMipLevel (pageId cacheEntry) = l
    ∧ pageIndex tb l cacheEntry = index.

(** Every entry of a level below the top that no cache entry of that
    level overwrites is the entry of the next level at the halved
    position. *)
Definition upsampled {E : Type} (pages : list CacheEntry)
    (tb : PageIndirectionTable.t E) : Prop :=
  ∀ L x y,
    0 < L < PageIndirectionTable.numLevels tb →
    0 ≤ x < PageIndirectionTable.getNumPagesX tb (L - 1) →
    0 ≤ y < PageIndirectionTable.getNumPagesY tb (L - 1) →
    ¬ overwrites pages tb (L - 1) (x + y * PageIndirectionTable.getNumPagesX tb (L - 1)) →
    ∃ entry,
      PageIndirectionTable.readEntry tb (L - 1)
        (x + y * PageIndirectionTable.getNumPagesX tb (L - 1)) = Some entry
      ∧ PageIndirectionTable.readEntry tb L
          (x / 2 + y / 2 * PageIndirectionTable.getNumPagesX tb L) = Some entry.

(** A table as [initTexture] allocates it, with levels that at most
    double from one to the next finer one, and cache entries whose pages
    lie inside the levels of the table. *)
Record update_ready {E : Type} (pages : list CacheEntry)
    (tb : PageIndirectionTable.t E) : Prop := {
  ur_levels : levels_wf tb;
  ur_pool : Z.of_nat (length (PageIndirectionTable.tableEntryPool tb))
            = PageIndirectionTable.entriesBefore tb
                (Z.to_nat (PageIndirectionTable.numLevels tb));
  ur_halving : ∀ l, 0 < l < PageIndirectionTable.numLevels tb →
     PageIndirectionTable.getNumPagesX tb (l - 1)
       ≤ 2 * PageIndirectionTable.getNumPagesX tb l
     ∧ PageIndirectionTable.getNumPagesY tb (l - 1)
       ≤ 2 * PageIndirectionTable.getNumPagesY tb l;
  ur_pages : (PageCacheMgr.TotalCachePages ≤ length pages)%nat;
  ur_entries : ∀ p cacheEntry,
     pages !! p = Some cacheEntry →
     pageId cacheEntry ≠ InvalidPageId →
     pageIdExtractMipLevel (pageId cacheEntry) < PageIndirectionTable.numLevels tb →
     pageIndex tb (pageIdExtractMipLevel (pageId cacheEntry)) cacheEntry
     < PageIndirectionTable.getNumPagesX tb (pageIdExtractMipLevel (pageId cacheEntry))
       * PageIndirectionTable.getNumPagesY tb (pageIdExtractMipLevel (pageId cacheEntry))
}.

Global Instance inRange_dec tr id : Decision (inRange tr id).
Proof. unfold inRange. apply _. Defined.

(** 257 pages of the finest level of a texture that is 32 pages wide. *)
Definition pages257 : list PageId :=
  (λ i, makePageId (i `mod` 32) (i / 32) 0 0) <$> seqZ 0 257.

(** A page file in memory whose only page lies at an offset that does
    not fit a [long]. *)
Definition unseekablePageFile : VTFFPageFile.t memStdio :=
  {| VTFFPageFile.pageFile := ([], 0%nat) : FILE memStdio;
     VTFFPageFile.inputFileName := "pages.vt";
     VTFFPageFile.addDebugInfo := false;
     VTFFPageFile.pageTree :=
       {| VTFFPageTree.numLevels := 1;
          VTFFPageTree.pageInfoPool :=
            [{| VTFF.fileOffset := 2 ^ 64 - 1; VTFF.sizeInBytes := 65536 |}];
          VTFFPageTree.numPagesX := [1];
          VTFFPageTree.numPagesY := [1] |} |}.

(** The entries of a cache that holds the one page [(1, 0)] of level 0,
    at the cache coordinates [(3, 4)]. *)
Definition onePageEntries : list CacheEntry :=
  <[0%nat := {| prev := None; next := Some 1%nat; pageId := makePageId 1 0 0 0;
                cacheCoord := {| coordX := 3; coordY := 4 |} |}]>
    (replicate PageCacheMgr.TotalCachePages
       {| prev := None; next := None; pageId := InvalidPageId;
          cacheCoord := {| coordX := 0; coordY := 0 |} |}).

(** A feedback buffer of six pixels with two pages, one seen three
    times, and two pixels of background. *)
Definition sixPixels : list PageId :=
  [makePageId 1 0 0 0; InvalidPageId; makePageId 0 0 1 0; makePageId 1 0 0 0;
   InvalidPageId; makePageId 1 0 0 0].

(** The cache coordinate that the constructor gives to entry [i]. *)
Definition coordOf (i : nat) : CachePageCoord :=
  {| coordX := Z.of_nat i `mod` PageCacheMgr.CacheSizeInPages;
     coordY := Z.of_nat i `div` PageCacheMgr.CacheSizeInPages |}.

(** The packet that [runImmediateRequest] pushes for page file [f]. *)
Definition loadedPacket (requestId : PageId) (f : nat) (pageFile : PageProvider.PageFile)
    : PageRequestDataPacket.t :=
  {| PageRequestDataPacket.pageId := requestId;
     PageRequestDataPacket.fileId := Z.of_nat f;
     PageRequestDataPacket.pageData := pageFile requestId |}.

(** A provider in synchronous mode with one registered texture of two
    page files. *)
Definition twoFileSyncProvider : PageProvider.t :=
  PageProvider.registerVirtualTexture [λ id, [id]; λ id, [id + 1]] (PageProvider.make false).

(** A provider in asynchronous mode with one registered texture of one
    page file. *)
Definition oneFileProvider : PageProvider.t :=
  PageProvider.registerVirtualTexture [λ _, []] (PageProvider.make true).

(** A provider whose counter stands at the limit. *)
Definition fullProvider : PageProvider.t :=
  {| PageProvider.outstandingRequests := PageProvider.MaxOutstandingPageRequests;
     PageProvider.readyQueue := [];
     PageProvider.registeredTextures := [[λ _, []]];
     PageProvider.forceSynchronous := false;
     PageProvider.dispatched := [] |}.

(** The entry of the RGB-5:6:5 table as a function of the cache
    coordinates [x], [y] and the level offset [d]. *)
Definition pack565 (x y d : Z) : Z :=
  Z.lor (Z.lor (Z.shiftl (x * 32 ÷ TableSizeInPages) 11) (Z.shiftl d 5))
        (y * 32 ÷ TableSizeInPages)
  `mod` 65536.

(** The cache entry [p] holds a page of a level of the table, and the
    other cache entries that [updateIndirectionTexture] writes to the
    same table entry have the same cache coordinates. *)
Definition page_cached {E : Type} (pages : list CacheEntry)
    (tb : PageIndirectionTable.t E) (p : nat) (e : CacheEntry) : Prop :=
  (p < PageCacheMgr.TotalCachePages)%nat
  ∧ pages !! p = Some e
  ∧ pageId e ≠ InvalidPageId
  ∧ pageIdExtractMipLevel (pageId e) < PageIndirectionTable.numLevels tb
  ∧ ∀ p' e', (p' < PageCacheMgr.TotalCachePages)%nat → pages !! p' = Some e' →
      pageId e' ≠ InvalidPageId →
      pageIdExtractMipLevel (pageId e') = pageIdExtractMipLevel (pageId e) →
      pageIndex tb (pageIdExtractMipLevel (pageId e)) e'
      = pageIndex tb (pageIdExtractMipLevel (pageId e)) e →
      cacheCoord e' = cacheCoord e.

(** The top level of the table is as it was and every entry below it
    is the entry of the next level at the halved position. *)
Definition top_level_spread {E : Type} (tb tb' : PageIndirectionTable.t E) : Prop :=
  (∀ index, 0 ≤ index →
     PageIndirectionTable.readEntry tb' (PageIndirectionTable.numLevels tb' - 1) index
     = PageIndirectionTable.readEntry tb (PageIndirectionTable.numLevels tb - 1) index)
  ∧ (∀ L x y, 0 < L < PageIndirectionTable.numLevels tb' →
       0 ≤ x < PageIndirectionTable.getNumPagesX tb' (L - 1) →
       0 ≤ y < PageIndirectionTable.getNumPagesY tb' (L - 1) →
       ∃ entry,
         PageIndirectionTable.readEntry tb' (L - 1)
           (x + y * PageIndirectionTable.getNumPagesX tb' (L - 1)) = Some entry
         ∧ PageIndirectionTable.readEntry tb' L
             (x / 2 + y / 2 * PageIndirectionTable.getNumPagesX tb' L) = Some entry).

(** A stream of 28 zero bytes: a header with the wrong magic number. *)
Definition zeroHeaderFile : FILE memStdio := (replicate 28 0, 0%nat).









(* ================================================================== *)
(** * Part II: properties *)
(* ================================================================== *)

(** ** The PageId codec *)

Lemma land_shiftr_byte (v : Z) (k : Z) :
  0 ≤ k → Z.shiftr (Z.land v (Z.shiftl 0xFF k)) k = Z.land (Z.shiftr v k) 0xFF.
Proof.
  intros Hk. rewrite Z.shiftr_land. f_equal.
  rewrite Z.shiftr_shiftl_l by lia. rewrite Z.sub_diag. reflexivity.
Qed.

Lemma extract_byte_range (v k : Z) :
  0 ≤ k → 0 ≤ Z.shiftr (Z.land v (Z.shiftl 0xFF k)) k < 256.
Proof.
  intros Hk. rewrite land_shiftr_byte by done.
  change 0xFF with (Z.ones 8). rewrite Z.land_ones by lia.
  apply Z.mod_pos_bound. lia.
Qed.

Lemma pageIdExtractPageX_range id : 0 ≤ pageIdExtractPageX id < 256.
Proof. apply (extract_byte_range id 0). lia. Qed.
Lemma pageIdExtractPageY_range id : 0 ≤ pageIdExtractPageY id < 256.
Proof. apply (extract_byte_range id 8). lia. Qed.
Lemma pageIdExtractMipLevel_range id : 0 ≤ pageIdExtractMipLevel id < 256.
Proof. apply (extract_byte_range id 16). lia. Qed.
Lemma pageIdExtractTextureIndex_range id : 0 ≤ pageIdExtractTextureIndex id < 256.
Proof. apply (extract_byte_range id 24). lia. Qed.

Section Codec.

Lemma testbit_255 (n : Z) : Z.testbit 255 n = (0 <=? n) && (n <? 8).
Proof.
  destruct (Z.leb_spec 0 n) as [Hn|Hn]; simpl.
  - change 255 with (Z.ones 8). destruct (Z.ltb_spec n 8).
    + apply Z.ones_spec_low. lia.
    + apply Z.ones_spec_high. lia.
  - apply Z.testbit_neg_r. lia.
Qed.

Ltac bits :=
  apply Z.bits_inj'; intros n Hn;
  repeat (rewrite ?Z.land_spec, ?Z.lor_spec, ?Z.shiftr_spec, ?Z.shiftl_spec,
            ?testbit_255 by lia);
  repeat match goal with
         | |- context [?a <=? ?b] => destruct (Z.leb_spec a b); try lia
         | |- context [?a <? ?b] => destruct (Z.ltb_spec a b); try lia
         end;
  simpl; rewrite ?andb_false_r, ?orb_false_r, ?andb_true_r, ?Z.testbit_neg_r by lia;
  simpl; try reflexivity.

Lemma extract_make_x x y level texId :
  pageIdExtractPageX (makePageId x y level texId) = Z.land x 0xFF.
Proof.
  unfold pageIdExtractPageX, makePageId. bits.
  all: f_equal; lia.
Qed.

Lemma extract_make_y x y level texId :
  pageIdExtractPageY (makePageId x y level texId) = Z.land y 0xFF.
Proof.
  unfold pageIdExtractPageY, makePageId.
  change 0x0000FF00 with (Z.shiftl 255 8). bits.
  all: f_equal; lia.
Qed.

Lemma extract_make_level x y level texId :
  pageIdExtractMipLevel (makePageId x y level texId) = Z.land level 0xFF.
Proof.
  unfold pageIdExtractMipLevel, makePageId.
  change 0x00FF0000 with (Z.shiftl 255 16). bits.
  all: f_equal; lia.
Qed.

Lemma extract_make_tex x y level texId :
  pageIdExtractTextureIndex (makePageId x y level texId) = Z.land texId 0xFF.
Proof.
  unfold pageIdExtractTextureIndex, makePageId.
  change 0xFF000000 with (Z.shiftl 255 24). bits.
  all: f_equal; lia.
Qed.

Lemma land_255_small v : 0 ≤ v < 256 → Z.land v 0xFF = v.
Proof.
  intros Hv. change 0xFF with (Z.ones 8). rewrite Z.land_ones by lia.
  apply Z.mod_small. lia.
Qed.

End Codec.


(** ** The cache page tree *)

Section TreeFacts.
Import CachePageTree.

Lemma entriesBefore_mono tr (a b : nat) :
  tree_wf tr → (a ≤ b)%nat → Z.of_nat b ≤ numLevels tr →
  0 ≤ entriesBefore tr a ≤ entriesBefore tr b.
Proof.
  intros Hwf Hab Hb. induction b as [|b IH].
  - assert (a = 0%nat) as -> by lia. simpl. lia.
  - destruct (decide (a = S b)) as [->|Hne]; [|].
    + assert (Hz : ∀ k : nat, Z.of_nat k ≤ numLevels tr → 0 ≤ entriesBefore tr k).
      { clear -Hwf. induction k as [|k IHk]; simpl; [lia|]. intros Hk.
        pose proof (tw_pagesX _ Hwf (Z.of_nat k)).
        pose proof (tw_pagesY _ Hwf (Z.of_nat k)). nia. }
      specialize (Hz (S b) Hb). lia.
    + simpl.
      pose proof (tw_pagesX _ Hwf (Z.of_nat b)).
      pose proof (tw_pagesY _ Hwf (Z.of_nat b)).
      assert (0 ≤ entriesBefore tr a ≤ entriesBefore tr b) by (apply IH; lia).
      nia.
Qed.

Lemma same_geometry_entriesBefore tr tr' l :
  same_geometry tr tr' → entriesBefore tr' l = entriesBefore tr l.
Proof.
  intros (_ & HX & HY & _). induction l as [|l IH]; simpl; [done|].
  unfold getNumPagesX, getNumPagesY. by rewrite IH, HX, HY.
Qed.

Lemma same_geometry_slotIndex tr tr' level x y :
  same_geometry tr tr' → slotIndex tr' level x y = slotIndex tr level x y.
Proof.
  intros Hg. unfold slotIndex.
  rewrite (same_geometry_entriesBefore _ _ _ Hg).
  destruct Hg as (HL & HX & HY & _).
  unfold getNumPagesX, getNumPagesY. by rewrite HL, HX, HY.
Qed.

Lemma same_geometry_inRange tr tr' id :
  same_geometry tr tr' → inRange tr' id ↔ inRange tr id.
Proof.
  intros (HL & HX & HY & _). unfold inRange, getNumPagesX, getNumPagesY.
  by rewrite HL, HX, HY.
Qed.

Lemma same_geometry_wf tr tr' : same_geometry tr tr' → tree_wf tr → tree_wf tr'.
Proof.
  intros Hg Hwf. pose proof (same_geometry_entriesBefore _ _ (Z.to_nat (numLevels tr)) Hg) as HE.
  destruct Hg as (HL & HX & HY & Hlen). destruct Hwf as [H1 H2 H3 H4].
  split; unfold getNumPagesX, getNumPagesY in *; rewrite ?HL, ?HX, ?HY; try done.
  by rewrite Hlen, HE.
Qed.

Lemma same_geometry_refl tr : same_geometry tr tr.
Proof. by repeat split. Qed.

Lemma same_geometry_trans t1 t2 t3 :
  same_geometry t1 t2 → same_geometry t2 t3 → same_geometry t1 t3.
Proof.
  intros (A1 & A2 & A3 & A4) (B1 & B2 & B3 & B4).
  repeat split; congruence.
Qed.

(** An in-range page has a slot, inside the pool. *)
Lemma slotIndex_inRange tr id :
  tree_wf tr → inRange tr id →
  ∃ i, slotIndex tr (pageIdExtractMipLevel id) (pageIdExtractPageX id)
         (pageIdExtractPageY id) = Some i
       ∧ (i < length (cacheEntryPtrPool tr))%nat.
Proof.
  intros Hwf (HL & HX & HY).
  pose proof (pageIdExtractMipLevel_range id) as RL.
  pose proof (pageIdExtractPageX_range id) as RX.
  pose proof (pageIdExtractPageY_range id) as RY.
  set (level := pageIdExtractMipLevel id) in *.
  set (x := pageIdExtractPageX id) in *.
  set (y := pageIdExtractPageY id) in *.
  unfold slotIndex.
  rewrite decide_True by lia.
  assert (Hidx : 0 ≤ x + y * getNumPagesX tr level
                 < getNumPagesX tr level * getNumPagesY tr level) by nia.
  rewrite decide_True by done.
  eexists; split; [done|].
  rewrite (tw_pool _ Hwf).
  pose proof (entriesBefore_mono tr (S (Z.to_nat level)) (Z.to_nat (numLevels tr)) Hwf
                ltac:(lia) ltac:(lia)) as HM.
  pose proof (entriesBefore_mono tr 0 (Z.to_nat level) Hwf ltac:(lia) ltac:(lia)) as HM0.
  cbn in HM, HM0. rewrite Z2Nat.id in HM by lia. lia.
Qed.

(** Distinct in-range page coordinates have distinct slots. *)
Lemma slotIndex_inj tr id1 id2 i :
  tree_wf tr → inRange tr id1 → inRange tr id2 →
  slotIndex tr (pageIdExtractMipLevel id1) (pageIdExtractPageX id1)
    (pageIdExtractPageY id1) = Some i →
  slotIndex tr (pageIdExtractMipLevel id2) (pageIdExtractPageX id2)
    (pageIdExtractPageY id2) = Some i →
  pageKey id1 = pageKey id2.
Proof.
  intros Hwf (HL1 & HX1 & HY1) (HL2 & HX2 & HY2).
  unfold pageKey.
  pose proof (pageIdExtractMipLevel_range id1) as RL1.
  pose proof (pageIdExtractPageX_range id1) as RX1.
  pose proof (pageIdExtractPageY_range id1) as RY1.
  pose proof (pageIdExtractMipLevel_range id2) as RL2.
  pose proof (pageIdExtractPageX_range id2) as RX2.
  pose proof (pageIdExtractPageY_range id2) as RY2.
  set (l1 := pageIdExtractMipLevel id1) in *.
  set (x1 := pageIdExtractPageX id1) in *.
  set (y1 := pageIdExtractPageY id1) in *.
  set (l2 := pageIdExtractMipLevel id2) in *.
  set (x2 := pageIdExtractPageX id2) in *.
  set (y2 := pageIdExtractPageY id2) in *.
  unfold slotIndex.
  assert (H1 : 0 ≤ x1 + y1 * getNumPagesX tr l1
               < getNumPagesX tr l1 * getNumPagesY tr l1) by nia.
  assert (H2 : 0 ≤ x2 + y2 * getNumPagesX tr l2
               < getNumPagesX tr l2 * getNumPagesY tr l2) by nia.
  intros E1 E2.
  rewrite decide_True in E1 by lia. rewrite decide_True in E1 by done.
  rewrite decide_True in E2 by lia. rewrite decide_True in E2 by done.
  injection E1 as E1. injection E2 as E2.
  pose proof (entriesBefore_mono tr 0 (Z.to_nat l1) Hwf ltac:(lia) ltac:(lia)) as M1.
  pose proof (entriesBefore_mono tr 0 (Z.to_nat l2) Hwf ltac:(lia) ltac:(lia)) as M2.
  cbn in M1, M2.
  assert (E : entriesBefore tr (Z.to_nat l1) + (x1 + y1 * getNumPagesX tr l1)
              = entriesBefore tr (Z.to_nat l2) + (x2 + y2 * getNumPagesX tr l2)) by lia.
  assert (l1 = l2) as Hl.
  { destruct (Z.lt_trichotomy l1 l2) as [Hlt|[Heq|Hgt]]; [exfalso|done|exfalso].
    - pose proof (entriesBefore_mono tr (S (Z.to_nat l1)) (Z.to_nat l2) Hwf
                    ltac:(lia) ltac:(lia)) as HM.
      cbn in HM. rewrite Z2Nat.id in HM by lia. lia.
    - pose proof (entriesBefore_mono tr (S (Z.to_nat l2)) (Z.to_nat l1) Hwf
                    ltac:(lia) ltac:(lia)) as HM.
      cbn in HM. rewrite Z2Nat.id in HM by lia. lia. }
  rewrite Hl in *.
  assert (y1 = y2) by nia.
  assert (x1 = x2) by nia.
  congruence.
Qed.

Lemma slotIndex_pageKey tr id1 id2 :
  pageKey id1 = pageKey id2 →
  slotIndex tr (pageIdExtractMipLevel id1) (pageIdExtractPageX id1)
    (pageIdExtractPageY id1)
  = slotIndex tr (pageIdExtractMipLevel id2) (pageIdExtractPageX id2)
      (pageIdExtractPageY id2).
Proof. unfold pageKey. by intros [= -> -> ->]. Qed.

End TreeFacts.

Section TreeAccess.
Import CachePageTree.

Lemma get_inRange tr id :
  tree_wf tr → inRange tr id →
  ∃ i s, slotIndex tr (pageIdExtractMipLevel id) (pageIdExtractPageX id)
           (pageIdExtractPageY id) = Some i
         ∧ cacheEntryPtrPool tr !! i = Some s
         ∧ get tr (pageIdExtractMipLevel id) (pageIdExtractPageX id)
             (pageIdExtractPageY id) = Some s.
Proof.
  intros Hwf Hr. destruct (slotIndex_inRange tr id Hwf Hr) as (i & Hi & Hlt).
  destruct (lookup_lt_is_Some_2 _ _ Hlt) as [s Hs].
  exists i, s. repeat split; try done. unfold get. rewrite Hi. done.
Qed.

Lemma set_inRange tr id v :
  tree_wf tr → inRange tr id →
  ∃ i tr', slotIndex tr (pageIdExtractMipLevel id) (pageIdExtractPageX id)
             (pageIdExtractPageY id) = Some i
           ∧ (i < length (cacheEntryPtrPool tr))%nat
           ∧ set tr (pageIdExtractMipLevel id) (pageIdExtractPageX id)
               (pageIdExtractPageY id) v = Some tr'
           ∧ same_geometry tr tr'
           ∧ cacheEntryPtrPool tr' = <[i := v]> (cacheEntryPtrPool tr).
Proof.
  intros Hwf Hr. destruct (slotIndex_inRange tr id Hwf Hr) as (i & Hi & Hlt).
  destruct (lookup_lt_is_Some_2 _ _ Hlt) as [s Hs].
  exists i. eexists. split; [done|]. split; [done|].
  unfold set. rewrite Hi. simpl. rewrite Hs. simpl. split; [done|].
  split; [|done]. repeat split; simpl; try done. by rewrite length_insert.
Qed.

(** Reading the slot of an in-range page in a tree of the same shape. *)
Lemma getId_lookup tr id i :
  slotIndex tr (pageIdExtractMipLevel id) (pageIdExtractPageX id)
    (pageIdExtractPageY id) = Some i →
  getId tr id = cacheEntryPtrPool tr !! i.
Proof. intros Hi. unfold getId, get. by rewrite Hi. Qed.

End TreeAccess.

(** ** Chain segments *)

Section Segments.
Implicit Types (pool : list CacheEntry) (l : list nat) (p n : option nat).

Lemma seg_frame pool f x p l n :
  x ∉ l → seg pool p l n → seg (alter f x pool) p l n.
Proof.
  revert p. induction l as [|a l IH]; intros p Hx; simpl; [done|].
  intros [(ent & Ha & Hp & Hn) Hs].
  apply not_elem_of_cons in Hx as [Hxa Hxl]. split.
  - exists ent. by rewrite list_lookup_alter_ne.
  - by apply IH.
Qed.

Lemma seg_alter_payload pool f x p l n :
  (∀ e, prev (f e) = prev e ∧ next (f e) = next e) →
  seg pool p l n → seg (alter f x pool) p l n.
Proof.
  intros Hf. revert p. induction l as [|a l IH]; intros p; simpl; [done|].
  intros [(ent & Ha & Hp & Hn) Hs]. split; [|by apply IH].
  destruct (decide (x = a)) as [->|Hne].
  - exists (f ent). rewrite list_lookup_alter_eq, Ha. simpl.
    destruct (Hf ent) as [-> ->]. done.
  - exists ent. by rewrite list_lookup_alter_ne.
Qed.

Lemma seg_set_prev_head pool a l p p' n :
  a ∉ l → seg pool p (a :: l) n → seg (alter (set_prev p') a pool) p' (a :: l) n.
Proof.
  intros Ha [(ent & He & Hp & Hn) Hs]. split; [|by apply seg_frame].
  exists (set_prev p' ent). rewrite list_lookup_alter_eq, He. done.
Qed.

Lemma seg_app pool p l1 l2 n :
  seg pool p (l1 ++ l2) n ↔
  seg pool p l1 (head_or l2 n) ∧ seg pool (last_or l1 p) l2 n.
Proof.
  revert p. induction l1 as [|a l1 IH]; intros p; simpl.
  - unfold last_or. simpl. tauto.
  - rewrite IH.
    assert (Hh : head_or (l1 ++ l2) n = head_or l1 (head_or l2 n))
      by (by destruct l1).
    assert (Hl : last_or (a :: l1) p = last_or l1 (Some a)).
    { unfold last_or. destruct l1 as [|b l1]; [done|].
      rewrite last_cons_cons. by destruct (last (b :: l1)) eqn:E; [|
        apply last_None in E]. }
    rewrite Hh, Hl. tauto.
Qed.

Lemma seg_set_next_last pool a l p n n' :
  a ∉ l → seg pool p (l ++ [a]) n → seg (alter (set_next n') a pool) p (l ++ [a]) n'.
Proof.
  intros Ha. rewrite !seg_app. simpl. intros [H1 [(ent & He & Hp & Hn) _]].
  split; [by apply seg_frame|]. split; [|done].
  exists (set_next n' ent). rewrite list_lookup_alter_eq, He. done.
Qed.

Lemma seg_lookup pool p l1 a l2 n :
  seg pool p (l1 ++ a :: l2) n →
  ∃ ent, pool !! a = Some ent ∧ prev ent = last_or l1 p ∧ next ent = head_or l2 n.
Proof. rewrite seg_app. simpl. intros [_ [H _]]. done. Qed.

Lemma seg_lt pool p l n a :
  seg pool p l n → a ∈ l → (a < length pool)%nat.
Proof.
  intros Hs Ha. apply list_elem_of_split in Ha as (l1 & l2 & ->).
  apply seg_lookup in Hs as (ent & He & _). by eapply lookup_lt_Some.
Qed.

Lemma last_or_snoc l a p : last_or (l ++ [a]) p = Some a.
Proof. unfold last_or. by rewrite last_snoc. Qed.

Lemma last_or_nil p : last_or [] p = p.
Proof. done. Qed.

(** A list without duplicates that fills the pool contains every index. *)
Lemma full_order_elem (order : list nat) (k e : nat) :
  NoDup order → length order = k → (∀ a, a ∈ order → (a < k)%nat) →
  (e < k)%nat → e ∈ order.
Proof.
  intros Hnd Hlen Hlt He.
  assert (Hsub : order ⊆+ seq 0 k).
  { apply NoDup_submseteq; [done|]. intros a Ha. apply elem_of_seq.
    specialize (Hlt a Ha). lia. }
  assert (Hperm : order ≡ₚ seq 0 k).
  { apply submseteq_length_Permutation; [done|]. rewrite length_seq. lia. }
  rewrite Hperm. apply elem_of_seq. lia.
Qed.

End Segments.

(** ** The LRU chain of the page cache manager *)

Section CacheFacts.
Import PageCacheMgr.

Lemma validPageRequest_inRange c id :
  validPageRequest c (pageIdExtractMipLevel id) (pageIdExtractPageX id)
    (pageIdExtractPageY id) = true ↔ inRange (cachePageTree c) id.
Proof.
  unfold validPageRequest, inRange, CachePageTree.getNumLevels.
  rewrite !andb_true_iff, !Z.ltb_lt. tauto.
Qed.

Lemma storeEntry_Some c x f :
  (x < length (cacheEntryPool c))%nat →
  storeEntry (Some x) f c = Some (with_pool (alter f x (cacheEntryPool c)) c).
Proof.
  intros Hx. unfold storeEntry, store. simpl.
  destruct (lookup_lt_is_Some_2 _ _ Hx) as [ent ->]. done.
Qed.

Lemma same_payload_refl pool : same_payload pool pool.
Proof. done. Qed.

Lemma same_payload_trans p1 p2 p3 :
  same_payload p1 p2 → same_payload p2 p3 → same_payload p1 p3.
Proof. intros [A B] [C D]. split; congruence. Qed.

Lemma same_payload_alter pool f x :
  (∀ e, pageId (f e) = pageId e ∧ cacheCoord (f e) = cacheCoord e) →
  same_payload pool (alter f x pool).
Proof.
  intros Hf. split; apply list_eq; intros i; rewrite !list_lookup_fmap;
    (destruct (decide (x = i)) as [->|Hne];
     [rewrite list_lookup_alter_eq; destruct (pool !! i) as [ent|]; simpl; [|done];
      destruct (Hf ent) as [E1 E2]; congruence
     |by rewrite list_lookup_alter_ne]).
Qed.

Lemma same_payload_set_prev pool v x : same_payload pool (alter (set_prev v) x pool).
Proof. by apply same_payload_alter. Qed.
Lemma same_payload_set_next pool v x : same_payload pool (alter (set_next v) x pool).
Proof. by apply same_payload_alter. Qed.


Lemma snoc_exists (l : list nat) : l ≠ [] → ∃ l0 q, l = l0 ++ [q].
Proof.
  destruct l as [|a l] using rev_ind; [done|]. intros _. by exists l, a.
Qed.

Lemma moved_front_length pool a q e nx :
  length (moved_front pool a q e nx) = length pool.
Proof. unfold moved_front. destruct nx; by rewrite !length_alter. Qed.

Lemma moved_front_payload pool a q e nx :
  same_payload pool (moved_front pool a q e nx).
Proof.
  unfold moved_front.
  destruct nx;
    repeat (eapply same_payload_trans; [|by apply same_payload_alter]);
    apply same_payload_refl.
Qed.

Lemma moved_front_seg pool l0 q e l2 a l1 :
  a :: l1 = l0 ++ [q] →
  NoDup ((l0 ++ [q]) ++ e :: l2) →
  seg pool None ((l0 ++ [q]) ++ e :: l2) None →
  seg (moved_front pool a q e (head_or l2 None)) None (e :: (l0 ++ [q]) ++ l2) None.
Proof.
  intros Hl1 Hnd Hseg.
  apply NoDup_app in Hnd as (Hnd1 & Hdisj & Hnd2).
  apply NoDup_app in Hnd1 as (Hnd0 & Hq0 & _).
  apply NoDup_cons in Hnd2 as (Hel2 & Hndl2).
  assert (Hq_l0 : q ∉ l0) by (intros H; apply (Hq0 q H); left).
  assert (Hqe : q ≠ e) by (intros ->; apply (Hdisj e); [apply elem_of_app; right|]; left).
  assert (Hq_l2 : q ∉ l2).
  { intros H. apply (Hdisj q); [apply elem_of_app; right; left|by right]. }
  assert (He_l1 : e ∉ l0 ++ [q]) by (intros H; apply (Hdisj e H); left).
  assert (Ha_in : a ∈ l0 ++ [q]) by (rewrite <- Hl1; left).
  assert (Hae : a ≠ e) by (intros ->; done).
  assert (Ha_l2 : a ∉ l2) by (intros H; apply (Hdisj a Ha_in); by right).
  assert (Ha_l1 : a ∉ l1).
  { assert (NoDup (a :: l1)) as Hn.
    { rewrite Hl1. apply NoDup_app. split; [done|]. split; [done|]. apply NoDup_singleton. }
    by apply NoDup_cons in Hn as []. }
  apply seg_app in Hseg as [S1 S2]. rewrite last_or_snoc in S2.
  destruct S2 as [(ent & He & Hp & Hn) S3].
  unfold moved_front. simpl.
  set (nx := head_or l2 None) in *.
  set (pool1 := alter (set_next nx) q pool).
  assert (S1a : seg pool1 None (l0 ++ [q]) nx) by (eapply seg_set_next_last; eauto).
  assert (S3a : seg pool1 (Some e) l2 None) by (by apply seg_frame).
  assert (He1 : pool1 !! e = Some ent) by (unfold pool1; by rewrite list_lookup_alter_ne).
  set (pool2 := match nx with Some b => alter (set_prev (Some q)) b pool1 | None => pool1 end).
  assert (P2 : seg pool2 None (l0 ++ [q]) nx ∧ seg pool2 (Some q) l2 None
               ∧ pool2 !! e = Some ent).
  { unfold pool2, nx in *. destruct l2 as [|b l2]; simpl in *; [done|].
    apply NoDup_cons in Hndl2 as [Hb _].
    assert (b ∉ l0 ++ [q]).
    { intros H. apply (Hdisj b H). right. left. }
    assert (b ≠ e) by (intros ->; apply Hel2; left).
    split; [by apply seg_frame|]. split; [eapply seg_set_prev_head; eauto|].
    by rewrite list_lookup_alter_ne. }
  destruct P2 as (S1b & S3b & He2). clearbody pool2. clear S1a S3a He1.
  split.
  - exists (set_next (Some a) (set_prev None ent)).
    rewrite list_lookup_alter_ne by done.
    rewrite !list_lookup_alter_eq, He2. simpl. split; [done|]. split; [done|].
    rewrite <- Hl1. by destruct l2.
  - apply seg_app. rewrite last_or_snoc. split.
    + rewrite <- Hl1. apply (seg_set_prev_head _ _ _ None); [done|].
      rewrite Hl1. do 2 (apply seg_frame; [done|]). done.
    + do 3 (apply seg_frame; [done|]). done.
Qed.

(** Moving the entry [e] from inside the chain to its head, as
    [lookupPage] does for a cached page. *)
Lemma lookupPage_hit c id e l1 l2 :
  tree_wf (cachePageTree c) → inRange (cachePageTree c) id →
  CachePageTree.getId (cachePageTree c) id = Some (Entry e) →
  lru_chain c (l1 ++ e :: l2) →
  ∃ c', lookupPage id c = Some (Cached, c')
        ∧ stats c' = incHit (incTotal (stats c))
        ∧ cachePageTree c' = cachePageTree c
        ∧ same_payload (cacheEntryPool c) (cacheEntryPool c')
        ∧ lru_chain c' (e :: l1 ++ l2).
Proof.
  intros Hwf Hr Hget [Hnd Hlen Hseg Hmru Hlru].
  unfold lookupPage. rewrite (proj2 (validPageRequest_inRange c id) Hr).
  simpl. unfold CachePageTree.getId in Hget. rewrite Hget. simpl.
  destruct l1 as [|a l1].
  { (* already the most recently used entry *)
    simpl in *. rewrite Hmru. rewrite decide_False by (intros H; by apply H).
    eexists. split; [done|]. simpl. do 3 (split; [done|]). by split. }
  assert (Hae : a ≠ e).
  { intros ->. simpl in Hnd. apply NoDup_cons in Hnd as [Hn _].
    apply Hn. apply elem_of_app. right. left. }
  simpl in Hmru. rewrite Hmru.
  rewrite decide_True by congruence.
  destruct (seg_lookup _ _ (a :: l1) e l2 _ Hseg) as (ent & He & Hp & Hn).
  destruct (snoc_exists (a :: l1) ltac:(done)) as (l0 & q & Hl1).
  assert (Hnd' := Hnd). assert (Hseg' := Hseg).
  rewrite Hl1 in Hnd', Hseg', Hp. rewrite last_or_snoc in Hp.
  assert (Hqe : q ≠ e).
  { intros ->. apply NoDup_app in Hnd' as (_ & Hd & _). apply (Hd e); [|left].
    apply elem_of_app. right. left. }
  assert (Hq : (q < length (cacheEntryPool c))%nat).
  { eapply seg_lt; [exact Hseg'|]. rewrite !elem_of_app, !elem_of_cons. auto. }
  assert (Ha : (a < length (cacheEntryPool c))%nat).
  { eapply seg_lt; [exact Hseg|]. left. }
  assert (Hel : (e < length (cacheEntryPool c))%nat) by (by eapply lookup_lt_Some).
  pose proof (moved_front_seg _ _ _ _ _ _ _ Hl1 Hnd' Hseg') as Hmoved.
  rewrite <- Hl1 in Hmoved.
  rewrite He. simpl.
  assert (Hfinal : ∀ lr,
    lr = last ((a :: l1) ++ l2) →
    let c' := {| stats := incHit (incTotal (stats c)); mru := Some e; lru := lr;
                 cachePageTree := cachePageTree c;
                 cacheEntryPool := moved_front (cacheEntryPool c) a q e (head_or l2 None) |} in
    stats c' = incHit (incTotal (stats c))
    ∧ cachePageTree c' = cachePageTree c
    ∧ same_payload (cacheEntryPool c) (cacheEntryPool c')
    ∧ lru_chain c' (e :: (a :: l1) ++ l2)).
  { intros lr Hlr c'. split; [done|]. split; [done|].
    split; [apply moved_front_payload|]. split; simpl.
    - pose proof (Permutation_middle (a :: l1) l2 e) as Hperm.
      change (NoDup (e :: (a :: l1) ++ l2)). by rewrite Hperm.
    - rewrite <- Hlen. rewrite !length_app. simpl. lia.
    - exact Hmoved.
    - done.
    - rewrite Hlr. done. }
  destruct l2 as [|b l2]; simpl in Hn.
  - (* [e] is the least recently used entry *)
    rewrite Hn. rewrite decide_False by (intros H; by apply H).
    rewrite decide_True by (by rewrite Hlru, last_snoc).
    rewrite Hp. rewrite storeEntry_Some by done. simpl.
    rewrite list_lookup_alter_ne by done. rewrite He. simpl.
    rewrite Hmru. rewrite decide_True by done.
    rewrite ?Hmru, ?Hp, ?Hn, storeEntry_Some by (simpl; by rewrite ?length_alter). simpl.
    rewrite ?Hmru, ?Hp, ?Hn, storeEntry_Some by (simpl; by rewrite ?length_alter). simpl.
    rewrite ?Hmru, ?Hp, ?Hn, storeEntry_Some by (simpl; by rewrite ?length_alter). simpl.
    eexists. split; [reflexivity|]. rewrite ?Hp.
    apply (Hfinal (Some q)). rewrite app_nil_r, Hl1. by rewrite last_snoc.
  - (* [e] is inside the chain *)
    rewrite Hn. rewrite decide_True by done.
    rewrite ?Hp, ?Hn. rewrite storeEntry_Some by done. simpl.
    rewrite list_lookup_alter_ne by done. rewrite He. simpl.
    rewrite ?Hn, ?Hp.
    assert (Hb : (b < length (cacheEntryPool c))%nat).
    { eapply seg_lt; [exact Hseg|]. rewrite !elem_of_app, !elem_of_cons. auto. }
    rewrite ?Hmru, ?Hp, ?Hn, storeEntry_Some by (simpl; by rewrite ?length_alter). simpl.
    rewrite Hmru. rewrite decide_True by done.
    rewrite ?Hmru, ?Hp, ?Hn, storeEntry_Some by (simpl; by rewrite ?length_alter). simpl.
    rewrite ?Hmru, ?Hp, ?Hn, storeEntry_Some by (simpl; by rewrite ?length_alter). simpl.
    rewrite ?Hmru, ?Hp, ?Hn, storeEntry_Some by (simpl; by rewrite ?length_alter). simpl.
    eexists. split; [reflexivity|].
    apply (Hfinal (lru c)). rewrite Hlru.
    rewrite !last_app. simpl. rewrite !last_cons. by destruct (last l2).
Qed.

Lemma lookupPage_miss c id :
  tree_wf (cachePageTree c) → inRange (cachePageTree c) id →
  CachePageTree.getId (cachePageTree c) id = Some Null →
  ∃ tr', lookupPage id c
         = Some (Unavailable,
                 {| stats := incNew (incTotal (stats c)); mru := mru c; lru := lru c;
                    cachePageTree := tr'; cacheEntryPool := cacheEntryPool c |})
         ∧ same_geometry (cachePageTree c) tr'
         ∧ CachePageTree.cacheEntryPtrPool tr'
           = <[slot_of (cachePageTree c) id := RequestedPageDummy]>
               (CachePageTree.cacheEntryPtrPool (cachePageTree c)).
Proof.
  intros Hwf Hr Hget.
  unfold lookupPage. rewrite (proj2 (validPageRequest_inRange c id) Hr).
  cbn. unfold CachePageTree.getId in Hget. rewrite Hget. cbn.
  destruct (set_inRange _ id RequestedPageDummy Hwf Hr) as (i & tr' & Hi & Hlt & Hset & Hg & Hp).
  rewrite Hset. cbn. exists tr'. split; [done|]. split; [done|].
  unfold slot_of. by rewrite Hi.
Qed.

Lemma lookupPage_inflight c id :
  inRange (cachePageTree c) id →
  CachePageTree.getId (cachePageTree c) id = Some RequestedPageDummy →
  lookupPage id c
  = Some (InFlight,
          {| stats := incRe (incTotal (stats c)); mru := mru c; lru := lru c;
             cachePageTree := cachePageTree c; cacheEntryPool := cacheEntryPool c |}).
Proof.
  intros Hr Hget.
  unfold lookupPage. rewrite (proj2 (validPageRequest_inRange c id) Hr).
  cbn. unfold CachePageTree.getId in Hget. rewrite Hget. done.
Qed.

(** [allocPageEntry] takes the tail [e] of the chain, unpublishes the
    page it held and links it at the head. *)
Lemma allocPageEntry_spec c l1 e ent :
  tree_wf (cachePageTree c) →
  lru_chain c (l1 ++ [e]) →
  cacheEntryPool c !! e = Some ent →
  pageId ent = InvalidPageId ∨ inRange (cachePageTree c) (pageId ent) →
  ∃ c', allocPageEntry c = Some (e, c')
        ∧ stats c' = stats c
        ∧ same_geometry (cachePageTree c) (cachePageTree c')
        ∧ CachePageTree.cacheEntryPtrPool (cachePageTree c')
          = (if decide (pageId ent ≠ InvalidPageId)
             then <[slot_of (cachePageTree c) (pageId ent) := Null]>
                    (CachePageTree.cacheEntryPtrPool (cachePageTree c))
             else CachePageTree.cacheEntryPtrPool (cachePageTree c))
        ∧ same_payload (cacheEntryPool c) (cacheEntryPool c')
        ∧ lru_chain c' (e :: l1).
Proof.
  intros Hwf [Hnd Hlen Hseg Hmru Hlru] He Hid.
  destruct l1 as [|a l1].
  { simpl in Hlen. unfold TotalCachePages in Hlen. vm_compute in Hlen. lia. }
  destruct (snoc_exists (a :: l1) ltac:(done)) as (l0 & q & Hl1).
  assert (Hnd' := Hnd). assert (Hseg' := Hseg).
  rewrite Hl1 in Hnd', Hseg'.
  destruct (seg_lookup _ _ _ _ _ _ Hseg') as (ent' & He' & Hp & Hn).
  rewrite He in He'. injection He' as <-.
  rewrite last_or_snoc in Hp. simpl in Hn.
  assert (Hqe : q ≠ e).
  { intros ->. apply NoDup_app in Hnd' as (_ & Hd & _). apply (Hd e); [|left].
    apply elem_of_app. right. left. }
  assert (Hae : a ≠ e).
  { intros ->. simpl in Hnd. apply NoDup_cons in Hnd as [Hx _].
    apply Hx. apply elem_of_app. right. left. }
  assert (Hq : (q < length (cacheEntryPool c))%nat).
  { eapply seg_lt; [exact Hseg'|]. rewrite !elem_of_app, !elem_of_cons. auto. }
  assert (Ha : (a < length (cacheEntryPool c))%nat).
  { eapply seg_lt; [exact Hseg|]. left. }
  assert (Hel : (e < length (cacheEntryPool c))%nat) by (by eapply lookup_lt_Some).
  pose proof (moved_front_seg _ _ _ _ _ _ _ Hl1 Hnd' Hseg') as Hmoved.
  rewrite <- Hl1 in Hmoved. simpl in Hmoved. rewrite app_nil_r in Hmoved.
  simpl in Hmru. rewrite last_snoc in Hlru.
  assert (Htree : ∃ tr',
    (if decide (pageId ent ≠ InvalidPageId)
     then CachePageTree.setId (cachePageTree c) (pageId ent) Null ≫= λ tr, Some (with_tree tr c)
     else Some c) = Some (with_tree tr' c)
    ∧ same_geometry (cachePageTree c) tr'
    ∧ CachePageTree.cacheEntryPtrPool tr'
      = (if decide (pageId ent ≠ InvalidPageId)
         then <[slot_of (cachePageTree c) (pageId ent) := Null]>
                (CachePageTree.cacheEntryPtrPool (cachePageTree c))
         else CachePageTree.cacheEntryPtrPool (cachePageTree c))).
  { destruct (decide (pageId ent ≠ InvalidPageId)) as [Hv|Hv].
    - destruct Hid as [Hid|Hid]; [done|].
      destruct (set_inRange _ _ Null Hwf Hid) as (i & tr' & Hi & Hlt & Hset & Hg & Hpool).
      exists tr'. unfold CachePageTree.setId. rewrite Hset. cbn.
      split; [done|]. split; [done|]. unfold slot_of. by rewrite Hi.
    - exists (cachePageTree c). split; [by destruct c|].
      split; [apply same_geometry_refl|done]. }
  destruct Htree as (tr' & Htr & Hg & Hpool).
  unfold allocPageEntry. rewrite Hlru. cbn. rewrite He. cbn.
  rewrite Htr. simpl. rewrite Hlru. simpl. rewrite He. simpl. rewrite Hp.
  rewrite storeEntry_Some by done. simpl.
  rewrite list_lookup_alter_ne by done. rewrite He. simpl.
  rewrite ?Hmru, ?Hp, storeEntry_Some by (simpl; by rewrite ?length_alter). simpl.
  rewrite ?Hmru, ?Hp, storeEntry_Some by (simpl; by rewrite ?length_alter). simpl.
  rewrite ?Hmru, ?Hp, storeEntry_Some by (simpl; by rewrite ?length_alter). simpl.
  eexists. split; [reflexivity|]. cbn.
  split; [done|]. split; [done|]. split; [done|].
  split; [apply (moved_front_payload _ a q e None)|].
  split; simpl.
  - pose proof (Permutation_middle (a :: l1) [] e) as Hperm.
    rewrite app_nil_r in Hperm.
    change (NoDup (e :: a :: l1)). by rewrite Hperm.
  - rewrite <- Hlen. rewrite !length_app. simpl. lia.
  - exact Hmoved.
  - done.
  - by rewrite Hl1, last_snoc.
Qed.

Lemma fmap_pageId_alter_set (pool : list CacheEntry) (e : nat) id :
  pageId <$> alter (set_pageId id) e pool = <[e := id]> (pageId <$> pool).
Proof.
  apply list_eq. intros i. rewrite list_lookup_fmap.
  destruct (decide (e = i)) as [->|Hne].
  - rewrite list_lookup_alter_eq.
    destruct (pool !! i) as [x|] eqn:E; simpl.
    + rewrite list_lookup_insert_eq; [done|].
      rewrite length_fmap. by eapply lookup_lt_Some.
    + rewrite list_insert_ge; [by rewrite list_lookup_fmap, E|].
      rewrite length_fmap. by apply lookup_ge_None.
  - rewrite list_lookup_alter_ne, list_lookup_insert_ne by done.
    by rewrite list_lookup_fmap.
Qed.

Lemma fmap_cacheCoord_alter_set (pool : list CacheEntry) (e : nat) (id : PageId) :
  cacheCoord <$> alter (set_pageId id) e pool = cacheCoord <$> pool.
Proof.
  apply list_eq. intros i. rewrite !list_lookup_fmap.
  destruct (decide (e = i)) as [->|Hne].
  - rewrite list_lookup_alter_eq. by destruct (pool !! i).
  - by rewrite list_lookup_alter_ne.
Qed.

Lemma accommodatePage_step c id l1 e ent :
  tree_wf (cachePageTree c) →
  lru_chain c (l1 ++ [e]) →
  cacheEntryPool c !! e = Some ent →
  pageId ent = InvalidPageId ∨ inRange (cachePageTree c) (pageId ent) →
  inRange (cachePageTree c) id →
  ∃ c', accommodatePage id c = Some (cacheCoord ent, c')
        ∧ stats c' = incServiced (stats c)
        ∧ same_geometry (cachePageTree c) (cachePageTree c')
        ∧ CachePageTree.cacheEntryPtrPool (cachePageTree c')
          = <[slot_of (cachePageTree c) id := Entry e]>
              (if decide (pageId ent ≠ InvalidPageId)
               then <[slot_of (cachePageTree c) (pageId ent) := Null]>
                      (CachePageTree.cacheEntryPtrPool (cachePageTree c))
               else CachePageTree.cacheEntryPtrPool (cachePageTree c))
        ∧ pageId <$> cacheEntryPool c' = <[e := id]> (pageId <$> cacheEntryPool c)
        ∧ cacheCoord <$> cacheEntryPool c' = cacheCoord <$> cacheEntryPool c
        ∧ lru_chain c' (e :: l1).
Proof.
  intros Hwf Hch He Hid Hr.
  destruct (allocPageEntry_spec c l1 e ent Hwf Hch He Hid)
    as (c1 & Halloc & Hst & Hg & Htp & [Hpay1 Hpay2] & Hch1).
  unfold accommodatePage. rewrite (proj2 (validPageRequest_inRange c id) Hr).
  rewrite Halloc. simpl.
  assert (Hwf1 : tree_wf (cachePageTree c1)) by (by eapply same_geometry_wf).
  assert (Hr1 : inRange (cachePageTree c1) id) by (by apply (same_geometry_inRange _ _ _ Hg)).
  destruct (set_inRange _ id (Entry e) Hwf1 Hr1) as (i & tr' & Hi & Hlt & Hset & Hg' & Hpool).
  rewrite Hset. simpl.
  assert (Hel : (e < length (cacheEntryPool c1))%nat).
  { destruct Hch1 as [_ _ Hs _ _]. eapply seg_lt; [exact Hs|]. left. }
  rewrite storeEntry_Some by done. simpl.
  rewrite list_lookup_alter_eq.
  destruct (lookup_lt_is_Some_2 _ _ Hel) as [ent1 He1]. rewrite He1. cbn.
  assert (Hcc : cacheCoord ent1 = cacheCoord ent).
  { assert (cacheCoord <$> (cacheEntryPool c1 !! e) = cacheCoord <$> (cacheEntryPool c !! e)) as HH
      by (by rewrite <- !list_lookup_fmap, Hpay2).
    rewrite He1, He in HH. simpl in HH. congruence. }
  rewrite Hcc. eexists. split; [reflexivity|]. cbn.
  split; [by rewrite Hst|].
  split; [by eapply same_geometry_trans|].
  split.
  { rewrite Hpool, Htp. f_equal. unfold slot_of.
    rewrite (same_geometry_slotIndex _ _ _ _ _ Hg) in Hi. by rewrite Hi. }
  split; [by rewrite fmap_pageId_alter_set, Hpay1|].
  split; [by rewrite fmap_cacheCoord_alter_set, Hpay2|].
  destruct Hch1 as [A B C' D E]. split; try done.
  by apply (seg_alter_payload _ (set_pageId id) e None (e :: l1) None).
Qed.
End CacheFacts.

(** ** The invariant of the page cache manager *)

Section CacheInvariant.
Import PageCacheMgr.

Lemma TotalCachePages_eq : TotalCachePages = 256%nat.
Proof. reflexivity. Qed.

Lemma lru_chain_elem_lt c order a :
  lru_chain c order → a ∈ order → (a < length (cacheEntryPool c))%nat.
Proof. intros [_ _ Hs _ _] Ha. by eapply seg_lt. Qed.

Lemma lru_chain_full c order e :
  lru_chain c order → length (cacheEntryPool c) = TotalCachePages →
  (e < TotalCachePages)%nat → e ∈ order.
Proof.
  intros Hch Hlen He. eapply full_order_elem; [apply Hch|apply Hch| |done].
  intros a Ha. rewrite <- Hlen. by eapply lru_chain_elem_lt.
Qed.

Lemma lru_chain_ext c c' order :
  cacheEntryPool c' = cacheEntryPool c → mru c' = mru c → lru c' = lru c →
  lru_chain c order → lru_chain c' order.
Proof. intros Hp Hm Hl [A B C' D E]. split; congruence. Qed.

(** *** purgeCache and the constructor *)

Lemma seg_purge (pool : list CacheEntry) (k n : nat) :
  length pool = TotalCachePages → (k + n = TotalCachePages)%nat →
  seg (imap purgeEntry pool) (if decide (0 < k)%nat then Some (k - 1)%nat else None)
    (seq k n) None.
Proof.
  rewrite TotalCachePages_eq.
  intros Hlen. revert k. induction n as [|n IH]; intros k Hk; simpl; [done|].
  split.
  - assert (Hlt : (k < length pool)%nat) by lia.
    destruct (lookup_lt_is_Some_2 _ _ Hlt) as [ent Hent].
    exists (purgeEntry k ent). rewrite list_lookup_imap, Hent.
    split; [done|]. split; [done|].
    unfold purgeEntry, next. rewrite TotalCachePages_eq.
    destruct n as [|n]; simpl head_or.
    + rewrite decide_False by lia. done.
    + rewrite decide_True by lia. f_equal. lia.
  - specialize (IH (S k) ltac:(lia)). rewrite decide_True in IH by lia.
    replace (S k - 1)%nat with k in IH by lia. done.
Qed.

Lemma purgeCache_chain c :
  length (cacheEntryPool c) = TotalCachePages →
  lru_chain (purgeCache c) (seq 0 TotalCachePages).
Proof.
  intros Hlen. split.
  - apply NoDup_seq.
  - apply length_seq.
  - apply (seg_purge _ 0 TotalCachePages Hlen). lia.
  - done.
  - done.
Qed.

Lemma purgeCache_inv c :
  tree_wf (cachePageTree c) → length (cacheEntryPool c) = TotalCachePages →
  cache_inv (purgeCache c).
Proof.
  intros Hwf Hlen. split; simpl.
  - eapply same_geometry_wf; [|done]. unfold same_geometry. simpl.
    by rewrite length_replicate.
  - by rewrite length_imap.
  - eexists. by apply purgeCache_chain.
  - apply Forall_replicate. done.
  - apply Forall_fmap, Forall_forall. intros ent Hent. left.
    apply list_elem_of_lookup in Hent as [i Hi].
    rewrite list_lookup_imap in Hi.
    destruct (cacheEntryPool c !! i); simpl in Hi; [|done]. by injection Hi as <-.
Qed.

Lemma entriesBefore_ext tr tr' l :
  CachePageTree.numPagesX tr' = CachePageTree.numPagesX tr →
  CachePageTree.numPagesY tr' = CachePageTree.numPagesY tr →
  CachePageTree.entriesBefore tr' l = CachePageTree.entriesBefore tr l.
Proof.
  intros HX HY. induction l as [|l IH]; simpl; [done|].
  unfold CachePageTree.getNumPagesX, CachePageTree.getNumPagesY. by rewrite IH, HX, HY.
Qed.

Lemma CachePageTree_make_wf vtPagesX vtPagesY vtNumLevels tr :
  CachePageTree.make vtPagesX vtPagesY vtNumLevels = Some tr → tree_wf tr.
Proof.
  unfold CachePageTree.make.
  destruct (decide (0 < vtNumLevels ≤ MaxVTMipLevels)) as [Hn|]; [|done].
  match goal with |- context [decide ?P] => destruct (decide P) as [(Hx & Hy & HX & HY)|] end;
    [|done].
  intros [= <-].
  assert (Hget : ∀ (px : list Z) (pad : list Z) l,
             length px = Z.to_nat vtNumLevels → Forall (λ v, 0 < v) px →
             0 ≤ l < vtNumLevels → 0 < default 0 ((px ++ pad) !! Z.to_nat l)).
  { intros px pad l Hlen Hall Hl.
    assert (Hlt : (Z.to_nat l < length px)%nat) by lia.
    rewrite lookup_app_l by done.
    destruct (lookup_lt_is_Some_2 _ _ Hlt) as [v Hv]. rewrite Hv. simpl.
    eapply Forall_lookup_1 in Hall; [|exact Hv]. done. }
  split; simpl.
  - done.
  - intros l Hl. unfold CachePageTree.getNumPagesX. simpl. by apply Hget.
  - intros l Hl. unfold CachePageTree.getNumPagesY. simpl. by apply Hget.
  - rewrite length_replicate. f_equal. by apply entriesBefore_ext.
Qed.

Lemma make_inv vtPagesX vtPagesY vtNumLevels c :
  make vtPagesX vtPagesY vtNumLevels = Some c →
  cache_inv c ∧ lru_chain c (seq 0 TotalCachePages).
Proof.
  unfold make. destruct (CachePageTree.make _ _ _) as [tr|] eqn:E; [|done].
  simpl. intros [= <-].
  apply CachePageTree_make_wf in E.
  split; [apply purgeCache_inv|apply purgeCache_chain]; simpl; try done.
Qed.


(** *** The invariant is kept by lookupPage and accommodatePage *)

Lemma ids_same_geometry tr tr' (ids : list PageId) :
  same_geometry tr tr' →
  Forall (λ pid, pid = InvalidPageId ∨ inRange tr pid) ids →
  Forall (λ pid, pid = InvalidPageId ∨ inRange tr' pid) ids.
Proof.
  intros Hg HF. eapply Forall_impl; [exact HF|]. intros pid [H|H]; [by left|right].
  by apply (same_geometry_inRange _ _ _ Hg).
Qed.

Lemma lookupPage_inv c id :
  cache_inv c → inRange (cachePageTree c) id →
  ∃ r c', lookupPage id c = Some (r, c') ∧ cache_inv c'
          ∧ same_geometry (cachePageTree c) (cachePageTree c').
Proof.
  intros [Hwf Hlen [order Hch] Hslots Hids] Hr.
  destruct (get_inRange _ id Hwf Hr) as (i & s & Hi & Hs & Hget).
  destruct s as [| |e].
  - destruct (lookupPage_miss c id Hwf Hr Hget) as (tr' & Hl & Hg & Hp).
    eexists _, _. split; [exact Hl|]. split; [|done].
    split; simpl.
    + by eapply same_geometry_wf.
    + done.
    + exists order. by apply (lru_chain_ext c).
    + rewrite Hp. apply Forall_insert; [done|]. by intros e' [=].
    + by eapply ids_same_geometry.
  - rewrite (lookupPage_inflight c id Hr Hget).
    eexists _, _. split; [done|]. split; [|apply same_geometry_refl].
    split; simpl; try done. exists order. by apply (lru_chain_ext c).
  - assert (He : (e < TotalCachePages)%nat).
    { eapply Forall_lookup_1 in Hslots; [|exact Hs]. by apply Hslots. }
    pose proof (lru_chain_full c order e Hch Hlen He) as Hin.
    apply list_elem_of_split in Hin as (l1 & l2 & ->).
    destruct (lookupPage_hit c id e l1 l2 Hwf Hr Hget Hch)
      as (c' & Hl & Hst & Htr & [Hp1 Hp2] & Hch').
    exists Cached, c'. split; [done|]. rewrite Htr.
    split; [|apply same_geometry_refl].
    split; rewrite ?Htr; try done.
    + rewrite <- Hlen. by rewrite <- (length_fmap pageId), Hp1, length_fmap.
    + by exists (e :: l1 ++ l2).
    + by rewrite Hp1.
Qed.

Lemma accommodatePage_inv c id :
  cache_inv c → inRange (cachePageTree c) id →
  ∃ coord c', accommodatePage id c = Some (coord, c') ∧ cache_inv c'
              ∧ same_geometry (cachePageTree c) (cachePageTree c').
Proof.
  intros [Hwf Hlen [order Hch] Hslots Hids] Hr.
  assert (Hne : order ≠ []).
  { intros ->. destruct Hch as [_ Hl _ _ _]. by rewrite TotalCachePages_eq in Hl. }
  destruct (snoc_exists order Hne) as (l1 & e & ->).
  assert (He : (e < length (cacheEntryPool c))%nat).
  { eapply lru_chain_elem_lt; [done|]. apply elem_of_app. right. left. }
  destruct (lookup_lt_is_Some_2 _ _ He) as [ent Hent].
  assert (Hid : pageId ent = InvalidPageId ∨ inRange (cachePageTree c) (pageId ent)).
  { eapply Forall_lookup_1 in Hids; [exact Hids|].
    by rewrite list_lookup_fmap, Hent. }
  destruct (accommodatePage_step c id l1 e ent Hwf Hch Hent Hid Hr)
    as (c' & Hacc & Hst & Hg & Htp & Hp1 & Hp2 & Hch').
  exists (cacheCoord ent), c'. split; [done|]. split; [|done].
  split.
  - by eapply same_geometry_wf.
  - rewrite <- Hlen. by rewrite <- (length_fmap pageId), Hp1, length_insert, length_fmap.
  - by exists (e :: l1).
  - rewrite Htp. apply Forall_insert.
    + destruct (decide _); [apply Forall_insert; [done|by intros e' [=]]|done].
    + intros e' [= <-]. by rewrite <- Hlen.
  - rewrite Hp1. apply Forall_insert.
    + by eapply ids_same_geometry.
    + right. by apply (same_geometry_inRange _ _ _ Hg).
Qed.

End CacheInvariant.

(** ** The LRU chain and lookupPage *)

Section CacheClaims.
Import PageCacheMgr.

Lemma seg_linked_at pool p l n i e :
  seg pool p l n → l !! i = Some e →
  ∃ ent, pool !! e = Some ent
         ∧ prev ent = match i with O => p | S j => l !! j end
         ∧ next ent = match l !! S i with Some b => Some b | None => n end.
Proof.
  revert p i. induction l as [|a l IH]; intros p i Hs Hi; [done|].
  destruct Hs as [(ent & Ha & Hp & Hn) Hs].
  destruct i as [|i]; simpl in Hi.
  - injection Hi as <-. exists ent. split; [done|]. split; [done|].
    simpl. rewrite Hn. by destruct l.
  - destruct (IH (Some a) i Hs Hi) as (ent' & He & Hp' & Hn').
    exists ent'. split; [done|]. split; [|done].
    rewrite Hp'. destruct i; simpl; [done|done].
Qed.

Lemma lru_chain_linked_at c order i e :
  lru_chain c order → order !! i = Some e →
  linked_at (cacheEntryPool c) order i e.
Proof.
  intros [_ _ Hs _ _] Hi.
  destruct (seg_linked_at _ _ _ _ _ _ Hs Hi) as (ent & He & Hp & Hn).
  exists ent. split; [done|]. split; [done|].
  rewrite Hn. by destruct (order !! S i).
Qed.

Lemma runCalls_inv calls c :
  cache_inv c → Forall (call_inRange (cachePageTree c)) calls →
  ∃ c', runCalls calls c = Some c' ∧ cache_inv c'
        ∧ same_geometry (cachePageTree c) (cachePageTree c').
Proof.
  revert c. induction calls as [|call calls IH]; intros c Hinv Hall.
  - exists c. split; [done|]. split; [done|apply same_geometry_refl].
  - apply Forall_cons in Hall as [Hcall Hall].
    assert (Hstep : ∃ c1, runCall call c = Some c1 ∧ cache_inv c1
                          ∧ same_geometry (cachePageTree c) (cachePageTree c1)).
    { destruct call as [id|id|]; simpl in *.
      - destruct (lookupPage_inv c id Hinv Hcall) as (r & c1 & -> & H1 & H2). by exists c1.
      - destruct (accommodatePage_inv c id Hinv Hcall) as (r & c1 & -> & H1 & H2). by exists c1.
      - exists (purgeCache c). split; [done|].
        split; [apply purgeCache_inv; apply Hinv|].
        unfold same_geometry. simpl. by rewrite length_replicate. }
    destruct Hstep as (c1 & Hrun & Hinv1 & Hg1).
    destruct (IH c1 Hinv1) as (c' & Hrun' & Hinv' & Hg').
    { eapply Forall_impl; [exact Hall|]. intros [id|id|]; simpl; try done;
        by apply (same_geometry_inRange _ _ _ Hg1). }
    exists c'. simpl. rewrite Hrun. simpl. split; [done|]. split; [done|].
    by eapply same_geometry_trans.
Qed.

(** C3.  After construction, any sequence of [lookupPage],
    [accommodatePage] and [purgeCache] calls on in-range page ids runs
    to completion and leaves the LRU chain a doubly linked list through
    all 256 entries of the pool, without repetition, from [mru] to
    [lru], with [mru->prev] and [lru->next] null. *)
Theorem lru_chain_invariant vtPagesX vtPagesY vtNumLevels c0 calls :
  make vtPagesX vtPagesY vtNumLevels = Some c0 →
  Forall (call_inRange (cachePageTree c0)) calls →
  ∃ c order,
    runCalls calls c0 = Some c
    ∧ NoDup order
    ∧ length order = 256%nat
    ∧ (∀ e, (e < 256)%nat → e ∈ order)
    ∧ (∀ i e, order !! i = Some e → linked_at (cacheEntryPool c) order i e)
    ∧ mru c = head order
    ∧ lru c = last order
    ∧ (∃ m ent, mru c = Some m ∧ cacheEntryPool c !! m = Some ent ∧ prev ent = None)
    ∧ (∃ l ent, lru c = Some l ∧ cacheEntryPool c !! l = Some ent ∧ next ent = None).
Proof.
  intros Hmake Hcalls.
  destruct (make_inv _ _ _ _ Hmake) as [Hinv0 _].
  destruct (runCalls_inv calls c0 Hinv0 Hcalls) as (c & Hrun & Hinv & _).
  destruct Hinv as [Hwf Hlen [order Hch] Hslots Hids].
  exists c, order. split; [done|].
  pose proof Hch as [Hnd Hl Hseg Hm Hlr].
  split; [done|]. split; [done|].
  split; [intros e He; by apply (lru_chain_full c order e Hch Hlen)|].
  split; [intros i e Hi; by apply lru_chain_linked_at|].
  split; [done|]. split; [done|].
  assert (Hne : order ≠ []) by (intros ->; by rewrite TotalCachePages_eq in Hl).
  split.
  - destruct order as [|m order']; [done|].
    destruct (lru_chain_linked_at c _ 0 m Hch eq_refl) as (ent & He & Hp & _).
    by exists m, ent.
  - destruct (snoc_exists order Hne) as (l0 & l & ->).
    assert (Hi : (l0 ++ [l]) !! length l0 = Some l).
    { rewrite lookup_app_r by lia. by rewrite Nat.sub_diag. }
    destruct (lru_chain_linked_at c _ _ l Hch Hi) as (ent & He & _ & Hn).
    exists l, ent. rewrite Hlr, last_snoc. split; [done|]. split; [done|].
    rewrite Hn. apply lookup_ge_None. rewrite length_app. simpl. lia.
Qed.

(** C1.  [lookupPage] on an in-range page id always increments
    [totalFrameRequests]; on a null slot it stores the in-flight dummy,
    increments [newFrameRequests] and returns [Unavailable]; on the
    dummy it increments [reFrameRequests] and returns [InFlight]; on a
    real entry [e] it increments [hitFrameRequests], moves [e] from its
    place in the chain (the tail included, [l2 = []]) to the head, and
    returns [Cached]. *)
Theorem lookupPage_spec c id order :
  cache_inv c → lru_chain c order → inRange (cachePageTree c) id →
  ∃ slot c',
    CachePageTree.getId (cachePageTree c) id = Some slot
    ∧ totalFrameRequests (stats c') = totalFrameRequests (stats c) + 1
    ∧ match slot with
      | Null =>
          lookupPage id c = Some (Unavailable, c')
          ∧ CachePageTree.getId (cachePageTree c') id = Some RequestedPageDummy
          ∧ newFrameRequests (stats c') = newFrameRequests (stats c) + 1
          ∧ lru_chain c' order
      | RequestedPageDummy =>
          lookupPage id c = Some (InFlight, c')
          ∧ cachePageTree c' = cachePageTree c
          ∧ reFrameRequests (stats c') = reFrameRequests (stats c) + 1
          ∧ lru_chain c' order
      | Entry e =>
          lookupPage id c = Some (Cached, c')
          ∧ cachePageTree c' = cachePageTree c
          ∧ hitFrameRequests (stats c') = hitFrameRequests (stats c) + 1
          ∧ same_payload (cacheEntryPool c) (cacheEntryPool c')
          ∧ mru c' = Some e
          ∧ ∃ l1 l2, order = l1 ++ e :: l2 ∧ lru_chain c' (e :: l1 ++ l2)
      end.
Proof.
  intros [Hwf Hlen _ Hslots Hids] Hch Hr.
  destruct (get_inRange _ id Hwf Hr) as (i & s & Hi & Hs & Hget).
  exists s. destruct s as [| |e].
  - destruct (lookupPage_miss c id Hwf Hr Hget) as (tr' & Hl & Hg & Hp).
    exists {| stats := incNew (incTotal (stats c)); mru := mru c; lru := lru c;
              cachePageTree := tr'; cacheEntryPool := cacheEntryPool c |}.
    split; [done|]. split; [done|].
    split; [exact Hl|]. simpl. split; [|split; [done|by apply (lru_chain_ext c)]].
    rewrite (getId_lookup _ _ i) by (by rewrite (same_geometry_slotIndex _ _ _ _ _ Hg)).
    rewrite Hp. unfold slot_of. rewrite Hi. simpl.
    apply list_lookup_insert_eq. by eapply lookup_lt_Some.
  - exists {| stats := incRe (incTotal (stats c)); mru := mru c; lru := lru c;
              cachePageTree := cachePageTree c; cacheEntryPool := cacheEntryPool c |}.
    split; [done|].
    rewrite (lookupPage_inflight c id Hr Hget). simpl.
    split; [done|]. split; [done|]. split; [done|]. split; [done|].
    by apply (lru_chain_ext c).
  - assert (He : (e < TotalCachePages)%nat).
    { eapply Forall_lookup_1 in Hslots; [|exact Hs]. by apply Hslots. }
    pose proof (lru_chain_full c order e Hch Hlen He) as Hin.
    apply list_elem_of_split in Hin as (l1 & l2 & ->).
    destruct (lookupPage_hit c id e l1 l2 Hwf Hr Hget Hch)
      as (c' & Hl & Hst & Htr & Hpay & Hch').
    exists c'. split; [done|]. rewrite Hst. simpl. split; [done|].
    split; [done|]. split; [done|]. split; [done|]. split; [done|].
    split; [by destruct Hch'|]. by exists l1, l2.
Qed.

End CacheClaims.

(** ** Which pages the cache holds *)

Section Tracking.
Import PageCacheMgr.

Lemma inRange_not_invalid tr id : tree_wf tr → inRange tr id → id ≠ InvalidPageId.
Proof.
  intros Hwf (HL & _) ->. pose proof (tw_levels _ Hwf) as H.
  unfold MaxVTMipLevels in H.
  assert (pageIdExtractMipLevel InvalidPageId = 255) as E by reflexivity.
  rewrite E in HL. lia.
Qed.

Lemma getId_slot_of tr id :
  tree_wf tr → inRange tr id →
  CachePageTree.getId tr id = CachePageTree.cacheEntryPtrPool tr !! slot_of tr id
  ∧ (slot_of tr id < length (CachePageTree.cacheEntryPtrPool tr))%nat.
Proof.
  intros Hwf Hr. destruct (slotIndex_inRange tr id Hwf Hr) as (i & Hi & Hlt).
  unfold slot_of. rewrite Hi. simpl. split; [by apply getId_lookup|done].
Qed.

Lemma slot_of_eq_iff tr id1 id2 :
  tree_wf tr → inRange tr id1 → inRange tr id2 →
  slot_of tr id1 = slot_of tr id2 ↔ pageKey id1 = pageKey id2.
Proof.
  intros Hwf H1 H2.
  destruct (slotIndex_inRange tr id1 Hwf H1) as (i1 & Hi1 & _).
  destruct (slotIndex_inRange tr id2 Hwf H2) as (i2 & Hi2 & _).
  unfold slot_of. rewrite Hi1, Hi2. simpl. split.
  - intros ->. by eapply slotIndex_inj.
  - intros Hk. rewrite (slotIndex_pageKey _ _ _ Hk) in Hi1. congruence.
Qed.

Lemma slot_of_same_geometry tr tr' id :
  same_geometry tr tr' → slot_of tr' id = slot_of tr id.
Proof. intros Hg. unfold slot_of. by rewrite (same_geometry_slotIndex _ _ _ _ _ Hg). Qed.

Lemma pool_pageId_lookup (pool : list CacheEntry) e ent :
  pool !! e = Some ent → (pageId <$> pool) !! e = Some (pageId ent).
Proof. intros H. by rewrite list_lookup_fmap, H. Qed.

Lemma ids_of_app pool l1 l2 : ids_of pool (l1 ++ l2) = ids_of pool l1 ++ ids_of pool l2.
Proof. unfold ids_of. apply fmap_app. Qed.

Lemma ids_of_ext pool pool' l :
  (∀ e, e ∈ l → (pageId <$> pool') !! e = (pageId <$> pool) !! e) →
  ids_of pool' l = ids_of pool l.
Proof.
  intros H. unfold ids_of. apply list_fmap_ext. intros i e Hi.
  specialize (H e ltac:(by eapply list_elem_of_lookup_2)).
  rewrite !list_lookup_fmap in H. by rewrite H.
Qed.

(** The page ids of the pool are those along the chain. *)
Lemma entry_in_ids c order e ent :
  lru_chain c order → length (cacheEntryPool c) = TotalCachePages →
  cacheEntryPool c !! e = Some ent →
  pageId ent ∈ ids_of (cacheEntryPool c) order.
Proof.
  intros Hch Hlen He.
  assert (e ∈ order) as Hin.
  { apply (lru_chain_full c order e Hch Hlen). rewrite <- Hlen. by eapply lookup_lt_Some. }
  unfold ids_of. apply list_elem_of_fmap. exists e. split; [|done]. by rewrite He.
Qed.

Lemma ids_in_entry c order id :
  lru_chain c order → id ∈ ids_of (cacheEntryPool c) order →
  ∃ e ent, cacheEntryPool c !! e = Some ent ∧ pageId ent = id.
Proof.
  intros Hch Hin. unfold ids_of in Hin.
  apply list_elem_of_fmap in Hin as (e & -> & He).
  pose proof (lru_chain_elem_lt c order e Hch He) as Hlt.
  destruct (lookup_lt_is_Some_2 _ _ Hlt) as [ent Hent].
  exists e, ent. by rewrite Hent.
Qed.

(** One accommodation of a page that is not resident. *)
Lemma accommodatePage_tracked c ids id :
  tracked c ids → inRange (cachePageTree c) id →
  (∀ e ent, cacheEntryPool c !! e = Some ent →
            pageId ent ≠ InvalidPageId → pageKey (pageId ent) ≠ pageKey id) →
  ∃ r c', accommodatePage id c = Some (r, c')
          ∧ tracked c' (id :: removelast ids)
          ∧ same_geometry (cachePageTree c) (cachePageTree c').
Proof.
  intros [Hinv (order & Hch & Hids) Hpub Hunp] Hr Hfresh.
  pose proof Hinv as [Hwf Hlen _ Hslots Hidsok].
  assert (Hne : order ≠ []).
  { intros ->. destruct Hch as [_ Hl _ _ _]. by rewrite TotalCachePages_eq in Hl. }
  destruct (snoc_exists order Hne) as (l1 & e & ->).
  assert (He : (e < length (cacheEntryPool c))%nat).
  { eapply lru_chain_elem_lt; [done|]. apply elem_of_app. right. left. }
  destruct (lookup_lt_is_Some_2 _ _ He) as [ent Hent].
  assert (Hid : pageId ent = InvalidPageId ∨ inRange (cachePageTree c) (pageId ent)).
  { exact (Forall_lookup_1 _ _ _ _ Hidsok (pool_pageId_lookup _ _ _ Hent)). }
  destruct (accommodatePage_step c id l1 e ent Hwf Hch Hent Hid Hr)
    as (c' & Hacc & Hst & Hg & Htp & Hp1 & Hp2 & Hch').
  destruct (accommodatePage_inv c id Hinv Hr) as (r0 & c0 & Hacc0 & Hinv' & _).
  rewrite Hacc in Hacc0. injection Hacc0 as <- <-.
  exists (cacheCoord ent), c'. split; [done|]. split; [|done].
  pose proof Hinv' as [Hwf' Hlen' _ _ Hidsok'].
  assert (Hidne : id ≠ InvalidPageId) by apply (inRange_not_invalid _ _ Hwf Hr).
  assert (Hr' : inRange (cachePageTree c') id) by (by apply (same_geometry_inRange _ _ _ Hg)).
  (* the page id held by each entry afterwards *)
  assert (Hpid : ∀ e' ent', cacheEntryPool c' !! e' = Some ent' →
            (e' = e ∧ pageId ent' = id)
            ∨ (e' ≠ e ∧ ∃ ent0, cacheEntryPool c !! e' = Some ent0
                                ∧ pageId ent0 = pageId ent')).
  { intros e' ent' He'. apply pool_pageId_lookup in He'. rewrite Hp1 in He'.
    destruct (decide (e' = e)) as [->|Hne'].
    - left. split; [done|].
      rewrite list_lookup_insert_eq in He' by (by rewrite length_fmap). congruence.
    - right. split; [done|]. rewrite list_lookup_insert_ne in He' by done.
      rewrite list_lookup_fmap in He'.
      destruct (cacheEntryPool c !! e') as [ent0|]; simpl in He'; [|done].
      exists ent0. split; [done|]. congruence. }
  destruct (getId_slot_of _ id Hwf Hr) as [_ Hsid].
  split.
  - done.
  - exists (e :: l1). split; [done|].
    change (e :: l1) with ([e] ++ l1). rewrite ids_of_app.
    rewrite ids_of_app in Hids. rewrite <- Hids.
    unfold ids_of at 3. simpl. rewrite removelast_last.
    unfold ids_of at 1. simpl.
    assert (Hee : (pageId <$> cacheEntryPool c') !! e = Some id).
    { rewrite Hp1. apply list_lookup_insert_eq. by rewrite length_fmap. }
    rewrite list_lookup_fmap in Hee.
    destruct (cacheEntryPool c' !! e) as [x|]; simpl in Hee; [|done].
    simpl. injection Hee as ->. f_equal.
    apply ids_of_ext. intros e' He'. rewrite Hp1.
    apply list_lookup_insert_ne. intros <-.
    destruct Hch as [Hnd _ _ _ _]. apply NoDup_app in Hnd as (_ & Hd & _).
    apply (Hd e He'). left.
  - (* every resident page is published *)
    intros e' ent' He' Hv.
    destruct (Hpid e' ent' He') as [[-> Hi]|[Hne' (ent0 & He0 & Hi)]].
    + rewrite Hi. destruct (getId_slot_of _ id Hwf' Hr') as [-> _].
      rewrite (slot_of_same_geometry _ _ _ Hg), Htp.
      apply list_lookup_insert_eq. by destruct (decide _); rewrite ?length_insert.
    + rewrite <- Hi in Hv |- *.
      assert (Hr0 : inRange (cachePageTree c) (pageId ent0)).
      { eapply Forall_lookup_1 in Hidsok; [|by apply pool_pageId_lookup].
        by destruct Hidsok. }
      pose proof (Hpub e' ent0 He0 Hv) as Hp0.
      destruct (getId_slot_of _ _ Hwf Hr0) as [Hg0 _]. rewrite Hg0 in Hp0.
      assert (Hr0' : inRange (cachePageTree c') (pageId ent0))
        by (by apply (same_geometry_inRange _ _ _ Hg)).
      destruct (getId_slot_of _ _ Hwf' Hr0') as [-> _].
      rewrite (slot_of_same_geometry _ _ _ Hg), Htp.
      rewrite list_lookup_insert_ne.
      2:{ intros Heq. apply (slot_of_eq_iff _ _ _ Hwf Hr Hr0) in Heq.
          by apply (Hfresh e' ent0 He0 Hv). }
      destruct (decide (pageId ent ≠ InvalidPageId)) as [Hvo|]; [|done].
      rewrite list_lookup_insert_ne; [done|].
      intros Heq. destruct Hid as [Hid|Hid]; [done|].
      pose proof (Hpub e ent Hent Hvo) as Hpe.
      destruct (getId_slot_of _ _ Hwf Hid) as [Hge _]. rewrite Hge, Heq, Hp0 in Hpe.
      by injection Hpe.
  - (* every other slot is null *)
    intros id' Hr2' Hother.
    assert (Hr2 : inRange (cachePageTree c) id')
      by (by apply (same_geometry_inRange _ _ _ Hg)).
    destruct (getId_slot_of _ _ Hwf' Hr2') as [-> _].
    rewrite (slot_of_same_geometry _ _ _ Hg), Htp.
    destruct (lookup_lt_is_Some_2 _ _ (eq_ind_r (λ n, (e < n)%nat) He
                (eq_trans Hlen' (eq_sym Hlen)))) as [ente Hente].
    assert (Hente_id : pageId ente = id).
    { destruct (Hpid e ente Hente) as [[_ H]|[H _]]; done. }
    rewrite list_lookup_insert_ne.
    2:{ intros Heq. apply (slot_of_eq_iff _ _ _ Hwf Hr Hr2) in Heq.
        apply (Hother e ente Hente); by rewrite Hente_id. }
    destruct (getId_slot_of _ _ Hwf Hr2) as [Hg2 Hlt2].
    assert (Hold : ∀ e'' ent'', cacheEntryPool c !! e'' = Some ent'' →
               e'' ≠ e → pageId ent'' ≠ InvalidPageId →
               pageKey (pageId ent'') ≠ pageKey id').
    { intros e'' ent'' He'' Hne'' Hv''.
      assert (Hlt'' : (e'' < length (cacheEntryPool c'))%nat).
      { rewrite Hlen', <- Hlen. by eapply lookup_lt_Some. }
      destruct (lookup_lt_is_Some_2 _ _ Hlt'') as [entn Hentn].
      destruct (Hpid e'' entn Hentn) as [[-> _]|[_ (ent0 & He0 & Hi)]]; [done|].
      rewrite He'' in He0. injection He0 as <-.
      rewrite Hi in Hv'' |- *. by apply (Hother e'' entn Hentn). }
    destruct (decide (pageId ent ≠ InvalidPageId)) as [Hvo|Hvo].
    + destruct Hid as [Hid|Hid]; [done|].
      destruct (decide (slot_of (cachePageTree c) (pageId ent)
                        = slot_of (cachePageTree c) id')) as [Heq|Hneq].
      * rewrite Heq. by apply list_lookup_insert_eq.
      * rewrite list_lookup_insert_ne by done. rewrite <- Hg2. apply Hunp; [done|].
        intros e'' ent'' He'' Hv''. destruct (decide (e'' = e)) as [->|Hne''].
        -- rewrite Hent in He''. injection He'' as <-.
           intros Hk. apply Hneq. by apply (slot_of_eq_iff _ _ _ Hwf Hid Hr2).
        -- by eapply Hold.
    + rewrite <- Hg2. apply Hunp; [done|].
      intros e'' ent'' He'' Hv''. destruct (decide (e'' = e)) as [->|Hne''].
      * rewrite Hent in He''. injection He'' as <-. done.
      * by eapply Hold.
Qed.


Lemma tracked_length c ids : tracked c ids → length ids = TotalCachePages.
Proof.
  intros [_ (order & [_ Hl _ _ _] & <-) _ _]. unfold ids_of. by rewrite length_fmap.
Qed.

Lemma purgeCache_pageIds c e ent :
  cacheEntryPool (purgeCache c) !! e = Some ent → pageId ent = InvalidPageId.
Proof.
  simpl. rewrite list_lookup_imap.
  destruct (cacheEntryPool c !! e); simpl; [|done]. by intros [= <-].
Qed.

Lemma purgeCache_tracked c :
  tree_wf (cachePageTree c) → length (cacheEntryPool c) = TotalCachePages →
  tracked (purgeCache c) (replicate TotalCachePages InvalidPageId).
Proof.
  intros Hwf Hlen.
  pose proof (purgeCache_inv c Hwf Hlen) as Hinv.
  pose proof (purgeCache_chain c Hlen) as Hch.
  split.
  - done.
  - exists (seq 0 TotalCachePages). split; [done|].
    apply list_eq. intros i. unfold ids_of. rewrite list_lookup_fmap.
    destruct (decide (i < TotalCachePages)%nat) as [Hi|Hi].
    + assert (Hlt : (i < length (cacheEntryPool (purgeCache c)))%nat)
        by (by rewrite (ci_pool _ Hinv)).
      destruct (lookup_lt_is_Some_2 _ _ Hlt) as [ent Hent].
      rewrite lookup_seq_lt by done. rewrite lookup_replicate_2 by done.
      change (Some (default InvalidPageId (pageId <$> cacheEntryPool (purgeCache c) !! i))
              = Some InvalidPageId).
      rewrite Hent. simpl. f_equal. by eapply purgeCache_pageIds.
    + rewrite lookup_seq_ge by lia. symmetry.
      change (replicate TotalCachePages InvalidPageId !! i = None).
      apply lookup_replicate_None. lia.
  - intros e ent He Hv. by apply purgeCache_pageIds in He.
  - intros id Hr _.
    destruct (getId_slot_of _ id (ci_tree _ Hinv) Hr) as [-> Hlt].
    cbn in *. rewrite length_replicate in Hlt. by apply lookup_replicate_2.
Qed.

Lemma take_app_take {A} (n : nat) (l1 l2 : list A) :
  take n (l1 ++ take n l2) = take n (l1 ++ l2).
Proof.
  rewrite !take_app. f_equal. rewrite take_take. f_equal. lia.
Qed.

Lemma cons_removelast_take {A} (x : A) (l : list A) (n : nat) :
  (0 < n)%nat → length l = n → x :: removelast l = take n (x :: l).
Proof.
  intros Hn <-. destruct l as [|a l] using rev_ind; [simpl in Hn; lia|].
  rewrite removelast_last. rewrite length_app. simpl.
  replace (length l + 1)%nat with (S (length l)) by lia. simpl. f_equal.
  rewrite take_app_length. done.
Qed.

(** Accommodating, one after the other, pages that are not resident
    and pairwise distinct. *)
Lemma accommodatePages_tracked ps : ∀ c ids,
  tracked c ids → Forall (inRange (cachePageTree c)) ps →
  NoDup (pageKey <$> ps) →
  (∀ p id, p ∈ ps → id ∈ ids → id ≠ InvalidPageId → pageKey id ≠ pageKey p) →
  ∃ c', accommodatePages ps c = Some c'
        ∧ tracked c' (take TotalCachePages (rev ps ++ ids))
        ∧ same_geometry (cachePageTree c) (cachePageTree c').
Proof.
  induction ps as [|p ps IH]; intros c ids Htr Hall Hnd Hfresh.
  - exists c. split; [done|]. split; [|apply same_geometry_refl].
    simpl. rewrite take_ge; [done|]. by rewrite (tracked_length c ids Htr).
  - apply Forall_cons in Hall as [Hp Hall].
    rewrite fmap_cons in Hnd. apply NoDup_cons in Hnd as [Hp_ps Hnd].
    pose proof (tracked_length c ids Htr) as Hlen.
    destruct (accommodatePage_tracked c ids p Htr Hp) as (r & c1 & Hacc & Htr1 & Hg1).
    { intros e ent He Hv. apply Hfresh; [left| |done].
      destruct Htr as [Hinv (order & Hch & <-) _ _].
      eapply entry_in_ids; [done|apply Hinv|done]. }
    destruct (IH c1 (p :: removelast ids) Htr1) as (c' & Hrun & Htr' & Hg').
    { eapply Forall_impl; [exact Hall|]. intros q Hq.
      by apply (same_geometry_inRange _ _ _ Hg1). }
    { done. }
    { intros q id Hq Hid Hv. apply elem_of_cons in Hid as [->|Hid].
      - intros Hk. apply Hp_ps. rewrite Hk. by apply list_elem_of_fmap_2.
      - apply Hfresh; [by right| |done].
        destruct ids as [|a ids] using rev_ind; [done|].
        rewrite removelast_last in Hid. apply elem_of_app. by left. }
    exists c'. cbn. rewrite Hacc. simpl. split; [done|].
    split; [|by eapply same_geometry_trans].
    rewrite (cons_removelast_take p ids TotalCachePages) in Htr'
      by (done || (rewrite TotalCachePages_eq; lia)).
    rewrite take_app_take in Htr'. by rewrite <- app_assoc.
Qed.


Lemma tracked_resident c ids p :
  tracked c ids → p ∈ ids → p ≠ InvalidPageId →
  ∃ e ent, CachePageTree.getId (cachePageTree c) p = Some (Entry e)
           ∧ cacheEntryPool c !! e = Some ent ∧ pageId ent = p.
Proof.
  intros [Hinv (order & Hch & <-) Hpub _] Hin Hv.
  destruct (ids_in_entry c order p Hch Hin) as (e & ent & He & <-).
  exists e, ent. split; [by apply Hpub|done].
Qed.

Lemma tracked_absent c ids p :
  tracked c ids → inRange (cachePageTree c) p →
  (∀ id, id ∈ ids → id ≠ InvalidPageId → pageKey id ≠ pageKey p) →
  CachePageTree.getId (cachePageTree c) p = Some Null.
Proof.
  intros [Hinv (order & Hch & <-) _ Hunp] Hr Hfresh. apply Hunp; [done|].
  intros e ent He Hv. apply Hfresh; [|done].
  eapply entry_in_ids; [done|apply Hinv|done].
Qed.

Lemma accommodatePages_purged c ps :
  tree_wf (cachePageTree c) → length (cacheEntryPool c) = TotalCachePages →
  Forall (inRange (cachePageTree c)) ps → NoDup (pageKey <$> ps) →
  (length ps ≥ TotalCachePages)%nat →
  ∃ c', accommodatePages ps (purgeCache c) = Some c'
        ∧ tracked c' (take TotalCachePages (rev ps))
        ∧ same_geometry (cachePageTree c) (cachePageTree c').
Proof.
  intros Hwf Hlen Hall Hnd Hge.
  pose proof (purgeCache_tracked c Hwf Hlen) as Htr.
  assert (Hg0 : same_geometry (cachePageTree c) (cachePageTree (purgeCache c))).
  { unfold same_geometry. simpl. by rewrite length_replicate. }
  destruct (accommodatePages_tracked ps (purgeCache c) _ Htr) as (c' & Hrun & Htr' & Hg).
  - eapply Forall_impl; [exact Hall|]. intros q Hq.
    by apply (same_geometry_inRange _ _ _ Hg0).
  - done.
  - intros q id _ Hid Hv. by apply elem_of_replicate in Hid as [? _].
  - exists c'. split; [done|]. split; [|by eapply same_geometry_trans].
    rewrite take_app_le in Htr' by (rewrite length_rev; lia). done.
Qed.

End Tracking.

(** ** accommodatePage and eviction *)

Section AccommodateClaims.
Import PageCacheMgr.

Lemma elem_of_rev {A} (x : A) (l : list A) : x ∈ rev l ↔ x ∈ l.
Proof. rewrite !list_elem_of_In. symmetry. apply in_rev. Qed.

Lemma accommodatePage_entry c order id :
  cache_inv c → lru_chain c order → inRange (cachePageTree c) id →
  ∃ l1 e ent c',
    order = l1 ++ [e] ∧ lru c = Some e ∧ cacheEntryPool c !! e = Some ent
    ∧ accommodatePage id c = Some (cacheCoord ent, c')
    ∧ servicedRequests (stats c') = servicedRequests (stats c) + 1
    ∧ CachePageTree.cacheEntryPtrPool (cachePageTree c')
      = <[slot_of (cachePageTree c) id := Entry e]>
          (if decide (pageId ent ≠ InvalidPageId)
           then <[slot_of (cachePageTree c) (pageId ent) := Null]>
                  (CachePageTree.cacheEntryPtrPool (cachePageTree c))
           else CachePageTree.cacheEntryPtrPool (cachePageTree c))
    ∧ CachePageTree.getId (cachePageTree c') id = Some (Entry e)
    ∧ pageId <$> cacheEntryPool c' = <[e := id]> (pageId <$> cacheEntryPool c)
    ∧ cacheCoord <$> cacheEntryPool c' = cacheCoord <$> cacheEntryPool c
    ∧ lru_chain c' (e :: l1).
Proof.
  intros Hinv Hch Hr.
  pose proof Hinv as [Hwf Hlen _ Hslots Hidsok].
  assert (Hne : order ≠ []).
  { intros ->. destruct Hch as [_ Hl _ _ _]. by rewrite TotalCachePages_eq in Hl. }
  destruct (snoc_exists order Hne) as (l1 & e & ->).
  assert (He : (e < length (cacheEntryPool c))%nat).
  { eapply lru_chain_elem_lt; [done|]. apply elem_of_app. right. left. }
  destruct (lookup_lt_is_Some_2 _ _ He) as [ent Hent].
  assert (Hid : pageId ent = InvalidPageId ∨ inRange (cachePageTree c) (pageId ent)).
  { exact (Forall_lookup_1 _ _ _ _ Hidsok (pool_pageId_lookup _ _ _ Hent)). }
  destruct (accommodatePage_step c id l1 e ent Hwf Hch Hent Hid Hr)
    as (c' & Hacc & Hst & Hg & Htp & Hp1 & Hp2 & Hch').
  exists l1, e, ent, c'. split; [done|].
  split; [destruct Hch as [_ _ _ _ ->]; by rewrite last_snoc|].
  split; [done|]. split; [done|]. split; [by rewrite Hst|]. split; [done|].
  split; [|done].
  assert (Hwf' : tree_wf (cachePageTree c')) by (by eapply same_geometry_wf).
  assert (Hr' : inRange (cachePageTree c') id)
    by (by apply (same_geometry_inRange _ _ _ Hg)).
  destruct (getId_slot_of _ id Hwf' Hr') as [-> _].
  destruct (getId_slot_of _ id Hwf Hr) as [_ Hlt].
  rewrite (slot_of_same_geometry _ _ _ Hg), Htp.
  apply list_lookup_insert_eq. by destruct (decide _); rewrite ?length_insert.
Qed.

Lemma accommodatePages_257 c ps :
  tree_wf (cachePageTree c) → length (cacheEntryPool c) = 256%nat →
  length ps = 257%nat →
  Forall (inRange (cachePageTree c)) ps → NoDup (pageKey <$> ps) →
  ∃ c256 c257,
    accommodatePages (take 256 ps) (purgeCache c) = Some c256
    ∧ (∀ i p, ps !! i = Some p → (i < 256)%nat →
         ∃ e ent, CachePageTree.getId (cachePageTree c256) p = Some (Entry e)
                  ∧ cacheEntryPool c256 !! e = Some ent ∧ pageId ent = p)
    ∧ accommodatePages ps (purgeCache c) = Some c257
    ∧ (∀ p, ps !! 0%nat = Some p →
         CachePageTree.getId (cachePageTree c257) p = Some Null)
    ∧ (∀ i p, ps !! i = Some p → (0 < i)%nat →
         ∃ e ent, CachePageTree.getId (cachePageTree c257) p = Some (Entry e)
                  ∧ cacheEntryPool c257 !! e = Some ent ∧ pageId ent = p).
Proof.
  intros Hwf Hlen Hps Hall Hnd.
  rewrite <- TotalCachePages_eq in Hlen.
  (* the first 256 pages *)
  destruct (accommodatePages_purged c (take 256 ps) Hwf Hlen)
    as (c256 & Hrun1 & Htr1 & Hg1).
  { by apply Forall_take. }
  { rewrite fmap_take. eapply sublist_NoDup; [exact Hnd|apply sublist_take]. }
  { rewrite length_take, Hps, TotalCachePages_eq. lia. }
  rewrite take_ge in Htr1 by (rewrite length_rev, length_take, TotalCachePages_eq; lia).
  (* all 257 pages *)
  destruct (accommodatePages_purged c ps Hwf Hlen Hall Hnd)
    as (c257 & Hrun2 & Htr2 & Hg2).
  { rewrite Hps, TotalCachePages_eq. lia. }
  exists c256, c257.
  assert (Hvalid : ∀ p, p ∈ ps → p ≠ InvalidPageId).
  { intros p Hp. eapply inRange_not_invalid; [exact Hwf|].
    by eapply Forall_forall in Hall. }
  split; [done|]. split.
  { intros i p Hi Hlt.
    apply (tracked_resident c256 _ p Htr1).
    - apply elem_of_rev. eapply list_elem_of_lookup_2. by apply lookup_take_Some.
    - apply Hvalid. by eapply list_elem_of_lookup_2. }
  split; [done|].
  destruct ps as [|p0 ps']; [done|].
  assert (Hids : take TotalCachePages (rev (p0 :: ps')) = rev ps').
  { simpl. rewrite take_app_le by (rewrite length_rev; simpl in Hps;
                                   rewrite TotalCachePages_eq; lia).
    apply take_ge. rewrite length_rev, TotalCachePages_eq. simpl in Hps. lia. }
  rewrite Hids in Htr2.
  rewrite fmap_cons in Hnd. apply NoDup_cons in Hnd as [Hp0 Hnd'].
  split.
  { intros p [= <-].
    apply (tracked_absent c257 _ p0 Htr2).
    - apply (same_geometry_inRange _ _ _ Hg2). by apply Forall_cons in Hall as [? _].
    - intros id Hid Hv Hk. apply Hp0. rewrite <- Hk.
      apply list_elem_of_fmap_2. by apply elem_of_rev. }
  { intros i p Hi Hlt. destruct i as [|i]; [lia|]. simpl in Hi.
    apply (tracked_resident c257 _ p Htr2).
    - apply elem_of_rev. by eapply list_elem_of_lookup_2.
    - apply Hvalid. right. by eapply list_elem_of_lookup_2. }
Qed.

(** C2.  [accommodatePage] on an in-range page id reuses the entry [e]
    at the tail of the chain: the slot of the page [e] held, if any, is
    set to null, then the slot of [id] is set to [e]; [e] becomes the
    head of the chain and holds [id]; [servicedRequests] is incremented
    and the unchanged cache coordinate of [e] is returned.  From a
    purged cache, 256 pages with distinct coordinates are accommodated
    without any eviction, and the 257th evicts the first one and no
    other. *)
Theorem accommodatePage_spec :
  (∀ c order id,
      cache_inv c → lru_chain c order → inRange (cachePageTree c) id →
      ∃ l1 e ent c',
        order = l1 ++ [e] ∧ lru c = Some e ∧ cacheEntryPool c !! e = Some ent
        ∧ accommodatePage id c = Some (cacheCoord ent, c')
        ∧ servicedRequests (stats c') = servicedRequests (stats c) + 1
        ∧ CachePageTree.cacheEntryPtrPool (cachePageTree c')
          = <[slot_of (cachePageTree c) id := Entry e]>
              (if decide (pageId ent ≠ InvalidPageId)
               then <[slot_of (cachePageTree c) (pageId ent) := Null]>
                      (CachePageTree.cacheEntryPtrPool (cachePageTree c))
               else CachePageTree.cacheEntryPtrPool (cachePageTree c))
        ∧ CachePageTree.getId (cachePageTree c') id = Some (Entry e)
        ∧ pageId <$> cacheEntryPool c' = <[e := id]> (pageId <$> cacheEntryPool c)
        ∧ cacheCoord <$> cacheEntryPool c' = cacheCoord <$> cacheEntryPool c
        ∧ lru_chain c' (e :: l1))
  ∧ (∀ c ps,
      tree_wf (cachePageTree c) → length (cacheEntryPool c) = 256%nat →
      length ps = 257%nat →
      Forall (inRange (cachePageTree c)) ps → NoDup (pageKey <$> ps) →
      ∃ c256 c257,
        accommodatePages (take 256 ps) (purgeCache c) = Some c256
        ∧ (∀ i p, ps !! i = Some p → (i < 256)%nat →
             ∃ e ent, CachePageTree.getId (cachePageTree c256) p = Some (Entry e)
                      ∧ cacheEntryPool c256 !! e = Some ent ∧ pageId ent = p)
        ∧ accommodatePages ps (purgeCache c) = Some c257
        ∧ (∀ p, ps !! 0%nat = Some p →
             CachePageTree.getId (cachePageTree c257) p = Some Null)
        ∧ (∀ i p, ps !! i = Some p → (0 < i)%nat →
             ∃ e ent, CachePageTree.getId (cachePageTree c257) p = Some (Entry e)
                      ∧ cacheEntryPool c257 !! e = Some ent ∧ pageId ent = p)).
Proof.
  split.
  - apply accommodatePage_entry.
  - apply accommodatePages_257.
Qed.


End AccommodateClaims.

(** ** The upload loop of frameUpdate *)

Section FrameUpdate.

Abbreviation tree_pool vt :=
  (CachePageTree.cacheEntryPtrPool (PageCacheMgr.cachePageTree (VirtualTexture.pageCacheMgr vt))).

Lemma uploadTo_cache tbl upload st :
  VirtualTexture.pageCacheMgr (VirtualTexture.uploadTo tbl upload st).1 = VirtualTexture.pageCacheMgr st.1
  ∧ VirtualTexture.textureIndex (VirtualTexture.uploadTo tbl upload st).1 = VirtualTexture.textureIndex st.1
  ∧ VirtualTexture.numPageTables (VirtualTexture.uploadTo tbl upload st).1 = VirtualTexture.numPageTables st.1.
Proof. by destruct st as [vt cur]. Qed.

Lemma uploadSubTextures_cache queue request coord st :
  VirtualTexture.pageCacheMgr (VirtualTexture.uploadSubTextures queue request coord st).1 = VirtualTexture.pageCacheMgr st.1
  ∧ VirtualTexture.textureIndex (VirtualTexture.uploadSubTextures queue request coord st).1 = VirtualTexture.textureIndex st.1
  ∧ VirtualTexture.numPageTables (VirtualTexture.uploadSubTextures queue request coord st).1 = VirtualTexture.numPageTables st.1.
Proof.
  unfold VirtualTexture.uploadSubTextures. generalize (seq 1 (VirtualTexture.numPageTables st.1 - 1)).
  intros tbls. revert st. induction tbls as [|tbl tbls IH]; intros st; [done|].
  simpl. 
  match goal with |- context [foldl _ (foldl ?f st queue) tbls] =>
    set (st1 := foldl f st queue) end.
  assert (H1 : VirtualTexture.pageCacheMgr st1.1 = VirtualTexture.pageCacheMgr st.1
               ∧ VirtualTexture.textureIndex st1.1 = VirtualTexture.textureIndex st.1
               ∧ VirtualTexture.numPageTables st1.1 = VirtualTexture.numPageTables st.1).
  { unfold st1. clear. revert st. induction queue as [|q queue IHq]; intros st; [done|].
    simpl. destruct (decide _).
    - apply IHq.
    - destruct (IHq (VirtualTexture.uploadTo tbl {| VirtualTexture.pageData := PageRequestDataPacket.pageData q;
                                     VirtualTexture.cacheCoord := coord |} st)) as (A & B & C).
      destruct (uploadTo_cache tbl {| VirtualTexture.pageData := PageRequestDataPacket.pageData q;
                                      VirtualTexture.cacheCoord := coord |} st) as (A' & B' & C').
      repeat split; congruence. }
  destruct (IH st1) as (A & B & C). destruct H1 as (A' & B' & C').
  repeat split; congruence.
Qed.

Lemma processRequest_step queue request st :
  cache_inv (VirtualTexture.pageCacheMgr st.1) → request_ok st.1 request →
  ∃ st', VirtualTexture.processRequest queue request st = Some st'
         ∧ cache_inv (VirtualTexture.pageCacheMgr st'.1)
         ∧ same_geometry (PageCacheMgr.cachePageTree (VirtualTexture.pageCacheMgr st.1))
             (PageCacheMgr.cachePageTree (VirtualTexture.pageCacheMgr st'.1))
         ∧ VirtualTexture.textureIndex st'.1 = VirtualTexture.textureIndex st.1
         ∧ (∀ s, not_in_flight (tree_pool st.1) s → not_in_flight (tree_pool st'.1) s)
         ∧ (pageIdExtractTextureIndex (PageRequestDataPacket.pageId request)
              = VirtualTexture.textureIndex st.1 →
            PageRequestDataPacket.fileId request = 0 →
            not_in_flight (tree_pool st'.1)
              (slot_of (PageCacheMgr.cachePageTree (VirtualTexture.pageCacheMgr st.1))
                 (PageRequestDataPacket.pageId request))).
Proof.
  intros Hinv Hok. unfold VirtualTexture.processRequest.
  set (id := PageRequestDataPacket.pageId request) in *.
  destruct (decide (pageIdExtractTextureIndex id ≠ VirtualTexture.textureIndex st.1)) as [Ht|Ht].
  { exists st. split; [done|]. split; [done|]. split; [apply same_geometry_refl|].
    split; [done|]. split; [done|]. intros E. by rewrite E in Ht. }
  destruct (decide (PageRequestDataPacket.fileId request ≠ 0)) as [Hf|Hf].
  { exists st. split; [done|]. split; [done|]. split; [apply same_geometry_refl|].
    split; [done|]. split; [done|]. intros _ E. by rewrite E in Hf. }
  assert (Hr : inRange (PageCacheMgr.cachePageTree (VirtualTexture.pageCacheMgr st.1)) id).
  { apply Hok; [|]; by apply dec_stable. }
  pose proof (ci_tree _ Hinv) as Hwf.
  destruct (get_inRange _ id Hwf Hr) as (i & s & Hi & Hs & Hget).
  destruct (getId_slot_of _ id Hwf Hr) as [Hgs Hlt].
  assert (Hsl : slot_of (PageCacheMgr.cachePageTree (VirtualTexture.pageCacheMgr st.1)) id = i)
    by (unfold slot_of; by rewrite Hi).
  unfold PageCacheMgr.stillWantPage.
  rewrite (proj2 (validPageRequest_inRange _ id) Hr). rewrite Hget. cbn.
  destruct (decide (s = RequestedPageDummy)) as [->|Hns].
  - rewrite bool_decide_eq_true_2 by done. cbn.
    destruct (ci_chain _ Hinv) as [order Hch].
    destruct (accommodatePage_entry _ order id Hinv Hch Hr)
      as (l1 & e & ent & c' & _ & _ & Hent & Hacc & _ & Htp & Hge & _).
    destruct (accommodatePage_inv _ id Hinv Hr) as (r0 & c0 & Hacc0 & Hinv' & Hg).
    rewrite Hacc in Hacc0. injection Hacc0 as <- <-.
    rewrite Hacc. simpl. eexists. split; [reflexivity|].
    match goal with |- context [VirtualTexture.uploadSubTextures ?q ?r ?co ?s0] =>
      destruct (uploadSubTextures_cache q r co s0) as (A & B & C) end.
    rewrite A, B. simpl.
    split; [done|]. split; [done|]. split; [done|].
    split.
    + intros s'. unfold not_in_flight. rewrite Htp. intros Hs'.
      destruct (decide (s' = slot_of (PageCacheMgr.cachePageTree (VirtualTexture.pageCacheMgr st.1)) id))
        as [->|Hne].
      * rewrite list_lookup_insert_eq; [done|].
        by destruct (decide _); rewrite ?length_insert.
      * rewrite list_lookup_insert_ne by done.
        destruct (decide _); [|done].
        destruct (decide (s' = slot_of (PageCacheMgr.cachePageTree (VirtualTexture.pageCacheMgr st.1))
                                 (pageId ent))) as [->|Hne2].
        -- intros Hx. apply list_lookup_insert_Some in Hx as [(_ & ? & _)|(_ & Hx)]; done.
        -- by rewrite list_lookup_insert_ne.
    + intros _ _. unfold not_in_flight. rewrite Htp.
      rewrite list_lookup_insert_eq; [done|].
      by destruct (decide _); rewrite ?length_insert.
  - rewrite bool_decide_eq_false_2 by done. simpl.
    exists st. split; [done|]. split; [done|]. split; [apply same_geometry_refl|].
    split; [done|]. split; [done|].
    intros _ _. unfold not_in_flight. rewrite Hsl, Hs. congruence.
Qed.


Lemma request_ok_transport vt vt' request :
  same_geometry (PageCacheMgr.cachePageTree (VirtualTexture.pageCacheMgr vt))
    (PageCacheMgr.cachePageTree (VirtualTexture.pageCacheMgr vt')) →
  VirtualTexture.textureIndex vt' = VirtualTexture.textureIndex vt →
  request_ok vt request → request_ok vt' request.
Proof.
  intros Hg Ht Hok H1 H2. apply (same_geometry_inRange _ _ _ Hg).
  apply Hok; [by rewrite <- Ht|done].
Qed.

Lemma processRequests_run queue rs : ∀ st,
  cache_inv (VirtualTexture.pageCacheMgr st.1) → Forall (request_ok st.1) rs →
  ∃ st', VirtualTexture.processRequests queue rs st = Some st'
         ∧ cache_inv (VirtualTexture.pageCacheMgr st'.1)
         ∧ same_geometry (PageCacheMgr.cachePageTree (VirtualTexture.pageCacheMgr st.1))
             (PageCacheMgr.cachePageTree (VirtualTexture.pageCacheMgr st'.1))
         ∧ VirtualTexture.textureIndex st'.1 = VirtualTexture.textureIndex st.1
         ∧ (∀ s, not_in_flight (tree_pool st.1) s → not_in_flight (tree_pool st'.1) s).
Proof.
  induction rs as [|r rs IH]; intros st Hinv Hall.
  - exists st. split; [done|]. split; [done|]. split; [apply same_geometry_refl|done].
  - apply Forall_cons in Hall as [Hr Hall].
    destruct (processRequest_step queue r st Hinv Hr)
      as (st1 & Hstep & Hinv1 & Hg1 & Ht1 & Hm1 & _).
    destruct (IH st1 Hinv1) as (st' & Hrun & Hinv' & Hg' & Ht' & Hm').
    { eapply Forall_impl; [exact Hall|]. intros q. by apply request_ok_transport. }
    exists st'. cbn [VirtualTexture.processRequests]. rewrite Hstep. cbn [mbind option_bind].
    split; [done|]. split; [done|].
    split; [by eapply same_geometry_trans|]. split; [congruence|].
    intros s Hs. by apply Hm', Hm1.
Qed.




End FrameUpdate.

(** ** sanitizePageId *)

Section Sanitize.
Import PageCacheMgr.

(** C8, amended.  [sanitizePageId] clamps the mip level to
    [numLevels - 1], then x and y to the page extents of the clamped
    level minus one, and keeps the texture index; the result is in
    range.  For [(level, x, y) = (255, 255, 255)] the level becomes
    [numLevels - 1], and x (y) becomes the page count of that level
    minus one when that count is at most 256. *)
Theorem sanitizePageId_spec c id :
  tree_wf (cachePageTree c) →
  let tr := cachePageTree c in
  let level := Z.min (pageIdExtractMipLevel id) (CachePageTree.numLevels tr - 1) in
  let id' := sanitizePageId id c in
  pageIdExtractMipLevel id' = level
  ∧ pageIdExtractPageX id'
    = Z.min (pageIdExtractPageX id) (CachePageTree.getNumPagesX tr level - 1)
  ∧ pageIdExtractPageY id'
    = Z.min (pageIdExtractPageY id) (CachePageTree.getNumPagesY tr level - 1)
  ∧ pageIdExtractTextureIndex id' = pageIdExtractTextureIndex id
  ∧ inRange tr id'
  ∧ (pageIdExtractMipLevel id = 255 → pageIdExtractPageX id = 255 →
     pageIdExtractPageY id = 255 →
     let last := CachePageTree.numLevels tr - 1 in
     pageIdExtractMipLevel id' = last
     ∧ (CachePageTree.getNumPagesX tr last ≤ 256 →
        pageIdExtractPageX id' = CachePageTree.getNumPagesX tr last - 1)
     ∧ (CachePageTree.getNumPagesY tr last ≤ 256 →
        pageIdExtractPageY id' = CachePageTree.getNumPagesY tr last - 1)
     ∧ pageIdExtractTextureIndex id' = pageIdExtractTextureIndex id).
Proof.
  intros Hwf tr level id'.
  pose proof (tw_levels _ Hwf) as HL. unfold MaxVTMipLevels in HL.
  pose proof (pageIdExtractMipLevel_range id) as RL.
  pose proof (pageIdExtractPageX_range id) as RX.
  pose proof (pageIdExtractPageY_range id) as RY.
  pose proof (pageIdExtractTextureIndex_range id) as RT.
  fold tr in HL.
  assert (Hlev : 0 ≤ level < CachePageTree.numLevels tr) by (unfold level; lia).
  pose proof (tw_pagesX _ Hwf level Hlev) as HX.
  pose proof (tw_pagesY _ Hwf level Hlev) as HY.
  fold tr in HX, HY.
  assert (Hid' : id' = makePageId
                   (Z.min (pageIdExtractPageX id) (CachePageTree.getNumPagesX tr level - 1))
                   (Z.min (pageIdExtractPageY id) (CachePageTree.getNumPagesY tr level - 1))
                   level (pageIdExtractTextureIndex id)).
  { unfold id', sanitizePageId, CachePageTree.getNumLevels. cbv zeta. fold tr.
    assert (El : (if decide (pageIdExtractMipLevel id >= CachePageTree.numLevels tr)
                  then CachePageTree.numLevels tr - 1 else pageIdExtractMipLevel id)
                 = level).
    { unfold level. destruct (decide _); lia. }
    rewrite El. clear El. f_equal; case_decide; lia. }
  assert (E1 : pageIdExtractMipLevel id' = level).
  { rewrite Hid', extract_make_level. apply land_255_small. lia. }
  assert (E2 : pageIdExtractPageX id'
               = Z.min (pageIdExtractPageX id) (CachePageTree.getNumPagesX tr level - 1)).
  { rewrite Hid', extract_make_x. apply land_255_small. lia. }
  assert (E3 : pageIdExtractPageY id'
               = Z.min (pageIdExtractPageY id) (CachePageTree.getNumPagesY tr level - 1)).
  { rewrite Hid', extract_make_y. apply land_255_small. lia. }
  assert (E4 : pageIdExtractTextureIndex id' = pageIdExtractTextureIndex id).
  { rewrite Hid', extract_make_tex. apply land_255_small. lia. }
  split; [done|]. split; [done|]. split; [done|]. split; [done|].
  split.
  { unfold inRange. rewrite E1, E2, E3. fold tr. lia. }
  intros H1 H2 H3 last.
  assert (level = last) as Hll by (unfold level, last; lia).
  rewrite Hll in *. split; [done|].
  split; [intros Hle; rewrite E2; lia|].
  split; [intros Hle; rewrite E3; lia|done].
Qed.

(** The statement of C8 for the input [(255, 255, 255)] fails on a
    texture whose only level is 512 pages wide: x stays 255. *)
Lemma sanitizePageId_wide_level :
  (c ← make [512] [1] 1;
   Some (pageIdExtractPageX (sanitizePageId (makePageId 255 255 255 3) c),
         CachePageTree.getNumPagesX (cachePageTree c)
           (CachePageTree.numLevels (cachePageTree c) - 1) - 1))
  = Some (255, 511)
  ∧ 255 ≠ 511.
Proof. split; [by vm_compute|lia]. Qed.

End Sanitize.

(** ** The request counter of the page provider *)

Section Provider.
Import PageProvider.

Lemma foldli_dispatch_outstanding requestId tex : ∀ p k,
  outstandingRequests
    (foldl (λ a ix, dispatchOne requestId a ix.1 ix.2) p (imap (λ i, pair (k + i)%nat) tex))
  = outstandingRequests p + Z.of_nat (length tex).
Proof.
  induction tex as [|f tex IH]; intros p k; simpl; [lia|].
  rewrite (imap_ext _ (λ i, pair (S k + i)%nat)) by (intros; simpl; f_equal; lia).
  rewrite IH. simpl. lia.
Qed.

Lemma foldli_load_outstanding requestId tex : ∀ p k,
  outstandingRequests
    (foldl (λ a ix, loadOne requestId a ix.1 ix.2) p (imap (λ i, pair (k + i)%nat) tex))
  = outstandingRequests p.
Proof.
  induction tex as [|f tex IH]; intros p k; simpl; [lia|].
  rewrite (imap_ext _ (λ i, pair (S k + i)%nat)) by (intros; simpl; f_equal; lia).
  rewrite IH. simpl. lia.
Qed.

Lemma foldli_dispatch_count requestId tex p :
  outstandingRequests (foldli (dispatchOne requestId) p tex)
  = outstandingRequests p + Z.of_nat (length tex).
Proof. apply (foldli_dispatch_outstanding requestId tex p 0). Qed.

Lemma foldli_load_count requestId tex p :
  outstandingRequests (foldli (loadOne requestId) p tex) = outstandingRequests p.
Proof. apply (foldli_load_outstanding requestId tex p 0). Qed.

Lemma foldli_textures {A} (f : t → nat → A → t) (l : list (nat * A)) : ∀ p,
  (∀ p i a, registeredTextures (f p i a) = registeredTextures p) →
  registeredTextures (foldl (λ a ix, f a ix.1 ix.2) p l) = registeredTextures p.
Proof.
  induction l as [|x l IH]; intros p Hf; [done|]. simpl. rewrite IH by done. apply Hf.
Qed.

Lemma step_textures ev p p' :
  step ev p = Some p' → registeredTextures p' = registeredTextures p.
Proof.
  destruct ev as [requestId|k|]; simpl.
  - unfold addPageRequest. destruct (decide _); [by intros [= <-]|].
    destruct (negb _); simpl;
      [unfold runAsyncRequest|unfold runImmediateRequest];
      destruct (registeredTextures p !! _) as [tex|]; simpl; try done;
      intros [= <-]; unfold foldli; by apply foldli_textures.
  - unfold workerRuns. destruct (dispatched p !! k); simpl; [|done].
    destruct (decide _); [done|]. by intros [= <-].
  - by intros [= <-].
Qed.

Lemma step_outstanding_single_file ev p p' :
  Forall (λ tex, length tex = 1%nat) (registeredTextures p) →
  outstandingRequests p ≤ MaxOutstandingPageRequests →
  step ev p = Some p' →
  outstandingRequests p' ≤ MaxOutstandingPageRequests.
Proof.
  intros Hone Hle. destruct ev as [requestId|k|]; simpl.
  - unfold addPageRequest. destruct (decide _) as [|Hne]; [by intros [= <-]|].
    destruct (negb _); simpl;
      [unfold runAsyncRequest|unfold runImmediateRequest];
      destruct (registeredTextures p !! _) as [tex|] eqn:E; simpl; try done;
      intros [= <-].
    + rewrite foldli_dispatch_count.
      eapply Forall_lookup_1 in Hone; [|exact E]. simpl in Hone. rewrite Hone.
      unfold MaxOutstandingPageRequests in *. lia.
    + by rewrite foldli_load_count.
  - unfold workerRuns. destruct (dispatched p !! k); simpl; [|done].
    destruct (decide _); [done|]. intros [= <-]. simpl. lia.
  - by intros [= <-].
Qed.

(** X10.  Where the bound does hold: as long as every registered texture has
    a single page file, no run takes the counter above the limit. *)
Lemma outstanding_bound_single_file evs : ∀ p p',
  Forall (λ tex, length tex = 1%nat) (registeredTextures p) →
  outstandingRequests p ≤ MaxOutstandingPageRequests →
  run evs p = Some p' →
  outstandingRequests p' ≤ MaxOutstandingPageRequests.
Proof.
  induction evs as [|ev evs IH]; intros p p' Hone Hle; simpl.
  - by intros [= <-].
  - destruct (step ev p) as [p1|] eqn:Hstep; [|done]. simpl.
    apply IH.
    + by rewrite (step_textures _ _ _ Hstep).
    + by eapply step_outstanding_single_file.
Qed.

(** C4, the code at the failing input.  After 85 accepted requests the
    counter is 255; the 86th passes the test [outstandingRequests ==
    MaxOutstandingPageRequests], dispatches three loads and leaves the
    counter at 258; the request after that is not refused either. *)
Theorem outstandingRequests_exceeds_limit :
  (outstandingRequests <$> run (replicate 85 (AddPageRequest 0)) threeFileProvider)
  = Some 255
  ∧ (outstandingRequests <$> run (replicate 86 (AddPageRequest 0)) threeFileProvider)
    = Some 258
  ∧ (p ← run (replicate 86 (AddPageRequest 0)) threeFileProvider;
     r ← addPageRequest 0 p;
     Some (r.1, outstandingRequests r.2, length (dispatched r.2)))
    = Some (true, 261, 261%nat)
  ∧ MaxOutstandingPageRequests = 256.
Proof. repeat split; by vm_compute. Qed.

End Provider.

(** ** The VTFF page file *)

Section PageFile.

(** C7.  When [loadPage] meets an error - the invalid page id, a
    failing seek to the page's offset, or a read that does not return
    the whole page - it appends one diagnostic to the log, returns
    (it neither throws nor aborts) and hands back a zero-filled
    [pageData]. *)
Theorem loadPage_fails_soft (io : Stdio) (dbg : Z → Z → Z → list Z → list Z)
    (pf : VTFFPageFile.t io) (id : PageId) (pageData : list Z) (log : list LogEntry) :
  (id = InvalidPageId →
     VTFFPageFile.loadPage io dbg id pageData pf log
     = (log ++ [LogError "VTFFPageFile: Invalid page id!"],
        Returned (pf, replicate VTFFPageFile.pageDataBytes 0)))
  ∧ (∀ pageInfo f,
       id ≠ InvalidPageId →
       VTFFPageTree.get id (VTFFPageFile.pageTree io pf) = Some pageInfo →
       fseek io (VTFFPageFile.pageFile io pf)
         (VTFFPageFile.toLong (VTFF.fileOffset pageInfo)) = (false, f) →
       VTFFPageFile.loadPage io dbg id pageData pf log
       = (log ++ [LogError "VTFFPageFile: Failed to seek file offset! fseek() failed!"],
          Returned (VTFFPageFile.with_file io f pf,
                    replicate VTFFPageFile.pageDataBytes 0)))
  ∧ (∀ pageInfo f f',
       id ≠ InvalidPageId →
       VTFFPageTree.get id (VTFFPageFile.pageTree io pf) = Some pageInfo →
       fseek io (VTFFPageFile.pageFile io pf)
         (VTFFPageFile.toLong (VTFF.fileOffset pageInfo)) = (true, f) →
       fread io f VTFFPageFile.pageDataBytes = (None, f') →
       VTFFPageFile.loadPage io dbg id pageData pf log
       = (log ++ [LogWarning "VTFFPageFile: fread() failed to read the bytes of page file!"],
          Returned (VTFFPageFile.with_file io f' pf,
                    replicate VTFFPageFile.pageDataBytes 0)))
  ∧ Forall (λ b, b = 0) (replicate VTFFPageFile.pageDataBytes 0)
  ∧ length (replicate VTFFPageFile.pageDataBytes 0) = Z.to_nat 65536.
Proof.
  unfold VTFFPageFile.loadPage. split; [|split; [|split; [|split]]].
  - intros ->. by rewrite decide_True.
  - intros pageInfo f Hid Hget Hseek.
    rewrite decide_False by done. by rewrite Hget, Hseek.
  - intros pageInfo f f' Hid Hget Hseek Hread.
    rewrite decide_False by done. by rewrite Hget, Hseek, Hread.
  - apply Forall_replicate. done.
  - by rewrite length_replicate.
Qed.

(** C10.  [isPowerOfTwo 0] is [true], so the checks on a level header
    do not raise the power-of-2 error for a page count of zero; a file
    whose only level declares zero pages passes the whole validation
    pass and is stopped only by the assertion of the page tree
    constructor. *)
Theorem isPowerOfTwo_zero :
  VTFFPageFile.isPowerOfTwo 0 = true
  ∧ (∀ header levelInfo log,
       VTFF.numPagesX levelInfo = 0 →
       (VTFFPageFile.checkLevelInfo header levelInfo log).2
       ≠ Thrown "numPagesX is not a power-of-2!")
  ∧ (∀ header levelInfo log,
       VTFF.numPagesY levelInfo = 0 →
       (VTFFPageFile.checkLevelInfo header levelInfo log).2
       ≠ Thrown "numPagesY is not a power-of-2!")
  ∧ (∀ header levelInfo log,
       VTFF.numPagesX levelInfo = 0 → VTFF.numPagesY levelInfo = 0 →
       VTFF.width levelInfo `mod` VTFF.pageSize header = 0 →
       VTFF.height levelInfo `mod` VTFF.pageSize header = 0 →
       VTFFPageFile.checkLevelInfo header levelInfo log = (log, Returned tt))
  ∧ VTFFPageFile.make memStdio (zeroPagesFile, 0%nat) "zero.vt" false []
    = ([LogComment "VTFF file mipmap levels"], Aborted).
Proof.
  split; [reflexivity|].
  assert (Hx : ∀ header levelInfo log,
             VTFF.numPagesX levelInfo = 0 →
             VTFFPageFile.checkLevelInfo header levelInfo log
             = (when (negb (VTFFPageFile.isPowerOfTwo (VTFF.numPagesY levelInfo)))
                  (vtFatalError "numPagesY is not a power-of-2!");;
                when (bool_decide (VTFF.width levelInfo `mod` VTFF.pageSize header ≠ 0
                                   ∨ VTFF.height levelInfo `mod` VTFF.pageSize header ≠ 0))
                  (vtFatalError "Bad mipmap level layout")) log).
  { intros header li log HX. unfold VTFFPageFile.checkLevelInfo. by rewrite HX. }
  split; [|split; [|split]].
  - intros header li log HX. rewrite (Hx _ _ _ HX).
    unfold bindRun, when, vtFatalError, ret.
    destruct (negb _); simpl; [by intros [=]|].
    destruct (bool_decide _); simpl; by intros [=].
  - intros header li log HY. unfold VTFFPageFile.checkLevelInfo.
    rewrite HY. unfold bindRun, when, vtFatalError, ret.
    destruct (negb (VTFFPageFile.isPowerOfTwo (VTFF.numPagesX li))); simpl; [by intros [=]|].
    change (VTFFPageFile.isPowerOfTwo 0) with true. simpl.
    destruct (bool_decide _); simpl; by intros [=].
  - intros header li log HX HY Hw Hh. rewrite (Hx _ _ _ HX), HY.
    unfold bindRun, when, vtFatalError, ret.
    change (VTFFPageFile.isPowerOfTwo 0) with true. simpl.
    rewrite bool_decide_eq_false_2; [done|]. rewrite Hw, Hh. intros [?|?]; done.
  - by vm_compute.
Qed.

End PageFile.

(** ** The feedback analysis of the page resolver *)

Section Resolver.
Import PageResolver.

Lemma frequency_countPages_foldl (framePages : list PageId) (m : gmap Z Z) (id : PageId) :
  id ≠ InvalidPageId →
  frequency (foldl (λ pageMap p,
               if decide (p ≠ InvalidPageId)
               then <[p := frequency pageMap p + 1]> pageMap
               else pageMap) m framePages) id
  = frequency m id + occurrences id framePages.
Proof.
  intros Hid. revert m. induction framePages as [|p ps IH]; intros m.
  - unfold occurrences. simpl. lia.
  - simpl. rewrite IH. unfold occurrences. rewrite filter_cons.
    destruct (decide (p ≠ InvalidPageId)) as [Hp|Hp].
    + destruct (decide (p = id)) as [->|Hne].
      * unfold frequency at 1. rewrite lookup_insert_eq. simpl. lia.
      * unfold frequency at 1. rewrite lookup_insert_ne by done.
        fold (frequency m id). lia.
    + destruct (decide (p = id)) as [->|Hne]; [|lia].
      exfalso. apply Hp. done.
Qed.

Lemma dom_countPages_foldl (framePages : list PageId) (m : gmap Z Z) (id : PageId) :
  is_Some (foldl (λ pageMap p,
               if decide (p ≠ InvalidPageId)
               then <[p := frequency pageMap p + 1]> pageMap
               else pageMap) m framePages !! id)
  ↔ is_Some (m !! id) ∨ (id ≠ InvalidPageId ∧ id ∈ framePages).
Proof.
  revert m. induction framePages as [|p ps IH]; intros m.
  - simpl. split; [auto|]. intros [H|[_ H]]; [done|]. by apply elem_of_nil in H.
  - simpl. rewrite IH. destruct (decide (p ≠ InvalidPageId)) as [Hp|Hp].
    + destruct (decide (p = id)) as [->|Hne].
      * rewrite lookup_insert_eq. split; [|eauto]. intros _. right. split; [done|]. left.
      * rewrite lookup_insert_ne by done. rewrite elem_of_cons. split.
        -- intros [H|[Hid H]]; auto.
        -- intros [H|[Hid [->|H]]]; [auto|done|auto].
    + rewrite elem_of_cons. split.
      * intros [H|[Hid H]]; auto.
      * intros [H|[Hid [->|H]]]; [auto|done|auto].
Qed.

Lemma countPages_lookup (framePages : list PageId) (id : PageId) (n : Z) :
  countPages framePages !! id = Some n
  ↔ id ≠ InvalidPageId ∧ id ∈ framePages ∧ n = occurrences id framePages.
Proof.
  unfold countPages. split.
  - intros H.
    assert (is_Some (foldl (λ pageMap p,
               if decide (p ≠ InvalidPageId)
               then <[p := frequency pageMap p + 1]> pageMap
               else pageMap) ∅ framePages !! id)) as Hs by eauto.
    apply dom_countPages_foldl in Hs as [Hs|[Hid Hin]].
    { rewrite lookup_empty in Hs. by destruct Hs. }
    split; [done|]. split; [done|].
    pose proof (frequency_countPages_foldl framePages ∅ id Hid) as Hf.
    unfold frequency at 1 in Hf. rewrite H in Hf. simpl in Hf.
    unfold frequency in Hf. rewrite lookup_empty in Hf. simpl in Hf. lia.
  - intros (Hid & Hin & ->).
    assert (is_Some (foldl (λ pageMap p,
               if decide (p ≠ InvalidPageId)
               then <[p := frequency pageMap p + 1]> pageMap
               else pageMap) ∅ framePages !! id)) as [k Hk].
    { apply dom_countPages_foldl. auto. }
    rewrite Hk. f_equal.
    pose proof (frequency_countPages_foldl framePages ∅ id Hid) as Hf.
    unfold frequency at 1 in Hf. rewrite Hk in Hf. simpl in Hf.
    unfold frequency in Hf. rewrite lookup_empty in Hf. simpl in Hf. lia.
Qed.


Global Instance notAfter_total pageMap : Total (notAfter pageMap).
Proof.
  intros a b. unfold notAfter, pageBefore.
  destruct (decide (pageIdExtractMipLevel a > pageIdExtractMipLevel b)).
  { left. repeat case_decide; try done; lia. }
  destruct (decide (pageIdExtractMipLevel b > pageIdExtractMipLevel a)).
  { right. repeat case_decide; try done; lia. }
  destruct (decide (frequency pageMap b > frequency pageMap a)).
  - right. repeat case_decide; try done; try lia; try (apply bool_decide_eq_false; lia).
  - left. repeat case_decide; try done; try lia; try (apply bool_decide_eq_false; lia).
Qed.

Global Instance notAfter_trans pageMap : Transitive (notAfter pageMap).
Proof.
  intros a b c. unfold notAfter, pageBefore.
  repeat case_decide; try done; try lia;
    try (rewrite !bool_decide_eq_false; lia).
Qed.


Lemma keys_countPages (framePages : list PageId) :
  (map_to_list (countPages framePages)).*1 ≡ₚ uniquePages framePages.
Proof.
  apply NoDup_Permutation.
  - apply NoDup_fst_map_to_list.
  - apply NoDup_remove_dups.
  - intros id. unfold uniquePages. rewrite elem_of_remove_dups, list_elem_of_filter.
    rewrite list_elem_of_fmap. split.
    + intros [[k n] [-> H]]. apply elem_of_map_to_list in H.
      apply countPages_lookup in H. simpl. tauto.
    + intros [Hid Hin]. exists (id, occurrences id framePages). split; [done|].
      apply elem_of_map_to_list. apply countPages_lookup. done.
Qed.



Lemma processPageRequest_count requestId pageCache pageProvider k pageCache' pageProvider' :
  processPageRequest requestId pageCache pageProvider = Some (k, pageCache', pageProvider') →
  k = 0 ∨ k = 1.
Proof.
  unfold processPageRequest. intros E.
  destruct (PageCacheMgr.lookupPage requestId pageCache) as [[st c1]|]; [|done].
  cbn [mbind option_bind] in E.
  destruct st; try (injection E as <- _ _; lia).
  destruct (PageProvider.addPageRequest _ _) as [[added p1]|]; [|done].
  cbn [mbind option_bind] in E. destruct added.
  - injection E as <- _ _. lia.
  - destruct (PageCacheMgr.notifyDroppedRequest _ _); [|done].
    cbn [mbind option_bind] in E. injection E as <- _ _. lia.
Qed.

Lemma requestLoop_visiblePages pages n r prov n' r' prov' :
  requestLoop pages n r prov = Some (n', r', prov') →
  visiblePages r' = visiblePages r
  ∧ maxPageRequestsPerFrame r' = maxPageRequestsPerFrame r
  ∧ n <= n'.
Proof.
  revert n r prov. induction pages as [|id rest IH]; intros n r prov H.
  - simpl in H. injection H as <- <- <-. split; [done|]. split; [done|lia].
  - cbn [requestLoop] in H. case_decide.
    + destruct (registeredTextures r !! _) as [pc|]; [|done].
      cbn [mbind option_bind] in H.
      destruct (processPageRequest _ _ _) as [[[k pc'] prov1]|] eqn:E; [|done].
      cbn [mbind option_bind] in H.
      apply IH in H as (H1 & H2 & H3). simpl in H1, H2.
      split; [done|]. split; [done|].
      apply processPageRequest_count in E. lia.
    + injection H as <- <- <-. split; [done|]. split; [done|lia].
Qed.

End Resolver.

(** ** The indirection tables *)

Section Loops.
Context {A St : Type}.

Lemma forEach_app (xs ys : list A) (body : A → St → option St) (s : St) :
  forEach (xs ++ ys) body s = forEach xs body s ≫= forEach ys body.
Proof.
  revert s. induction xs as [|x xs IH]; intros s; simpl; [done|].
  destruct (body x s) as [s'|]; simpl; [apply IH|done].
Qed.

Lemma forEach_inv (I : St → Prop) (xs : list A) (body : A → St → option St) (s : St) :
  (∀ x s, x ∈ xs → I s → ∃ s', body x s = Some s' ∧ I s') →
  I s → ∃ s', forEach xs body s = Some s' ∧ I s'.
Proof.
  revert s. induction xs as [|x xs IH]; intros s Hb Hs; simpl; [eauto|].
  destruct (Hb x s) as (s1 & -> & H1); [left|done|]. simpl.
  apply IH; [|done]. intros x' s' Hx'. apply Hb. by right.
Qed.
End Loops.

Lemma forEach_flatten {A B St : Type} (ys : list A) (xs : list B)
    (body : A → B → St → option St) (s : St) :
  forEach ys (λ y, forEach xs (body y)) s
  = forEach (y ← ys; (λ x, (y, x)) <$> xs) (λ p, body p.1 p.2) s.
Proof.
  revert s. induction ys as [|y ys IH]; intros s; [done|].
  cbn [forEach mbind list_bind]. change (foldr _ _ _) with
    (((λ x, (y, x)) <$> xs) ++ (ys ≫= λ y, (λ x, (y, x)) <$> xs)).
  rewrite forEach_app.
  assert (∀ s, forEach ((λ x, (y, x)) <$> xs) (λ p, body p.1 p.2) s
               = forEach xs (body y) s) as ->.
  { clear. induction xs as [|x xs IH]; intros s; simpl; [done|].
    destruct (body y x s); simpl; [apply IH|done]. }
  destruct (forEach xs (body y) s); simpl; [apply IH|done].
Qed.

Section IndirectionFacts.
Context {E : Type}.
Import PageIndirectionTable.
Implicit Types tb : PageIndirectionTable.t E.

Lemma same_shape_refl tb : same_shape tb tb.
Proof. by repeat split. Qed.

Lemma same_shape_trans tb1 tb2 tb3 :
  same_shape tb1 tb2 → same_shape tb2 tb3 → same_shape tb1 tb3.
Proof.
  intros (?&?&?&?) (?&?&?&?). unfold same_shape. split; [congruence|].
  split; [congruence|]. split; congruence.
Qed.

Lemma same_shape_sym tb1 tb2 : same_shape tb1 tb2 → same_shape tb2 tb1.
Proof. intros (?&?&?&?). by repeat split. Qed.

Lemma getNumPagesX_shape tb tb' l :
  same_shape tb tb' → getNumPagesX tb' l = getNumPagesX tb l.
Proof. intros (?&H&?&?). unfold getNumPagesX. by rewrite H. Qed.

Lemma getNumPagesY_shape tb tb' l :
  same_shape tb tb' → getNumPagesY tb' l = getNumPagesY tb l.
Proof. intros (?&?&H&?). unfold getNumPagesY. by rewrite H. Qed.

Lemma entriesBefore_shape tb tb' n :
  same_shape tb tb' → entriesBefore tb' n = entriesBefore tb n.
Proof.
  intros H. induction n as [|n IH]; [done|]. simpl.
  rewrite IH, (getNumPagesX_shape tb tb'), (getNumPagesY_shape tb tb') by done. done.
Qed.

Lemma poolIndex_shape tb tb' l i :
  same_shape tb tb' → poolIndex tb' l i = poolIndex tb l i.
Proof. intros H. unfold poolIndex. by rewrite (entriesBefore_shape tb tb'). Qed.

Lemma pageIndex_shape tb tb' l e :
  same_shape tb tb' → pageIndex tb' l e = pageIndex tb l e.
Proof. intros H. unfold pageIndex. by rewrite (getNumPagesX_shape tb tb'). Qed.

Lemma levels_wf_shape tb tb' : same_shape tb tb' → levels_wf tb → levels_wf tb'.
Proof.
  intros H Hwf l Hl. rewrite (getNumPagesX_shape tb tb'), (getNumPagesY_shape tb tb') by done.
  apply Hwf. destruct H as (-> & _). done.
Qed.

Lemma overwrites_shape (pages : list CacheEntry) tb tb' l i :
  same_shape tb tb' → overwrites pages tb' l i ↔ overwrites pages tb l i.
Proof.
  intros H. unfold overwrites. split.
  - intros (p & e & ? & ? & ? & ? & Hi). exists p, e.
    rewrite (pageIndex_shape tb tb') in Hi by done. done.
  - intros (p & e & ? & ? & ? & ? & Hi). exists p, e.
    rewrite (pageIndex_shape tb tb') by done. done.
Qed.

Lemma entriesBefore_le tb (a b : nat) :
  levels_wf tb → (a ≤ b)%nat → Z.of_nat b ≤ numLevels tb →
  entriesBefore tb a ≤ entriesBefore tb b.
Proof.
  intros Hwf. induction b as [|b IH]; intros Hab Hb.
  - replace a with 0%nat by lia. done.
  - destruct (decide (a = S b)) as [->|Hne]; [done|].
    cbn [entriesBefore]. destruct (Hwf (Z.of_nat b)) as [? ?]; [lia|].
    assert (entriesBefore tb a ≤ entriesBefore tb b) by (apply IH; lia). nia.
Qed.

Lemma entriesBefore_nonneg tb (a : nat) :
  levels_wf tb → Z.of_nat a ≤ numLevels tb → 0 ≤ entriesBefore tb a.
Proof. intros Hwf Ha. apply (entriesBefore_le tb 0 a Hwf); lia. Qed.

Lemma entriesBefore_next tb (l : Z) :
  0 ≤ l →
  entriesBefore tb (Z.to_nat (l + 1))
  = entriesBefore tb (Z.to_nat l) + getNumPagesX tb l * getNumPagesY tb l.
Proof.
  intros Hl. replace (Z.to_nat (l + 1)) with (S (Z.to_nat l)) by lia.
  cbn [entriesBefore]. rewrite Z2Nat.id by done. done.
Qed.

Lemma readEntry_poolAt tb l i : readEntry tb l i = poolAt tb (poolIndex tb l i).
Proof. done. Qed.

Lemma writeEntry_spec tb l idx e tb' :
  writeEntry tb l idx e = Some tb' →
  same_shape tb tb'
  ∧ poolAt tb' (poolIndex tb l idx) = Some e
  ∧ ∀ i, i ≠ poolIndex tb l idx → poolAt tb' i = poolAt tb i.
Proof.
  unfold writeEntry. case_decide as Hi; [|done].
  destruct (tableEntryPool tb !! _) as [old|] eqn:Hold; [|done].
  cbn [mbind option_bind]. intros [= <-].
  split. { unfold same_shape, with_pool. simpl. by rewrite length_insert. }
  split.
  - unfold poolAt, with_pool. simpl. rewrite decide_True by done.
    apply list_lookup_insert_eq. by eapply lookup_lt_Some.
  - intros i Hne. unfold poolAt, with_pool. simpl. case_decide; [|done].
    apply list_lookup_insert_ne. lia.
Qed.

Lemma writeEntry_is_Some tb l idx e :
  0 ≤ poolIndex tb l idx < Z.of_nat (length (tableEntryPool tb)) →
  is_Some (writeEntry tb l idx e).
Proof.
  intros H. unfold writeEntry. rewrite decide_True by lia.
  destruct (lookup_lt_is_Some_2 (tableEntryPool tb) (Z.to_nat (poolIndex tb l idx)))
    as [old ->]; [lia|]. simpl. eauto.
Qed.

Lemma poolAt_is_Some tb i :
  0 ≤ i < Z.of_nat (length (tableEntryPool tb)) → is_Some (poolAt tb i).
Proof.
  intros H. unfold poolAt. rewrite decide_True by lia.
  apply lookup_lt_is_Some_2. lia.
Qed.

Lemma poolAt_shape_is_Some tb tb' i :
  same_shape tb tb' → is_Some (poolAt tb i) → is_Some (poolAt tb' i).
Proof.
  intros (_&_&_&Hlen). unfold poolAt. case_decide; [|done].
  rewrite !lookup_lt_is_Some. lia.
Qed.

Section Update.
Variable entryFor : Z → CacheEntry → E.

Lemma writePage_spec l cacheEntry tb tb' :
  writePage entryFor l cacheEntry tb = Some tb' →
  same_shape tb tb'
  ∧ ∀ i, ¬ (pageId cacheEntry ≠ InvalidPageId
            ∧ pageIdExtractMipLevel (pageId cacheEntry) = l
            ∧ i = poolIndex tb l (pageIndex tb l cacheEntry)) →
         poolAt tb' i = poolAt tb i.
Proof.
  unfold writePage. case_decide as Hskip.
  { intros [= <-]. split; [apply same_shape_refl|done]. }
  case_decide; [|done]. case_decide; [|done]. intros Hw.
  apply writeEntry_spec in Hw as (Hs & _ & Hframe). split; [done|].
  intros i Hi. apply Hframe. intros ->. apply Hi.
  split; [tauto|]. split; [|done].
  destruct (decide (pageIdExtractMipLevel (pageId cacheEntry) = l)); [done|tauto].
Qed.

Lemma writePages_frame l (pages : list CacheEntry) (ps : list nat) tb tb' :
  forEach ps (λ p tb, cacheEntry ← pages !! p; writePage entryFor l cacheEntry tb) tb
    = Some tb' →
  same_shape tb tb'
  ∧ ∀ i, (∀ p cacheEntry, p ∈ ps → pages !! p = Some cacheEntry →
            pageId cacheEntry ≠ InvalidPageId →
            pageIdExtractMipLevel (pageId cacheEntry) = l →
            i ≠ poolIndex tb l (pageIndex tb l cacheEntry)) →
         poolAt tb' i = poolAt tb i.
Proof.
  revert tb. induction ps as [|p ps IH]; intros tb H.
  { simpl in H. injection H as <-. split; [apply same_shape_refl|done]. }
  cbn [forEach] in H.
  destruct (pages !! p) as [e|] eqn:Hp; [|done]. cbn [mbind option_bind] in H.
  destruct (writePage entryFor l e tb) as [tb1|] eqn:Hw; [|done].
  cbn [mbind option_bind] in H.
  apply writePage_spec in Hw as [Hs1 Hf1]. apply IH in H as [Hs2 Hf2].
  split; [by eapply same_shape_trans|].
  intros i Hi. rewrite Hf2, Hf1; [done| |].
  - intros (? & ? & ->). eapply (Hi p e); [left|done..].
  - intros p' e' Hp' He' ? ?.
    rewrite (poolIndex_shape tb tb1), (pageIndex_shape tb tb1) by done.
    apply (Hi p' e'); [by right|done..].
Qed.

Lemma writePages_spec l (pages : list CacheEntry) tb tb' :
  writePages entryFor l pages tb = Some tb' →
  same_shape tb tb'
  ∧ ∀ idx, ¬ overwrites pages tb l idx →
           poolAt tb' (poolIndex tb l idx) = poolAt tb (poolIndex tb l idx).
Proof.
  unfold writePages. intros H. apply writePages_frame in H as [Hs Hf].
  split; [done|]. intros idx Hno. apply Hf.
  intros p e Hp He Hid Hl Heq. apply Hno. exists p, e.
  apply elem_of_seq in Hp. split; [lia|]. split; [done|]. split; [done|].
  split; [done|]. unfold poolIndex in Heq. lia.
Qed.

Lemma writePages_above l (pages : list CacheEntry) tb tb' :
  levels_wf tb → 0 ≤ l < numLevels tb →
  writePages entryFor l pages tb = Some tb' →
  ∀ i, poolIndex tb (l + 1) 0 ≤ i → poolAt tb' i = poolAt tb i.
Proof.
  intros Hwf Hl H. unfold writePages in H.
  (* every write is asserted to lie inside level [l] *)
  assert (∀ (ps : list nat) tb1 tb2, same_shape tb tb1 →
    forEach ps (λ p tb, cacheEntry ← pages !! p; writePage entryFor l cacheEntry tb) tb1
      = Some tb2 →
    same_shape tb tb2
    ∧ ∀ i, poolIndex tb (l + 1) 0 ≤ i → poolAt tb2 i = poolAt tb1 i) as Hgen.
  { clear H tb'. induction ps as [|p ps IH]; intros tb1 tb2 Hs H.
    { simpl in H. injection H as <-. done. }
    cbn [forEach] in H.
    destruct (pages !! p) as [e|] eqn:Hp; [|done]. cbn [mbind option_bind] in H.
    destruct (writePage entryFor l e tb1) as [tb3|] eqn:Hw; [|done].
    cbn [mbind option_bind] in H.
    assert (same_shape tb1 tb3 ∧ ∀ i, poolIndex tb (l + 1) 0 ≤ i →
              poolAt tb3 i = poolAt tb1 i) as [Hs3 Hf3].
    { unfold writePage in Hw. case_decide.
      { injection Hw as <-. split; [apply same_shape_refl|done]. }
      case_decide; [|done]. case_decide as Hlt; [|done].
      apply writeEntry_spec in Hw as (? & _ & Hf). split; [done|].
      intros i Hi. apply Hf.
      rewrite (poolIndex_shape tb tb1) by done.
      rewrite !(getNumPagesX_shape tb tb1), ?(getNumPagesY_shape tb tb1) in * by done.
      unfold poolIndex in *. rewrite entriesBefore_next in Hi by lia. lia. }
    apply IH in H as [Hs2 Hf2]; [|by eapply same_shape_trans].
    split; [done|]. intros i Hi. rewrite Hf2, Hf3 by done. done. }
  intros i Hi. eapply Hgen; [apply same_shape_refl|exact H|done].
Qed.

(** A loop that copies pool entries from positions at or above [B]
    to positions below [B]. *)
Lemma copy_loop {A : Type} (d s : A → Z) (B : Z) (body : A → t E → option (t E))
    (tb0 : t E) (xs : list A) :
  (∀ a tb tb', a ∈ xs → same_shape tb0 tb → body a tb = Some tb' →
     same_shape tb tb'
     ∧ ∃ v, poolAt tb (s a) = Some v ∧ poolAt tb' (d a) = Some v
            ∧ ∀ i, i ≠ d a → poolAt tb' i = poolAt tb i) →
  (∀ a, a ∈ xs → d a < B ≤ s a) →
  (∀ a a', a ∈ xs → a' ∈ xs → d a = d a' → s a = s a') →
  ∀ tb tb', same_shape tb0 tb → forEach xs body tb = Some tb' →
    same_shape tb tb'
    ∧ (∀ a, a ∈ xs → ∃ v, poolAt tb' (d a) = Some v ∧ poolAt tb (s a) = Some v)
    ∧ (∀ i, (∀ a, a ∈ xs → i ≠ d a) → poolAt tb' i = poolAt tb i).
Proof.
  induction xs as [|x xs IH]; intros Hbody Hsep Hdet tb tb' Hs0 H.
  { simpl in H. injection H as <-. split; [apply same_shape_refl|].
    split; [|done]. intros a Ha. by apply elem_of_nil in Ha. }
  cbn [forEach] in H. destruct (body x tb) as [tb1|] eqn:Hb; [|done].
  cbn [mbind option_bind] in H.
  destruct (Hbody x tb tb1) as (Hs1 & v & Hsrc & Hdst & Hfr); [left|done|done|].
  destruct (IH) with (tb := tb1) (tb' := tb') as (Hs2 & Hcopied & Hframe).
  { intros a t1 t2 Ha. apply Hbody. by right. }
  { intros a Ha. apply Hsep. by right. }
  { intros a a' Ha Ha'. apply Hdet; by right. }
  { by eapply same_shape_trans. }
  { done. }
  assert (∀ a, a ∈ xs → poolAt tb1 (s a) = poolAt tb (s a)) as Hsame.
  { intros a Ha. apply Hfr.
    pose proof (Hsep a ltac:(by right)). pose proof (Hsep x ltac:(left)). lia. }
  split; [by eapply same_shape_trans|]. split.
  - intros a Ha.
    destruct (decide (Exists (λ a', d a' = d a) xs)) as [Hex|Hno].
    + apply Exists_exists in Hex as (a' & Ha' & Hd).
      destruct (Hcopied a' Ha') as (w & Hw1 & Hw2).
      exists w. rewrite <- Hd. split; [done|].
      rewrite <- (Hdet a' a); [by rewrite <- Hsame|by right|done|done].
    + apply elem_of_cons in Ha as [->|Ha].
      * exists v. split; [|done]. rewrite Hframe; [done|].
        intros a' Ha' Heq. apply Hno. apply Exists_exists. by exists a'.
      * exfalso. apply Hno. apply Exists_exists. by exists a.
  - intros i Hi. rewrite Hframe, Hfr; [done| |].
    + apply Hi. left.
    + intros a Ha. apply Hi. by right.
Qed.

Lemma upsample_spec l tb tb' :
  levels_wf tb → 0 < l < numLevels tb →
  upsample l tb = Some tb' →
  same_shape tb tb'
  ∧ (∀ x y, 0 ≤ x < getNumPagesX tb (l - 1) → 0 ≤ y < getNumPagesY tb (l - 1) →
       ∃ v, poolAt tb' (poolIndex tb (l - 1) (x + y * getNumPagesX tb (l - 1))) = Some v
            ∧ poolAt tb (poolIndex tb l (x / 2 + y / 2 * getNumPagesX tb l)) = Some v)
  ∧ (∀ i, poolIndex tb l 0 ≤ i → poolAt tb' i = poolAt tb i).
Proof.
  intros Hwf Hl H. unfold upsample in H. rewrite forEach_flatten in H.
  set (srcW := getNumPagesX tb l) in *.
  set (destW := getNumPagesX tb (l - 1)) in *.
  set (destH := getNumPagesY tb (l - 1)) in *.
  destruct (Hwf l) as [HsW HsH]; [lia|]. fold srcW in HsW.
  destruct (Hwf (l - 1)) as [HdW HdH]; [lia|]. fold destW in HdW. fold destH in HdH.
  assert (poolIndex tb l 0 = poolIndex tb (l - 1) 0 + destW * destH) as Hoff.
  { unfold poolIndex. replace l with (l - 1 + 1) at 1 by lia.
    rewrite entriesBefore_next by lia. subst destW destH. lia. }
  pose proof (copy_loop
    (λ p : Z * Z, poolIndex tb (l - 1) (p.2 + p.1 * destW))
    (λ p : Z * Z, poolIndex tb l (Z.shiftr p.2 1 + Z.shiftr p.1 1 * srcW))
    (poolIndex tb l 0)
    (λ p tb, entry ← readEntry tb l (Z.shiftr p.2 1 + Z.shiftr p.1 1 * srcW);
             writeEntry tb (l - 1) (p.2 + p.1 * destW) entry)
    tb (y ← seqZ 0 destH; (λ x, (y, x)) <$> seqZ 0 destW)) as Hloop.
  assert (∀ p : Z * Z, p ∈ (y ← seqZ 0 destH; (λ x, (y, x)) <$> seqZ 0 destW)
            ↔ 0 ≤ p.1 < destH ∧ 0 ≤ p.2 < destW) as Hmem.
  { intros [y x]. rewrite list_elem_of_bind. simpl. split.
    - intros (y' & Hx & Hy). apply list_elem_of_fmap in Hx as (x' & [= -> ->] & Hx).
      apply elem_of_seqZ in Hx, Hy. lia.
    - intros [Hy Hx]. exists y. split.
      + apply list_elem_of_fmap. exists x. split; [done|]. apply elem_of_seqZ. lia.
      + apply elem_of_seqZ. lia. }
  destruct Hloop with (tb := tb) (tb' := tb') as (Hs & Hcopied & Hframe).
  - intros [y x] t1 t2 Hp Hs1 Hb. simpl in Hb |- *.
    destruct (readEntry t1 l _) as [v|] eqn:Hr; [|done]. cbn [mbind option_bind] in Hb.
    apply writeEntry_spec in Hb as (Hs2 & Hw & Hfr).
    rewrite readEntry_poolAt in Hr.
    rewrite (poolIndex_shape tb t1) in Hr, Hw, Hfr by done.
    split; [done|]. exists v. done.
  - intros [y x] Hp. apply Hmem in Hp. simpl in Hp |- *.
    rewrite !Z.shiftr_div_pow2 by lia. change (2 ^ 1) with 2.
    assert (0 ≤ x / 2) by (apply Z.div_pos; lia).
    assert (0 ≤ y / 2) by (apply Z.div_pos; lia).
    unfold poolIndex in *. nia.
  - intros [y x] [y' x'] Hp Hp' Heq. apply Hmem in Hp, Hp'. simpl in *.
    unfold poolIndex in Heq.
    assert (y = y') by nia. assert (x = x') by nia. by subst.
  - apply same_shape_refl.
  - exact H.
  - split; [done|]. split.
    + intros x y Hx Hy. destruct (Hcopied (y, x)) as (v & Hv1 & Hv2).
      { apply Hmem. simpl. done. }
      simpl in Hv1, Hv2. rewrite !Z.shiftr_div_pow2 in Hv2 by lia.
      change (2 ^ 1) with 2 in Hv2. eauto.
    + intros i Hi. apply Hframe. intros [y x] Hp. apply Hmem in Hp. simpl in *.
      unfold poolIndex in *. nia.
Qed.

Lemma updateLevel_spec (pages : list CacheEntry) l tb tb' :
  levels_wf tb → 0 ≤ l < numLevels tb →
  updateLevel entryFor pages l tb = Some tb' →
  same_shape tb tb'
  ∧ (∀ i, poolIndex tb (l + 1) 0 ≤ i → poolAt tb' i = poolAt tb i)
  ∧ (∀ idx, 0 ≤ idx → ¬ overwrites pages tb l idx →
       poolAt tb' (poolIndex tb l idx) = poolAt tb (poolIndex tb l idx))
  ∧ (l ≠ 0 →
     ∀ x y, 0 ≤ x < getNumPagesX tb (l - 1) → 0 ≤ y < getNumPagesY tb (l - 1) →
       ∃ v, poolAt tb' (poolIndex tb (l - 1) (x + y * getNumPagesX tb (l - 1))) = Some v
            ∧ poolAt tb' (poolIndex tb l (x / 2 + y / 2 * getNumPagesX tb l)) = Some v).
Proof.
  intros Hwf Hl H. unfold updateLevel in H.
  destruct (writePages entryFor l pages tb) as [tb1|] eqn:Hw; [|done].
  cbn [mbind option_bind] in H.
  pose proof (writePages_above _ _ _ _ Hwf Hl Hw) as Habove.
  apply writePages_spec in Hw as [Hs1 Hkeep].
  assert (poolIndex tb l 0 ≤ poolIndex tb (l + 1) 0) as Hmono.
  { unfold poolIndex. rewrite !Z.add_0_r. apply entriesBefore_le; [done|lia|lia]. }
  case_decide as Hl0.
  - apply upsample_spec in H as (Hs2 & Hup & Hfr);
      [|by eapply levels_wf_shape|destruct Hs1 as [<- _]; lia].
    rewrite !(getNumPagesX_shape tb tb1), !(getNumPagesY_shape tb tb1) in Hup by done.
    setoid_rewrite (poolIndex_shape tb tb1) in Hup; [|done..].
    rewrite (poolIndex_shape tb tb1) in Hfr by done.
    split; [by eapply same_shape_trans|]. split.
    { intros i Hi. rewrite Hfr, Habove by lia. done. }
    split.
    { intros idx Hidx Hno. rewrite Hfr, Hkeep; [done|done|].
      unfold poolIndex. lia. }
    intros _ x y Hx Hy. destruct (Hup x y Hx Hy) as (v & Hv1 & Hv2).
    exists v. split; [done|]. rewrite Hfr; [done|].
    destruct (Hwf l) as [? ?]; [lia|].
    assert (0 ≤ x / 2) by (apply Z.div_pos; lia).
    assert (0 ≤ y / 2) by (apply Z.div_pos; lia).
    unfold poolIndex. nia.
  - injection H as <-. split; [done|]. split; [done|]. split; [|done].
    intros idx _ Hno. by apply Hkeep.
Qed.

Lemma updateLevels_run (pages : list CacheEntry) (n : nat) tb tb' :
  levels_wf tb → Z.of_nat n ≤ numLevels tb →
  forEach (reverse (seqZ 0 (Z.of_nat n))) (updateLevel entryFor pages) tb = Some tb' →
  (Z.of_nat n < numLevels tb → (0 < n)%nat →
   ∀ x y, 0 ≤ x < getNumPagesX tb (Z.of_nat n - 1) →
          0 ≤ y < getNumPagesY tb (Z.of_nat n - 1) →
     ∃ v, poolAt tb (poolIndex tb (Z.of_nat n - 1)
                       (x + y * getNumPagesX tb (Z.of_nat n - 1))) = Some v
          ∧ poolAt tb (poolIndex tb (Z.of_nat n)
                         (x / 2 + y / 2 * getNumPagesX tb (Z.of_nat n))) = Some v) →
  same_shape tb tb'
  ∧ (∀ i, poolIndex tb (Z.of_nat n) 0 ≤ i → poolAt tb' i = poolAt tb i)
  ∧ (∀ L x y, 0 < L ≤ Z.of_nat n → L < numLevels tb →
       0 ≤ x < getNumPagesX tb (L - 1) → 0 ≤ y < getNumPagesY tb (L - 1) →
       ¬ overwrites pages tb (L - 1) (x + y * getNumPagesX tb (L - 1)) →
       ∃ v, poolAt tb' (poolIndex tb (L - 1) (x + y * getNumPagesX tb (L - 1))) = Some v
            ∧ poolAt tb' (poolIndex tb L (x / 2 + y / 2 * getNumPagesX tb L)) = Some v).
Proof.
  revert tb. induction n as [|k IH]; intros tb Hwf Hn H Hpre.
  { simpl in H. injection H as <-. split; [apply same_shape_refl|].
    split; [done|]. intros; lia. }
  rewrite seqZ_S, reverse_snoc in H. cbn [forEach] in H. rewrite Z.add_0_l in H.
  destruct (updateLevel entryFor pages (Z.of_nat k) tb) as [tb1|] eqn:Hstep; [|done].
  cbn [mbind option_bind] in H.
  apply updateLevel_spec in Hstep as (Hs1 & Hab1 & Hkeep1 & Hup1); [|done|lia].
  apply IH in H as (Hs2 & Hab2 & Hprop2);
    [|by eapply levels_wf_shape|destruct Hs1 as [<- _]; lia|].
  2:{ intros _ Hk x y Hx Hy.
      rewrite !(getNumPagesX_shape tb tb1), !(getNumPagesY_shape tb tb1) in * by done.
      rewrite !(poolIndex_shape tb tb1) by done.
      apply Hup1; [lia|done|done]. }
  rewrite (poolIndex_shape tb tb1) in Hab2 by done.
  assert (poolIndex tb (Z.of_nat k) 0 ≤ poolIndex tb (Z.of_nat k + 1) 0) as Hmono.
  { unfold poolIndex. rewrite !Z.add_0_r. apply entriesBefore_le; [done|lia|lia]. }
  split; [by eapply same_shape_trans|]. split.
  { intros i Hi. replace (Z.of_nat (S k)) with (Z.of_nat k + 1) in Hi by lia.
    rewrite Hab2, Hab1 by lia. done. }
  intros L x y HL HLn Hx Hy Hno.
  destruct (decide (L = Z.of_nat (S k))) as [->|HneL].
  - replace (Z.of_nat (S k) - 1) with (Z.of_nat k) in * by lia.
    destruct Hpre with (x := x) (y := y) as (v & Hv1 & Hv2); [done|lia|done|done|].
    exists v.
    destruct (Hwf (Z.of_nat k)) as [? ?]; [lia|].
    destruct (Hwf (Z.of_nat (S k))) as [? ?]; [lia|].
    assert (0 ≤ x / 2) by (apply Z.div_pos; lia).
    assert (0 ≤ y / 2) by (apply Z.div_pos; lia).
    split.
    + rewrite Hab2 by (unfold poolIndex; nia).
      rewrite Hkeep1; [done|nia|done].
    + replace (Z.of_nat (S k)) with (Z.of_nat k + 1) in * by lia.
      rewrite Hab2, Hab1; [done| |]; unfold poolIndex in *; nia.
  - destruct (Hprop2 L x y) as (v & Hv1 & Hv2); [lia|destruct Hs1 as [<- _]; lia|..].
    + by rewrite (getNumPagesX_shape tb tb1).
    + by rewrite (getNumPagesY_shape tb tb1).
    + rewrite (overwrites_shape pages tb tb1), (getNumPagesX_shape tb tb1) by done. done.
    + rewrite !(getNumPagesX_shape tb tb1), !(poolIndex_shape tb tb1) in * by done.
      eauto.
Qed.

Lemma updateLevels_upsampled (pages : list CacheEntry) tb tb' :
  levels_wf tb →
  updateLevels entryFor pages tb = Some tb' →
  same_shape tb tb' ∧ upsampled pages tb'.
Proof.
  intros Hwf H. unfold updateLevels in H.
  destruct (decide (0 ≤ numLevels tb)) as [Hn|Hn].
  - rewrite <- (Z2Nat.id (numLevels tb)) in H by done.
    apply updateLevels_run in H as (Hs & _ & Hprop); [|done|lia|lia].
    split; [done|]. intros L x y HL Hx Hy Hno.
    rewrite !(getNumPagesX_shape tb tb'), ?(getNumPagesY_shape tb tb') in * by done.
    rewrite !readEntry_poolAt, !(poolIndex_shape tb tb') by done.
    apply Hprop; [destruct Hs as [-> _]; lia|destruct Hs as [-> _]; lia|done|done|].
    by rewrite <- (overwrites_shape pages tb tb').
  - rewrite seqZ_nil in H by lia. simpl in H. injection H as <-.
    split; [apply same_shape_refl|]. intros L; lia.
Qed.

(** The loops return on a table that is ready. *)

Lemma writePages_total l (pages : list CacheEntry) tb :
  update_ready pages tb → 0 ≤ l < numLevels tb →
  ∀ tb1, same_shape tb tb1 →
    ∃ tb2, writePages entryFor l pages tb1 = Some tb2 ∧ same_shape tb tb2.
Proof.
  intros Hr Hl tb1 Hs1. unfold writePages.
  apply (forEach_inv (same_shape tb)); [|done].
  intros p t1 Hp Ht1. apply elem_of_seq in Hp.
  destruct (lookup_lt_is_Some_2 pages p) as [e He].
  { pose proof (ur_pages _ _ Hr). lia. }
  rewrite He. cbn [mbind option_bind]. unfold writePage.
  case_decide as Hskip; [eauto|].
  assert (pageIdExtractMipLevel (pageId e) = l) as Hlev.
  { destruct (decide (pageIdExtractMipLevel (pageId e) = l)); [done|tauto]. }
  assert (pageId e ≠ InvalidPageId) as Hid by tauto.
  pose proof (ur_entries _ _ Hr p e He Hid) as Hin. rewrite Hlev in Hin.
  specialize (Hin ltac:(lia)).
  rewrite (getNumPagesX_shape tb t1), (getNumPagesY_shape tb t1) by done.
  destruct (ur_levels _ _ Hr l Hl) as [HW HH].
  pose proof (pageIdExtractPageX_range (pageId e)).
  pose proof (pageIdExtractPageY_range (pageId e)).
  unfold pageIndex in Hin.
  rewrite decide_True by nia. rewrite decide_True by done.
  destruct (writeEntry_is_Some t1 l
    (pageIdExtractPageX (pageId e) + pageIdExtractPageY (pageId e) * getNumPagesX tb l)
    (entryFor l e)) as [t2 Ht2].
  { rewrite (poolIndex_shape tb t1) by done.
    destruct Ht1 as (_&_&_&<-). rewrite (ur_pool _ _ Hr).
    pose proof (entriesBefore_nonneg tb (Z.to_nat l) (ur_levels _ _ Hr) ltac:(lia)).
    pose proof (entriesBefore_le tb (Z.to_nat (l + 1)) (Z.to_nat (numLevels tb))
                  (ur_levels _ _ Hr) ltac:(lia) ltac:(lia)) as Hle.
    rewrite entriesBefore_next in Hle by lia. unfold poolIndex. nia. }
  exists t2. split; [done|]. apply writeEntry_spec in Ht2 as [? _].
  by eapply same_shape_trans.
Qed.

Lemma upsample_total l (pages : list CacheEntry) tb :
  update_ready pages tb → 0 < l < numLevels tb →
  ∀ tb1, same_shape tb tb1 →
    ∃ tb2, upsample l tb1 = Some tb2 ∧ same_shape tb tb2.
Proof.
  intros Hr Hl tb1 Hs1. unfold upsample. rewrite forEach_flatten.
  rewrite !(getNumPagesX_shape tb tb1), !(getNumPagesY_shape tb tb1) by done.
  apply (forEach_inv (same_shape tb)); [|done].
  intros [y x] t1 Hp Ht1. simpl.
  apply list_elem_of_bind in Hp as (y' & Hx & Hy).
  apply list_elem_of_fmap in Hx as (x' & [= -> ->] & Hx).
  apply elem_of_seqZ in Hx, Hy.
  destruct (ur_levels _ _ Hr l) as [HsW HsH]; [lia|].
  destruct (ur_levels _ _ Hr (l - 1)) as [HdW HdH]; [lia|].
  destruct (ur_halving _ _ Hr l Hl) as [HhW HhH].
  rewrite !Z.shiftr_div_pow2 by lia. change (2 ^ 1) with 2.
  assert (0 ≤ x' / 2 < getNumPagesX tb l).
  { split; [apply Z.div_pos; lia|apply Z.div_lt_upper_bound; lia]. }
  assert (0 ≤ y' / 2 < getNumPagesY tb l).
  { split; [apply Z.div_pos; lia|apply Z.div_lt_upper_bound; lia]. }
  pose proof (entriesBefore_nonneg tb (Z.to_nat (l - 1)) (ur_levels _ _ Hr) ltac:(lia)) as Hnn.
  pose proof (entriesBefore_next tb (l - 1) ltac:(lia)) as Hnx.
  replace (l - 1 + 1) with l in Hnx by lia.
  pose proof (entriesBefore_le tb (Z.to_nat (l + 1)) (Z.to_nat (numLevels tb))
                (ur_levels _ _ Hr) ltac:(lia) ltac:(lia)) as Hle.
  rewrite entriesBefore_next in Hle by lia.
  assert (Z.of_nat (length (tableEntryPool t1))
          = entriesBefore tb (Z.to_nat (numLevels tb))) as Hlen.
  { destruct Ht1 as (_&_&_&<-). apply (ur_pool _ _ Hr). }
  rewrite readEntry_poolAt.
  destruct (poolAt_is_Some t1 (poolIndex t1 l (x' / 2 + y' / 2 * getNumPagesX tb l)))
    as [v ->].
  { rewrite (poolIndex_shape tb t1) by done. unfold poolIndex. nia. }
  cbn [mbind option_bind].
  destruct (writeEntry_is_Some t1 (l - 1) (x' + y' * getNumPagesX tb (l - 1)) v)
    as [t2 Ht2].
  { rewrite (poolIndex_shape tb t1) by done. unfold poolIndex. nia. }
  exists t2. split; [done|]. apply writeEntry_spec in Ht2 as [? _].
  by eapply same_shape_trans.
Qed.

Lemma updateLevels_total (pages : list CacheEntry) tb :
  update_ready pages tb → is_Some (updateLevels entryFor pages tb).
Proof.
  intros Hr. unfold updateLevels.
  destruct (forEach_inv (same_shape tb) (reverse (seqZ 0 (numLevels tb)))
              (updateLevel entryFor pages) tb) as (tb' & -> & _); [| |eauto].
  - intros l t1 Hl Ht1. apply elem_of_reverse, elem_of_seqZ in Hl.
    unfold updateLevel.
    destruct (writePages_total l pages tb Hr ltac:(lia) t1 Ht1) as (t2 & -> & Ht2).
    cbn [mbind option_bind]. case_decide; [|eauto].
    apply (upsample_total l pages tb Hr); [lia|done].
  - apply same_shape_refl.
Qed.
End Update.
End IndirectionFacts.

Section IndirectionClaims.

(** C5.  For both tables, the RGBA-8:8:8:8 and the RGB-5:6:5 one:
    [updateIndirectionTexture] returns on a table as [initTexture]
    allocates it whose levels at most double towards the finer ones,
    given cache entries that lie inside the table; and after any run
    that returns, for every level [L > 0] and every position [(x, y)]
    of level [L - 1] that no cache entry of level [L - 1] overwrites,
    the entry of level [L - 1] at [(x, y)] is the entry of level [L]
    at [(x / 2, y / 2)]. *)
Theorem updateIndirectionTexture_upsamples :
  (∀ pages (tb : PageIndirectionTableRgba8888.t),
     update_ready pages tb →
     is_Some (PageIndirectionTableRgba8888.updateIndirectionTexture pages tb))
  ∧ (∀ pages (tb tb' : PageIndirectionTableRgba8888.t),
       levels_wf tb →
       PageIndirectionTableRgba8888.updateIndirectionTexture pages tb = Some tb' →
       upsampled pages tb')
  ∧ (∀ pages (tb : PageIndirectionTableRgb565.t),
       update_ready pages (PageIndirectionTableRgb565.table tb) →
       is_Some (PageIndirectionTableRgb565.updateIndirectionTexture pages tb))
  ∧ (∀ pages (tb tb' : PageIndirectionTableRgb565.t),
       levels_wf (PageIndirectionTableRgb565.table tb) →
       PageIndirectionTableRgb565.updateIndirectionTexture pages tb = Some tb' →
       upsampled pages (PageIndirectionTableRgb565.table tb')).
Proof.
  split; [|split; [|split]].
  - intros pages tb Hr.
    exact (updateLevels_total (PageIndirectionTableRgba8888.entryFor tb) pages tb Hr).
  - intros pages tb tb' Hwf H.
    exact (proj2 (updateLevels_upsampled (PageIndirectionTableRgba8888.entryFor tb)
                    pages tb tb' Hwf H)).
  - intros pages tb Hr. unfold PageIndirectionTableRgb565.updateIndirectionTexture.
    destruct (updateLevels_total (PageIndirectionTableRgb565.entryFor tb) pages _ Hr)
      as [t' ->]. cbn [mbind option_bind]. eauto.
  - intros pages tb tb' Hwf H.
    unfold PageIndirectionTableRgb565.updateIndirectionTexture in H.
    destruct (PageIndirectionTable.updateLevels _ _ _) as [t'|] eqn:Hu; [|done].
    cbn [mbind option_bind] in H. injection H as <-.
    exact (proj2 (updateLevels_upsampled (PageIndirectionTableRgb565.entryFor tb)
                    pages _ t' Hwf Hu)).
Qed.
End IndirectionClaims.

(** ** The theorems above at concrete inputs *)

Lemma lookupPage_spec_witness :
  ∃ c, PageCacheMgr.make [2; 1] [2; 1] 2 = Some c
       ∧ inRange (PageCacheMgr.cachePageTree c) (makePageId 1 0 0 0)
       ∧ ∃ c', PageCacheMgr.lookupPage (makePageId 1 0 0 0) c = Some (Unavailable, c')
               ∧ CachePageTree.getId (PageCacheMgr.cachePageTree c') (makePageId 1 0 0 0)
                 = Some RequestedPageDummy.
Proof.
  eexists. split; [vm_compute; reflexivity|].
  match goal with |- inRange (PageCacheMgr.cachePageTree ?c) _ ∧ _ => set (c0 := c) end.
  assert (Hmake : PageCacheMgr.make [2; 1] [2; 1] 2 = Some c0) by (vm_compute; reflexivity).
  assert (Hin : inRange (PageCacheMgr.cachePageTree c0) (makePageId 1 0 0 0))
    by (vm_compute; repeat split; reflexivity).
  split; [exact Hin|].
  destruct (make_inv _ _ _ _ Hmake) as [Hinv Hch].
  destruct (lookupPage_spec c0 (makePageId 1 0 0 0) _ Hinv Hch Hin)
    as (slot & c' & Hslot & _ & Hm).
  assert (slot = Null) as -> by (vm_compute in Hslot; congruence).
  exists c'. destruct Hm as (H1 & H2 & _). split; assumption.
Defined.

Lemma lru_chain_invariant_witness :
  ∃ c0, PageCacheMgr.make [2; 1] [2; 1] 2 = Some c0
        ∧ ∃ c order,
            runCalls [CallLookupPage (makePageId 1 0 0 0);
                      CallAccommodatePage (makePageId 1 0 0 0);
                      CallLookupPage (makePageId 1 0 0 0);
                      CallPurgeCache;
                      CallAccommodatePage (makePageId 0 0 1 0)] c0 = Some c
            ∧ length order = 256%nat
            ∧ PageCacheMgr.mru c = head order
            ∧ PageCacheMgr.lru c = last order.
Proof.
  eexists. split; [vm_compute; reflexivity|].
  match goal with |- ∃ _ _, runCalls _ ?x = _ ∧ _ => set (c0 := x) end.
  assert (Hmake : PageCacheMgr.make [2; 1] [2; 1] 2 = Some c0) by (vm_compute; reflexivity).
  destruct (lru_chain_invariant [2; 1] [2; 1] 2 c0
              [CallLookupPage (makePageId 1 0 0 0);
               CallAccommodatePage (makePageId 1 0 0 0);
               CallLookupPage (makePageId 1 0 0 0);
               CallPurgeCache;
               CallAccommodatePage (makePageId 0 0 1 0)] Hmake)
    as (c & order & Hrun & _ & Hlen & _ & _ & Hmru & Hlru & _).
  { repeat apply Forall_cons_2; try apply Forall_nil_2;
      try exact I; vm_compute; repeat split; reflexivity. }
  exists c, order. split; [exact Hrun|]. split; [exact Hlen|]. split; assumption.
Defined.

Lemma accommodatePage_spec_witness :
  ∃ c, PageCacheMgr.make [32; 16; 8; 4; 2; 1] [32; 16; 8; 4; 2; 1] 6 = Some c
       ∧ length pages257 = 257%nat
       ∧ ∃ c257,
           accommodatePages pages257 (PageCacheMgr.purgeCache c) = Some c257
           ∧ CachePageTree.getId (PageCacheMgr.cachePageTree c257) (makePageId 0 0 0 0)
             = Some Null.
Proof.
  eexists. split; [vm_compute; reflexivity|].
  match goal with |- _ ∧ ∃ c257, accommodatePages _ (PageCacheMgr.purgeCache ?c) = _ ∧ _ =>
    set (c0 := c) end.
  assert (Hmake : PageCacheMgr.make [32; 16; 8; 4; 2; 1] [32; 16; 8; 4; 2; 1] 6 = Some c0)
    by (vm_compute; reflexivity).
  destruct (make_inv _ _ _ _ Hmake) as [Hinv _].
  assert (Hlen : length pages257 = 257%nat) by (vm_compute; reflexivity).
  split; [exact Hlen|].
  destruct (proj2 accommodatePage_spec c0 pages257 (ci_tree _ Hinv))
    as (c256 & c257 & _ & _ & Hrun & Hfirst & _).
  - vm_compute. reflexivity.
  - exact Hlen.
  - apply (bool_decide_unpack _). vm_compute. reflexivity.
  - apply (bool_decide_unpack _). vm_compute. reflexivity.
  - exists c257. split; [exact Hrun|]. apply Hfirst. vm_compute. reflexivity.
Defined.

Lemma sanitizePageId_spec_witness :
  ∃ c, PageCacheMgr.make [2; 1] [2; 1] 2 = Some c
       ∧ pageIdExtractMipLevel (PageCacheMgr.sanitizePageId (makePageId 255 255 255 3) c) = 1
       ∧ inRange (PageCacheMgr.cachePageTree c)
           (PageCacheMgr.sanitizePageId (makePageId 255 255 255 3) c).
Proof.
  eexists. split; [vm_compute; reflexivity|].
  match goal with |- _ ∧ inRange (PageCacheMgr.cachePageTree ?c) _ => set (c0 := c) end.
  assert (Hmake : PageCacheMgr.make [2; 1] [2; 1] 2 = Some c0) by (vm_compute; reflexivity).
  destruct (make_inv _ _ _ _ Hmake) as [Hinv _].
  destruct (sanitizePageId_spec c0 (makePageId 255 255 255 3) (ci_tree _ Hinv))
    as (Hlevel & _ & _ & _ & Hin & _).
  split; [|exact Hin]. rewrite Hlevel. vm_compute. reflexivity.
Defined.

Lemma loadPage_fails_soft_witness :
  VTFFPageFile.loadPage memStdio (λ _ _ _ bs, bs) (makePageId 0 0 0 0) [] unseekablePageFile []
  = ([LogError "VTFFPageFile: Failed to seek file offset! fseek() failed!"],
     Returned (unseekablePageFile, replicate VTFFPageFile.pageDataBytes 0)).
Proof.
  apply (proj1 (proj2 (loadPage_fails_soft memStdio (λ _ _ _ bs, bs) unseekablePageFile
                         (makePageId 0 0 0 0) [] []))
           {| VTFF.fileOffset := 2 ^ 64 - 1; VTFF.sizeInBytes := 65536 |}
           ([], 0%nat)).
  - vm_compute. discriminate.
  - vm_compute. reflexivity.
  - vm_compute. reflexivity.
Defined.

Lemma isPowerOfTwo_zero_witness :
  VTFFPageFile.checkLevelInfo (VTFF.decodeHeader (take 28 zeroPagesFile))
    {| VTFF.width := 0; VTFF.height := 0; VTFF.numPagesX := 0; VTFF.numPagesY := 0 |} []
  = ([], Returned tt).
Proof.
  apply (proj1 (proj2 (proj2 (proj2 isPowerOfTwo_zero)))); vm_compute; reflexivity.
Defined.

Lemma onePageEntries_ready {E : Type} (tb : PageIndirectionTable.t E) :
  PageIndirectionTable.numLevels tb = 2 →
  PageIndirectionTable.numPagesX tb = [2; 1] ++ replicate 14 0 →
  PageIndirectionTable.numPagesY tb = [2; 1] ++ replicate 14 0 →
  length (PageIndirectionTable.tableEntryPool tb) = 5%nat →
  update_ready onePageEntries tb.
Proof.
  intros Hn Hx Hy Hlen.
  assert (∀ l, 0 ≤ l < 2 → l = 0 ∨ l = 1) as Hcases by lia.
  split.
  - intros l Hl. rewrite Hn in Hl. unfold PageIndirectionTable.getNumPagesX,
      PageIndirectionTable.getNumPagesY. rewrite Hx, Hy.
    destruct (Hcases l Hl) as [-> | ->]; vm_compute; done.
  - rewrite Hlen, Hn. change (Z.to_nat 2) with 2%nat. cbn [PageIndirectionTable.entriesBefore].
    unfold PageIndirectionTable.getNumPagesX, PageIndirectionTable.getNumPagesY.
    rewrite Hx, Hy. vm_compute. reflexivity.
  - intros l Hl. rewrite Hn in Hl. assert (l = 1) as -> by lia.
    unfold PageIndirectionTable.getNumPagesX, PageIndirectionTable.getNumPagesY.
    rewrite Hx, Hy. vm_compute. split; discriminate.
  - vm_compute. lia.
  - intros p e He Hid Hlev.
    assert (Forall (λ e, pageId e = InvalidPageId ∨ pageId e = makePageId 1 0 0 0)
              onePageEntries) as Hall.
    { apply (bool_decide_unpack _). vm_compute. reflexivity. }
    destruct (Forall_lookup_1 _ _ _ _ Hall He) as [?|Heq]; [done|].
    unfold pageIndex, PageIndirectionTable.getNumPagesX, PageIndirectionTable.getNumPagesY.
    rewrite Heq, Hx, Hy. vm_compute. reflexivity.
Qed.

Lemma updateIndirectionTexture_upsamples_witness :
  (∃ tb, PageIndirectionTableRgba8888.make [2; 1] [2; 1] 2 = Some tb
         ∧ ∃ tb', PageIndirectionTableRgba8888.updateIndirectionTexture onePageEntries tb
                  = Some tb'
                  ∧ ∃ entry,
                      PageIndirectionTable.readEntry tb' 0 2 = Some entry
                      ∧ PageIndirectionTable.readEntry tb' 1 0 = Some entry)
  ∧ (∃ tb, PageIndirectionTableRgb565.make [2; 1] [2; 1] 2 = Some tb
           ∧ is_Some (PageIndirectionTableRgb565.updateIndirectionTexture onePageEntries tb)).
Proof.
  split.
  - eexists. split; [vm_compute; reflexivity|].
    match goal with
    | |- ∃ _, PageIndirectionTableRgba8888.updateIndirectionTexture _ ?x = _ ∧ _ =>
        set (tb := x)
    end.
    eexists. split; [vm_compute; reflexivity|].
    match goal with |- ∃ _, PageIndirectionTable.readEntry ?x _ _ = _ ∧ _ => set (tb' := x) end.
    refine (proj1 (proj2 updateIndirectionTexture_upsamples) onePageEntries tb tb' _ _
              1 0 1 _ _ _ _).
    + intros l Hl. change (PageIndirectionTable.numLevels tb) with 2 in Hl.
      assert (l = 0 ∨ l = 1) as [-> | ->] by lia; vm_compute; done.
    + vm_compute. reflexivity.
    + vm_compute. done.
    + vm_compute. done.
    + vm_compute. done.
    + intros (p & e & _ & He & Hid & _ & Hidx).
      assert (Forall (λ e, pageId e = InvalidPageId ∨ pageIndex tb' (1 - 1) e ≠ 2)
                onePageEntries) as Hall.
      { apply (bool_decide_unpack _). vm_compute. reflexivity. }
      destruct (Forall_lookup_1 _ _ _ _ Hall He) as [?|Hne]; [done|].
      apply Hne. exact Hidx.
  - eexists. split; [vm_compute; reflexivity|].
    apply (proj1 (proj2 (proj2 updateIndirectionTexture_upsamples))).
    apply onePageEntries_ready; vm_compute; reflexivity.
Defined.

(** ** Further properties of the page ids and the cache manager *)

Section CodecRoundTrip.

Lemma testbit_low_byte (v n : Z) :
  0 ≤ n → Z.testbit (Z.land v 0xFF) n = Z.testbit v n && (n <? 8).
Proof.
  intros Hn. change 0xFF with (Z.ones 8). rewrite Z.land_spec.
  destruct (Z.ltb_spec n 8).
  - rewrite Z.ones_spec_low by lia. done.
  - rewrite Z.ones_spec_high by lia. done.
Qed.

Lemma testbit_above_32 (id n : Z) : 0 ≤ id < 2 ^ 32 → 32 ≤ n → Z.testbit id n = false.
Proof.
  intros Hid Hn. destruct (decide (id = 0)) as [->|Hne]; [apply Z.bits_0|].
  apply Z.bits_above_log2; [lia|].
  assert (Z.log2 id < 32); [|lia]. apply Z.log2_lt_pow2; lia.
Qed.

Lemma makePageId_extract (id : PageId) :
  0 ≤ id < 2 ^ 32 →
  makePageId (pageIdExtractPageX id) (pageIdExtractPageY id)
    (pageIdExtractMipLevel id) (pageIdExtractTextureIndex id) = id.
Proof.
  intros Hid.
  unfold makePageId, pageIdExtractPageX, pageIdExtractPageY, pageIdExtractMipLevel,
    pageIdExtractTextureIndex.
  change 0x0000FF00 with (Z.shiftl 255 8). change 0x00FF0000 with (Z.shiftl 255 16).
  change 0xFF000000 with (Z.shiftl 255 24). change 0x000000FF with (Z.shiftl 255 0).
  rewrite !land_shiftr_byte by lia.
  apply Z.bits_inj'. intros n Hn.
  rewrite !Z.lor_spec, !Z.shiftl_spec by lia.
  destruct (decide (n < 8)); [|destruct (decide (n < 16)); [|destruct (decide (n < 24));
    [|destruct (decide (n < 32))]]].
  - rewrite (Z.testbit_neg_r _ (n - 24)), (Z.testbit_neg_r _ (n - 16)),
      (Z.testbit_neg_r _ (n - 8)) by lia. simpl.
    rewrite !testbit_low_byte by lia. rewrite Z.shiftr_spec by lia.
    replace (n <? 8) with true by (symmetry; apply Z.ltb_lt; lia).
    rewrite ?andb_true_r. f_equal. lia.
  - rewrite (Z.testbit_neg_r _ (n - 24)), (Z.testbit_neg_r _ (n - 16)) by lia. simpl.
    rewrite !testbit_low_byte by lia. rewrite !Z.shiftr_spec by lia.
    replace (n - 8 <? 8) with true by (symmetry; apply Z.ltb_lt; lia).
    replace (n <? 8) with false by (symmetry; apply Z.ltb_ge; lia).
    rewrite ?andb_true_r, ?andb_false_r, ?orb_false_r, ?orb_false_l. simpl. f_equal. lia.
  - rewrite (Z.testbit_neg_r _ (n - 24)) by lia. simpl.
    rewrite !testbit_low_byte by lia. rewrite !Z.shiftr_spec by lia.
    replace (n - 16 <? 8) with true by (symmetry; apply Z.ltb_lt; lia).
    replace (n - 8 <? 8) with false by (symmetry; apply Z.ltb_ge; lia).
    replace (n <? 8) with false by (symmetry; apply Z.ltb_ge; lia).
    rewrite ?andb_true_r, ?andb_false_r, ?orb_false_r, ?orb_false_l. simpl. f_equal. lia.
  - rewrite !testbit_low_byte by lia. rewrite !Z.shiftr_spec by lia.
    replace (n - 24 <? 8) with true by (symmetry; apply Z.ltb_lt; lia).
    replace (n - 16 <? 8) with false by (symmetry; apply Z.ltb_ge; lia).
    replace (n - 8 <? 8) with false by (symmetry; apply Z.ltb_ge; lia).
    replace (n <? 8) with false by (symmetry; apply Z.ltb_ge; lia).
    rewrite ?andb_true_r, ?andb_false_r, ?orb_false_r, ?orb_false_l. simpl. f_equal. lia.
  - rewrite !testbit_low_byte by lia.
    replace (n - 24 <? 8) with false by (symmetry; apply Z.ltb_ge; lia).
    replace (n - 16 <? 8) with false by (symmetry; apply Z.ltb_ge; lia).
    replace (n - 8 <? 8) with false by (symmetry; apply Z.ltb_ge; lia).
    replace (n <? 8) with false by (symmetry; apply Z.ltb_ge; lia).
    rewrite !andb_false_r. simpl. symmetry. apply testbit_above_32; [done|lia].
Qed.

Lemma makePageId_range x y level texId : 0 ≤ makePageId x y level texId < 2 ^ 32.
Proof.
  unfold makePageId.
  assert (∀ v, 0 ≤ Z.land v 0xFF < 256) as Hb.
  { intros v. change 0xFF with (Z.ones 8). rewrite Z.land_ones by lia.
    apply Z.mod_pos_bound. lia. }
  pose proof (Hb x). pose proof (Hb y). pose proof (Hb level). pose proof (Hb texId).
  assert (∀ a b, 0 ≤ a < 2 ^ 32 → 0 ≤ b < 2 ^ 32 → 0 ≤ Z.lor a b < 2 ^ 32) as Hlor.
  { intros a b Ha Hb'. split; [apply Z.lor_nonneg; lia|].
    destruct (decide (Z.lor a b = 0)) as [->|Hne]; [lia|].
    apply Z.log2_lt_pow2; [pose proof (proj2 (Z.lor_nonneg a b)); lia|].
    rewrite Z.log2_lor by lia.
    destruct (decide (a = 0)) as [->|]; destruct (decide (b = 0)) as [->|];
      try (simpl in *; lia).
    - rewrite Z.max_r by (apply Z.log2_nonneg). apply Z.log2_lt_pow2; lia.
    - rewrite Z.max_l by (apply Z.log2_nonneg). apply Z.log2_lt_pow2; lia.
    - apply Z.max_lub_lt; apply Z.log2_lt_pow2; lia. }
  rewrite !Z.shiftl_mul_pow2 by lia.
  apply Hlor; [apply Hlor; [apply Hlor|]|]; lia.
Qed.

(** X1.  The fields of a page id survive packing, and a 32-bit page id is
    the packing of its fields. *)
Theorem pageId_round_trip (x y level texId : Z) (id : PageId) :
  0 ≤ x < 256 → 0 ≤ y < 256 → 0 ≤ level < 256 → 0 ≤ texId < 256 →
  0 ≤ id < 2 ^ 32 →
  pageIdExtractPageX (makePageId x y level texId) = x
  ∧ pageIdExtractPageY (makePageId x y level texId) = y
  ∧ pageIdExtractMipLevel (makePageId x y level texId) = level
  ∧ pageIdExtractTextureIndex (makePageId x y level texId) = texId
  ∧ 0 ≤ makePageId x y level texId < 2 ^ 32
  ∧ makePageId (pageIdExtractPageX id) (pageIdExtractPageY id)
      (pageIdExtractMipLevel id) (pageIdExtractTextureIndex id) = id.
Proof.
  intros Hx Hy Hl Ht Hid.
  rewrite extract_make_x, extract_make_y, extract_make_level, extract_make_tex.
  rewrite !land_255_small by done.
  split; [done|]. split; [done|]. split; [done|]. split; [done|].
  split; [apply makePageId_range|by apply makePageId_extract].
Qed.

Lemma pageId_round_trip_witness :
  pageIdExtractPageX (makePageId 3 7 2 1) = 3
  ∧ pageIdExtractPageY (makePageId 3 7 2 1) = 7
  ∧ pageIdExtractMipLevel (makePageId 3 7 2 1) = 2
  ∧ pageIdExtractTextureIndex (makePageId 3 7 2 1) = 1
  ∧ 0 ≤ makePageId 3 7 2 1 < 2 ^ 32
  ∧ makePageId (pageIdExtractPageX 0x01020703) (pageIdExtractPageY 0x01020703)
      (pageIdExtractMipLevel 0x01020703) (pageIdExtractTextureIndex 0x01020703)
    = 0x01020703.
Proof. apply (pageId_round_trip 3 7 2 1 0x01020703); lia. Defined.

End CodecRoundTrip.

Section CacheExtras.
Import PageCacheMgr.

Lemma getId_insert_slot tr tr' id v :
  tree_wf tr → inRange tr id → same_geometry tr tr' →
  CachePageTree.cacheEntryPtrPool tr'
    = <[slot_of tr id := v]> (CachePageTree.cacheEntryPtrPool tr) →
  CachePageTree.getId tr' id = Some v.
Proof.
  intros Hwf Hr Hg Hp.
  destruct (getId_slot_of tr id Hwf Hr) as [_ Hlt].
  destruct (getId_slot_of tr' id) as [-> _];
    [by eapply same_geometry_wf|by apply (same_geometry_inRange tr tr')|].
  rewrite (slot_of_same_geometry tr tr') by done.
  rewrite Hp. by apply list_lookup_insert_eq.
Qed.

Lemma notifyDroppedRequest_in_flight c id :
  tree_wf (cachePageTree c) → inRange (cachePageTree c) id →
  CachePageTree.getId (cachePageTree c) id = Some RequestedPageDummy →
  ∃ tr', notifyDroppedRequest id c
         = Some {| stats := incDropped (stats c); mru := mru c; lru := lru c;
                   cachePageTree := tr'; cacheEntryPool := cacheEntryPool c |}
         ∧ same_geometry (cachePageTree c) tr'
         ∧ CachePageTree.cacheEntryPtrPool tr'
           = <[slot_of (cachePageTree c) id := Null]>
               (CachePageTree.cacheEntryPtrPool (cachePageTree c)).
Proof.
  intros Hwf Hr Hget. unfold notifyDroppedRequest.
  rewrite (proj2 (validPageRequest_inRange c id) Hr).
  unfold CachePageTree.getId in Hget. rewrite Hget. cbn [mbind option_bind].
  rewrite decide_True by done.
  destruct (set_inRange (cachePageTree c) id Null Hwf Hr)
    as (i & tr' & Hi & Hlt & Hset & Hg & Hp).
  rewrite Hset. cbn [mbind option_bind]. exists tr'. split; [done|]. split; [done|].
  rewrite Hp. unfold slot_of. by rewrite Hi.
Qed.

Lemma tree_eq (tr tr' : CachePageTree.t) :
  same_geometry tr tr' →
  CachePageTree.cacheEntryPtrPool tr' = CachePageTree.cacheEntryPtrPool tr →
  tr' = tr.
Proof.
  destruct tr, tr'. intros (H1 & H2 & H3 & _) H4. simpl in *. by subst.
Qed.

(** X2.  A request that the provider drops leaves no trace in the tree. *)
Theorem lookupPage_dropped_restores c id :
  cache_inv c → inRange (cachePageTree c) id →
  CachePageTree.getId (cachePageTree c) id = Some Null →
  ∃ c1 c2,
    lookupPage id c = Some (Unavailable, c1)
    ∧ stillWantPage id c1 = Some true
    ∧ notifyDroppedRequest id c1 = Some c2
    ∧ cachePageTree c2 = cachePageTree c
    ∧ cacheEntryPool c2 = cacheEntryPool c
    ∧ mru c2 = mru c ∧ lru c2 = lru c
    ∧ stats c2 = incDropped (incNew (incTotal (stats c)))
    ∧ stillWantPage id c2 = Some false.
Proof.
  intros Hinv Hr Hnull. pose proof (ci_tree _ Hinv) as Hwf.
  destruct (lookupPage_miss c id Hwf Hr Hnull) as (tr1 & Hlook & Hg1 & Hp1).
  set (c1 := {| stats := incNew (incTotal (stats c)); mru := mru c; lru := lru c;
                cachePageTree := tr1; cacheEntryPool := cacheEntryPool c |}) in *.
  assert (Hwf1 : tree_wf (cachePageTree c1)) by (by eapply same_geometry_wf).
  assert (Hr1 : inRange (cachePageTree c1) id)
    by (by apply (same_geometry_inRange (cachePageTree c) tr1)).
  assert (Hfl : CachePageTree.getId (cachePageTree c1) id = Some RequestedPageDummy)
    by (by apply (getId_insert_slot (cachePageTree c) tr1)).
  destruct (notifyDroppedRequest_in_flight c1 id Hwf1 Hr1 Hfl) as (tr2 & Hdrop & Hg2 & Hp2).
  eexists c1, _. split; [exact Hlook|].
  split.
  { unfold stillWantPage. rewrite (proj2 (validPageRequest_inRange c1 id) Hr1).
    unfold CachePageTree.getId in Hfl. rewrite Hfl. done. }
  split; [exact Hdrop|].
  assert (tr2 = cachePageTree c) as ->.
  { apply tree_eq; [by eapply same_geometry_trans|].
    rewrite Hp2. unfold c1. cbn [cachePageTree]. rewrite Hp1.
    rewrite (slot_of_same_geometry (cachePageTree c) tr1) by done.
    rewrite list_insert_insert_eq. apply list_insert_id.
    destruct (getId_slot_of _ id Hwf Hr) as [<- _]. done. }
  unfold c1. cbn [cachePageTree cacheEntryPool mru lru stats].
  split; [done|]. split; [done|]. split; [done|]. split; [done|]. split; [done|].
  unfold stillWantPage. cbn [cachePageTree cacheEntryPool mru lru stats].
  rewrite (proj2 (validPageRequest_inRange c id) Hr) || (
    change (validPageRequest _ _ _ _) with
      (validPageRequest c (pageIdExtractMipLevel id) (pageIdExtractPageX id)
         (pageIdExtractPageY id));
    rewrite (proj2 (validPageRequest_inRange c id) Hr)).
  unfold CachePageTree.getId in Hnull. rewrite Hnull. done.
Qed.

Lemma lookupPage_dropped_restores_witness :
  ∃ c, make [2; 1] [2; 1] 2 = Some c
       ∧ ∃ c1 c2,
           lookupPage (makePageId 1 0 0 0) c = Some (Unavailable, c1)
           ∧ notifyDroppedRequest (makePageId 1 0 0 0) c1 = Some c2
           ∧ cachePageTree c2 = cachePageTree c.
Proof.
  eexists. split; [vm_compute; reflexivity|].
  match goal with |- ∃ _ _, lookupPage _ ?x = _ ∧ _ => set (c0 := x) end.
  assert (Hmake : make [2; 1] [2; 1] 2 = Some c0) by (vm_compute; reflexivity).
  destruct (make_inv _ _ _ _ Hmake) as [Hinv _].
  destruct (lookupPage_dropped_restores c0 (makePageId 1 0 0 0) Hinv)
    as (c1 & c2 & H1 & _ & H2 & H3 & _).
  - vm_compute. repeat split; reflexivity.
  - vm_compute. reflexivity.
  - exists c1, c2. split; [exact H1|]. split; [exact H2|exact H3].
Defined.

(** X3.  A page that is looked up again while its load is in flight is not
    requested again. *)
Theorem lookupPage_requests_once c id :
  cache_inv c → inRange (cachePageTree c) id →
  CachePageTree.getId (cachePageTree c) id = Some Null →
  ∃ c1 c2,
    lookupPage id c = Some (Unavailable, c1)
    ∧ lookupPage id c1 = Some (InFlight, c2)
    ∧ cachePageTree c2 = cachePageTree c1
    ∧ cacheEntryPool c2 = cacheEntryPool c
    ∧ mru c2 = mru c ∧ lru c2 = lru c
    ∧ totalFrameRequests (stats c2) = totalFrameRequests (stats c) + 2
    ∧ newFrameRequests (stats c2) = newFrameRequests (stats c) + 1
    ∧ reFrameRequests (stats c2) = reFrameRequests (stats c) + 1.
Proof.
  intros Hinv Hr Hnull. pose proof (ci_tree _ Hinv) as Hwf.
  destruct (lookupPage_miss c id Hwf Hr Hnull) as (tr1 & Hlook & Hg1 & Hp1).
  set (c1 := {| stats := incNew (incTotal (stats c)); mru := mru c; lru := lru c;
                cachePageTree := tr1; cacheEntryPool := cacheEntryPool c |}) in *.
  assert (Hr1 : inRange (cachePageTree c1) id)
    by (by apply (same_geometry_inRange (cachePageTree c) tr1)).
  assert (Hfl : CachePageTree.getId (cachePageTree c1) id = Some RequestedPageDummy)
    by (by apply (getId_insert_slot (cachePageTree c) tr1)).
  eexists c1, _. split; [exact Hlook|].
  split; [apply (lookupPage_inflight c1 id Hr1 Hfl)|].
  simpl. split; [done|]. split; [done|]. split; [done|]. split; [done|].
  split; [lia|]. split; [done|done].
Qed.

Lemma lookupPage_requests_once_witness :
  ∃ c, make [2; 1] [2; 1] 2 = Some c
       ∧ ∃ c1 c2,
           lookupPage (makePageId 1 0 0 0) c = Some (Unavailable, c1)
           ∧ lookupPage (makePageId 1 0 0 0) c1 = Some (InFlight, c2).
Proof.
  eexists. split; [vm_compute; reflexivity|].
  match goal with |- ∃ _ _, lookupPage _ ?x = _ ∧ _ => set (c0 := x) end.
  assert (Hmake : make [2; 1] [2; 1] 2 = Some c0) by (vm_compute; reflexivity).
  destruct (make_inv _ _ _ _ Hmake) as [Hinv _].
  destruct (lookupPage_requests_once c0 (makePageId 1 0 0 0) Hinv)
    as (c1 & c2 & H1 & H2 & _).
  - vm_compute. repeat split; reflexivity.
  - vm_compute. reflexivity.
  - exists c1, c2. split; [exact H1|exact H2].
Defined.

End CacheExtras.

Section CacheExtras2.
Import PageCacheMgr.

Lemma fmap_cacheCoord_purge (pool : list CacheEntry) :
  cacheCoord <$> imap purgeEntry pool = cacheCoord <$> pool.
Proof.
  apply list_eq. intros i. rewrite !list_lookup_fmap, list_lookup_imap.
  destruct (pool !! i); done.
Qed.

Lemma imap_purge_purge (pool : list CacheEntry) :
  imap purgeEntry (imap purgeEntry pool) = imap purgeEntry pool.
Proof.
  apply list_eq. intros i. rewrite !list_lookup_imap.
  destruct (pool !! i); done.
Qed.

(** X4.  [purgeCache] forgets every page and keeps the cache coordinates. *)
Theorem purgeCache_forgets c id :
  tree_wf (cachePageTree c) → length (cacheEntryPool c) = TotalCachePages →
  inRange (cachePageTree c) id →
  CachePageTree.getId (cachePageTree (purgeCache c)) id = Some Null
  ∧ stillWantPage id (purgeCache c) = Some false
  ∧ (∃ c', lookupPage id (purgeCache c) = Some (Unavailable, c'))
  ∧ Forall (λ ent, pageId ent = InvalidPageId) (cacheEntryPool (purgeCache c))
  ∧ cacheCoord <$> cacheEntryPool (purgeCache c) = cacheCoord <$> cacheEntryPool c
  ∧ stats (purgeCache c) = zeroStats
  ∧ purgeCache (purgeCache c) = purgeCache c.
Proof.
  intros Hwf Hlen Hr.
  pose proof (purgeCache_tracked c Hwf Hlen) as Htr.
  assert (Hr' : inRange (cachePageTree (purgeCache c)) id) by exact Hr.
  assert (Hnull : CachePageTree.getId (cachePageTree (purgeCache c)) id = Some Null).
  { apply (tracked_absent _ _ id Htr Hr').
    intros p Hp Hne. apply elem_of_replicate in Hp as [-> _]. done. }
  split; [exact Hnull|].
  split.
  { unfold stillWantPage. rewrite (proj2 (validPageRequest_inRange _ id) Hr').
    unfold CachePageTree.getId in Hnull. rewrite Hnull. done. }
  split.
  { destruct (lookupPage_miss (purgeCache c) id (ci_tree _ (tk_inv _ _ Htr)) Hr' Hnull)
      as (tr' & Hl & _). eauto. }
  split.
  { apply Forall_forall. intros ent Hent.
    apply list_elem_of_lookup in Hent as [e He]. by eapply purgeCache_pageIds. }
  split; [apply fmap_cacheCoord_purge|].
  split; [done|].
  unfold purgeCache. cbn [cachePageTree cacheEntryPool]. f_equal.
  - unfold CachePageTree.clear. cbn [CachePageTree.cacheEntryPtrPool
      CachePageTree.numLevels CachePageTree.numPagesX CachePageTree.numPagesY].
    by rewrite length_replicate.
  - apply imap_purge_purge.
Qed.

Lemma purgeCache_forgets_witness :
  ∃ c coord c1,
    make [2; 1] [2; 1] 2 = Some c
    ∧ accommodatePage (makePageId 1 0 0 0) c = Some (coord, c1)
    ∧ CachePageTree.getId (cachePageTree (purgeCache c1)) (makePageId 1 0 0 0)
      = Some Null
    ∧ purgeCache (purgeCache c1) = purgeCache c1.
Proof.
  eexists. 
  match goal with |- ∃ _ _, make _ _ _ = Some ?x ∧ _ => 
    assert (Hmake : make [2; 1] [2; 1] 2 = Some x) by (vm_compute; reflexivity);
    set (c0 := x) in *
  end.
  destruct (make_inv _ _ _ _ Hmake) as [Hinv _].
  assert (Hr : inRange (cachePageTree c0) (makePageId 1 0 0 0))
    by (vm_compute; repeat split; reflexivity).
  destruct (accommodatePage_inv c0 (makePageId 1 0 0 0) Hinv Hr)
    as (coord & c1 & Hacc & Hinv1 & Hg).
  exists coord, c1. split; [exact Hmake|]. split; [exact Hacc|].
  destruct (purgeCache_forgets c1 (makePageId 1 0 0 0) (ci_tree _ Hinv1) (ci_pool _ Hinv1))
    as (H1 & _ & _ & _ & _ & _ & H2).
  - apply (same_geometry_inRange _ _ _ Hg). exact Hr.
  - split; [exact H1|exact H2].
Defined.

(** X5.  Page ids that are in range for the tree pass [sanitizePageId]
    unchanged. *)
Theorem sanitizePageId_in_range c id :
  inRange (cachePageTree c) id → 0 ≤ id < 2 ^ 32 →
  sanitizePageId id c = id.
Proof.
  intros (Hl & Hx & Hy) Hid. unfold sanitizePageId, CachePageTree.getNumLevels.
  rewrite (decide_False (P := pageIdExtractMipLevel id >= _)) by lia.
  rewrite (decide_False (P := pageIdExtractPageX id >= _)) by lia.
  rewrite (decide_False (P := pageIdExtractPageY id >= _)) by lia.
  by apply makePageId_extract.
Qed.

Lemma sanitizePageId_in_range_witness :
  ∃ c, make [2; 1] [2; 1] 2 = Some c
       ∧ sanitizePageId (makePageId 1 1 0 5) c = makePageId 1 1 0 5.
Proof.
  eexists. split; [vm_compute; reflexivity|].
  apply sanitizePageId_in_range.
  - vm_compute. repeat split; reflexivity.
  - vm_compute. split; [discriminate|reflexivity].
Defined.

Lemma slotIndex_pageKey_get tr id1 id2 :
  pageKey id1 = pageKey id2 →
  CachePageTree.get tr (pageIdExtractMipLevel id1) (pageIdExtractPageX id1)
    (pageIdExtractPageY id1)
  = CachePageTree.get tr (pageIdExtractMipLevel id2) (pageIdExtractPageX id2)
      (pageIdExtractPageY id2).
Proof. unfold pageKey. by intros [= -> -> ->]. Qed.

(** X6.  A slot of the tree that is set reads back, and the slots of the
    other pages keep their values. *)
Theorem CachePageTree_set_get tr id id' v :
  tree_wf tr → inRange tr id → inRange tr id' →
  ∃ tr',
    CachePageTree.setId tr id v = Some tr'
    ∧ same_geometry tr tr'
    ∧ CachePageTree.getId tr' id = Some v
    ∧ (pageKey id' = pageKey id → CachePageTree.getId tr' id' = Some v)
    ∧ (pageKey id' ≠ pageKey id → CachePageTree.getId tr' id' = CachePageTree.getId tr id').
Proof.
  intros Hwf Hr Hr'.
  destruct (set_inRange tr id v Hwf Hr) as (i & tr' & Hi & Hlt & Hset & Hg & Hp).
  exists tr'. split; [exact Hset|]. split; [done|].
  assert (Hslot : slot_of tr id = i) by (unfold slot_of; by rewrite Hi).
  assert (Hget : CachePageTree.getId tr' id = Some v).
  { apply (getId_insert_slot tr tr' id v Hwf Hr Hg). by rewrite Hslot. }
  split; [done|]. split.
  - intros Hk. unfold CachePageTree.getId in *.
    by rewrite (slotIndex_pageKey_get tr' id' id Hk).
  - intros Hk.
    destruct (getId_slot_of tr id' Hwf Hr') as [-> _].
    destruct (getId_slot_of tr' id') as [-> _];
      [by eapply same_geometry_wf|by apply (same_geometry_inRange tr tr')|].
    rewrite (slot_of_same_geometry tr tr') by done. rewrite Hp.
    apply list_lookup_insert_ne. rewrite <- Hslot.
    intros Heq. apply Hk. symmetry. by apply (slot_of_eq_iff tr id id').
Qed.

End CacheExtras2.

Section CacheCoords.
Import PageCacheMgr.

Lemma lookupPage_coords c id r c' :
  cache_inv c → inRange (cachePageTree c) id →
  lookupPage id c = Some (r, c') →
  cacheCoord <$> cacheEntryPool c' = cacheCoord <$> cacheEntryPool c.
Proof.
  intros [Hwf Hlen [order Hch] Hslots Hids] Hr Hl.
  destruct (get_inRange _ id Hwf Hr) as (i & s & Hi & Hs & Hget).
  destruct s as [| |e].
  - destruct (lookupPage_miss c id Hwf Hr Hget) as (tr' & Hl' & _).
    rewrite Hl' in Hl. by injection Hl as <- <-.
  - rewrite (lookupPage_inflight c id Hr Hget) in Hl. by injection Hl as <- <-.
  - assert (He : (e < TotalCachePages)%nat).
    { eapply Forall_lookup_1 in Hslots; [|exact Hs]. by apply Hslots. }
    pose proof (lru_chain_full c order e Hch Hlen He) as Hin.
    apply list_elem_of_split in Hin as (l1 & l2 & ->).
    destruct (lookupPage_hit c id e l1 l2 Hwf Hr Hget Hch)
      as (c1 & Hl' & _ & _ & [_ Hp2] & _).
    rewrite Hl' in Hl. by injection Hl as <- <-.
Qed.

Lemma runCalls_coords calls : ∀ c c',
  cache_inv c → Forall (call_inRange (cachePageTree c)) calls →
  runCalls calls c = Some c' →
  cache_inv c' ∧ cacheCoord <$> cacheEntryPool c' = cacheCoord <$> cacheEntryPool c.
Proof.
  induction calls as [|call calls IH]; intros c c' Hinv Hall Hrun.
  - injection Hrun as <-. done.
  - apply Forall_cons in Hall as [Hcall Hall]. cbn [runCalls] in Hrun.
    destruct (runCall call c) as [c1|] eqn:Hstep; [|done]. cbn [mbind option_bind] in Hrun.
    assert (cache_inv c1 ∧ same_geometry (cachePageTree c) (cachePageTree c1)
            ∧ cacheCoord <$> cacheEntryPool c1 = cacheCoord <$> cacheEntryPool c)
      as (Hinv1 & Hg1 & Hc1).
    { destruct call as [id|id|]; cbn [runCall call_inRange] in *.
      - destruct (lookupPage_inv c id Hinv Hcall) as (r & c2 & Hl & H1 & H2).
        rewrite Hl in Hstep. injection Hstep as <-.
        split; [done|]. split; [done|]. by eapply lookupPage_coords.
      - destruct (ci_chain _ Hinv) as [order Hch].
        destruct (accommodatePage_entry c order id Hinv Hch Hcall)
          as (l1 & e & ent & c2 & _ & _ & _ & Hacc & _ & _ & _ & _ & Hco & _).
        destruct (accommodatePage_inv c id Hinv Hcall) as (r & c3 & Hacc' & H1 & H2).
        rewrite Hacc in Hacc'. injection Hacc' as <- <-.
        rewrite Hacc in Hstep. injection Hstep as <-. done.
      - injection Hstep as <-. split; [apply purgeCache_inv; apply Hinv|].
        split; [unfold same_geometry; simpl; by rewrite length_replicate|].
        apply fmap_cacheCoord_purge. }
    destruct (IH c1 c' Hinv1) as [Hinv' Hc']; [|done|].
    { eapply Forall_impl; [exact Hall|]. intros [id|id|]; simpl; try done;
        by apply (same_geometry_inRange _ _ _ Hg1). }
    split; [done|]. by rewrite Hc'.
Qed.

Lemma initEntry_coords (l : list nat) :
  cacheCoord <$> (initEntry <$> l) = coordOf <$> l.
Proof. induction l as [|i l IH]; [done|]. rewrite !fmap_cons, IH. done. Qed.

Lemma make_coords vtPagesX vtPagesY vtNumLevels c :
  make vtPagesX vtPagesY vtNumLevels = Some c →
  cacheCoord <$> cacheEntryPool c = coordOf <$> seq 0 TotalCachePages.
Proof.
  unfold make. destruct (CachePageTree.make _ _ _) as [tr|]; [|done].
  cbn [mbind option_bind]. intros [= <-].
  change (cacheCoord <$> imap purgeEntry (initEntry <$> seq 0 TotalCachePages)
          = coordOf <$> seq 0 TotalCachePages).
  rewrite fmap_cacheCoord_purge. apply initEntry_coords.
Qed.

Lemma coordOf_inj (i j : nat) : coordOf i = coordOf j → i = j.
Proof.
  unfold coordOf, CacheSizeInPages, TableSizeInPages. intros [= Hx Hy].
  pose proof (Z.div_mod (Z.of_nat i) 16 ltac:(lia)).
  pose proof (Z.div_mod (Z.of_nat j) 16 ltac:(lia)). lia.
Qed.

(** X7.  The cache coordinates of the entries are those the constructor
    assigned, whatever calls have run: entry [i] owns the tile
    [(i mod 16, i / 16)] of the cache texture, no two entries share a
    tile, and [accommodatePage] hands out a tile of the 16 x 16 grid. *)
Theorem cacheCoord_fixed vtPagesX vtPagesY vtNumLevels c0 calls :
  make vtPagesX vtPagesY vtNumLevels = Some c0 →
  Forall (call_inRange (cachePageTree c0)) calls →
  ∃ c,
    runCalls calls c0 = Some c
    ∧ cacheCoord <$> cacheEntryPool c = coordOf <$> seq 0 TotalCachePages
    ∧ (∀ e1 e2 ent1 ent2,
         cacheEntryPool c !! e1 = Some ent1 → cacheEntryPool c !! e2 = Some ent2 →
         cacheCoord ent1 = cacheCoord ent2 → e1 = e2)
    ∧ (∀ id, inRange (cachePageTree c) id →
         ∃ coord c', accommodatePage id c = Some (coord, c')
                     ∧ 0 ≤ coordX coord < CacheSizeInPages
                     ∧ 0 ≤ coordY coord < CacheSizeInPages).
Proof.
  intros Hmake Hcalls.
  destruct (make_inv _ _ _ _ Hmake) as [Hinv0 _].
  destruct (runCalls_inv calls c0 Hinv0 Hcalls) as (c & Hrun & Hinv & _).
  destruct (runCalls_coords calls c0 c Hinv0 Hcalls Hrun) as [_ Hco].
  rewrite (make_coords _ _ _ _ Hmake) in Hco.
  assert (Hent : ∀ e ent, cacheEntryPool c !! e = Some ent →
                   cacheCoord ent = coordOf e ∧ (e < TotalCachePages)%nat).
  { intros e ent He.
    assert ((cacheCoord <$> cacheEntryPool c) !! e = Some (cacheCoord ent)) as H
      by (by rewrite list_lookup_fmap, He).
    rewrite Hco, list_lookup_fmap in H.
    destruct (seq 0 TotalCachePages !! e) as [k|] eqn:Hk; [|done].
    apply lookup_seq in Hk as [-> Hlt]. injection H as <-. done. }
  exists c. split; [done|]. split; [done|]. split.
  - intros e1 e2 ent1 ent2 H1 H2 Heq.
    destruct (Hent e1 ent1 H1) as [E1 _]. destruct (Hent e2 ent2 H2) as [E2 _].
    apply coordOf_inj. congruence.
  - intros id Hr. destruct (ci_chain _ Hinv) as [order Hch].
    destruct (accommodatePage_entry c order id Hinv Hch Hr)
      as (l1 & e & ent & c' & _ & _ & He & Hacc & _).
    exists (cacheCoord ent), c'. split; [done|].
    destruct (Hent e ent He) as [-> Hlt]. unfold coordOf. cbn [coordX coordY].
    rewrite TotalCachePages_eq in Hlt.
    unfold CacheSizeInPages, TableSizeInPages.
    split; [apply Z.mod_pos_bound; lia|].
    split; [apply Z.div_pos; lia|apply Z.div_lt_upper_bound; lia].
Qed.

Lemma cacheCoord_fixed_witness :
  ∃ c0, make [2; 1] [2; 1] 2 = Some c0
        ∧ ∃ c, runCalls [CallAccommodatePage (makePageId 1 0 0 0);
                         CallLookupPage (makePageId 1 0 0 0);
                         CallPurgeCache] c0 = Some c
               ∧ cacheCoord <$> cacheEntryPool c = coordOf <$> seq 0 TotalCachePages.
Proof.
  eexists.
  match goal with |- make _ _ _ = Some ?x ∧ _ =>
    assert (Hmake : make [2; 1] [2; 1] 2 = Some x) by (vm_compute; reflexivity);
    set (c0 := x) in *
  end.
  split; [exact Hmake|].
  destruct (cacheCoord_fixed [2; 1] [2; 1] 2 c0
              [CallAccommodatePage (makePageId 1 0 0 0);
               CallLookupPage (makePageId 1 0 0 0);
               CallPurgeCache] Hmake) as (c & Hrun & Hco & _).
  - repeat apply Forall_cons_2; try apply Forall_nil_2;
      try exact I; vm_compute; repeat split; reflexivity.
  - exists c. split; [exact Hrun|exact Hco].
Defined.

Lemma CachePageTree_set_get_witness :
  ∃ tr, CachePageTree.make [2; 1] [2; 1] 2 = Some tr
        ∧ ∃ tr', CachePageTree.setId tr (makePageId 1 0 0 0) (Entry 7) = Some tr'
                 ∧ CachePageTree.getId tr' (makePageId 1 0 0 0) = Some (Entry 7)
                 ∧ CachePageTree.getId tr' (makePageId 0 1 0 0)
                   = CachePageTree.getId tr (makePageId 0 1 0 0).
Proof.
  eexists.
  match goal with |- CachePageTree.make _ _ _ = Some ?x ∧ _ =>
    assert (Hmake : CachePageTree.make [2; 1] [2; 1] 2 = Some x) by (vm_compute; reflexivity);
    set (tr := x) in *
  end.
  split; [exact Hmake|].
  destruct (CachePageTree_set_get tr (makePageId 1 0 0 0) (makePageId 0 1 0 0) (Entry 7)
              (CachePageTree_make_wf _ _ _ _ Hmake))
    as (tr' & Hset & _ & Hget & _ & Hother).
  - vm_compute. repeat split; reflexivity.
  - vm_compute. repeat split; reflexivity.
  - exists tr'. split; [exact Hset|]. split; [exact Hget|].
    apply Hother. vm_compute. discriminate.
Defined.

End CacheCoords.

(** ** Further properties of the page provider and the page resolver *)

Section ProviderExtras.
Import PageProvider.

Lemma provider_eq (p q : t) :
  outstandingRequests p = outstandingRequests q → readyQueue p = readyQueue q →
  registeredTextures p = registeredTextures q → forceSynchronous p = forceSynchronous q →
  dispatched p = dispatched q → p = q.
Proof. destruct p, q. simpl. by intros -> -> -> -> ->. Qed.

Lemma foldli_load_all requestId tex : ∀ p k,
  foldl (λ a ix, loadOne requestId a ix.1 ix.2) p (imap (λ i, pair (k + i)%nat) tex)
  = {| outstandingRequests := outstandingRequests p;
       readyQueue := readyQueue p ++ imap (λ i, loadedPacket requestId (k + i)) tex;
       registeredTextures := registeredTextures p;
       forceSynchronous := forceSynchronous p;
       dispatched := dispatched p |}.
Proof.
  induction tex as [|f tex IH]; intros p k.
  - simpl. rewrite app_nil_r. by destruct p.
  - cbn [imap foldl]. 
    rewrite (imap_ext _ (λ i, pair (S k + i)%nat)) by (intros; simpl; f_equal; lia).
    rewrite IH. apply provider_eq; cbn; try done; [lia|].
    rewrite <- app_assoc. f_equal. cbn. rewrite Nat.add_0_r. f_equal.
    apply imap_ext. intros i x _. simpl. f_equal. lia.
Qed.

Lemma foldli_dispatch_all requestId tex : ∀ p k,
  foldl (λ a ix, dispatchOne requestId a ix.1 ix.2) p (imap (λ i, pair (k + i)%nat) tex)
  = {| outstandingRequests := outstandingRequests p + Z.of_nat (length tex);
       readyQueue := readyQueue p;
       registeredTextures := registeredTextures p;
       forceSynchronous := forceSynchronous p;
       dispatched := dispatched p
                     ++ imap (λ i pageFile,
                                {| pageFile := pageFile; requestId := requestId;
                                   fileId := Z.of_nat (k + i) |}) tex |}.
Proof.
  induction tex as [|f tex IH]; intros p k.
  - simpl. rewrite app_nil_r. apply provider_eq; simpl; try done. lia.
  - cbn [imap foldl].
    rewrite (imap_ext _ (λ i, pair (S k + i)%nat)) by (intros; simpl; f_equal; lia).
    rewrite IH. apply provider_eq; cbn; try done; [lia|].
    rewrite <- app_assoc. f_equal. cbn. rewrite Nat.add_0_r. f_equal.
    apply imap_ext. intros i x _. simpl. do 2 f_equal. lia.
Qed.

Lemma foldli_load_eq requestId tex p :
  foldli (loadOne requestId) p tex
  = {| outstandingRequests := outstandingRequests p;
       readyQueue := readyQueue p ++ imap (loadedPacket requestId) tex;
       registeredTextures := registeredTextures p;
       forceSynchronous := forceSynchronous p;
       dispatched := dispatched p |}.
Proof. exact (foldli_load_all requestId tex p 0). Qed.

Lemma foldli_dispatch_eq requestId tex p :
  foldli (dispatchOne requestId) p tex
  = {| outstandingRequests := outstandingRequests p + Z.of_nat (length tex);
       readyQueue := readyQueue p;
       registeredTextures := registeredTextures p;
       forceSynchronous := forceSynchronous p;
       dispatched := dispatched p
                     ++ imap (λ i pageFile,
                                {| pageFile := pageFile; requestId := requestId;
                                   fileId := Z.of_nat i |}) tex |}.
Proof. exact (foldli_dispatch_all requestId tex p 0). Qed.

(** X8.  In synchronous mode a request below the limit is loaded at once:
    one packet for each page file of the texture is on the ready queue,
    in the order of the files, the counter is unchanged and nothing is
    left to a worker; [getReadyQueue] then hands the packets out and
    leaves the queue empty. *)
Theorem synchronous_request_delivers (requestId : PageId) (p : t) (tex : RegisteredTexture) :
  forceSynchronous p = true →
  outstandingRequests p ≠ MaxOutstandingPageRequests →
  registeredTextures p
    !! Z.to_nat (Z.min (pageIdExtractTextureIndex requestId)
                   (Z.of_nat (length (registeredTextures p)))) = Some tex →
  ∃ p',
    addPageRequest requestId p = Some (true, p')
    ∧ outstandingRequests p' = outstandingRequests p
    ∧ dispatched p' = dispatched p
    ∧ readyQueue p' = readyQueue p ++ imap (loadedPacket requestId) tex
    ∧ (getReadyQueue p').1 = readyQueue p ++ imap (loadedPacket requestId) tex
    ∧ readyQueue (getReadyQueue p').2 = []
    ∧ outstandingRequests (getReadyQueue p').2 = outstandingRequests p.
Proof.
  intros Hsync Hlim Htex. unfold addPageRequest.
  rewrite decide_False by done. rewrite Hsync. cbn [negb].
  unfold runImmediateRequest. unfold RegisteredTexture in *.
  exists (foldli (loadOne requestId) p tex). split; [by rewrite Htex|].
  rewrite foldli_load_eq. cbn. done.
Qed.

Lemma synchronous_request_delivers_witness :
  ∃ p', addPageRequest (makePageId 1 0 0 0) twoFileSyncProvider = Some (true, p')
        ∧ readyQueue p'
          = [loadedPacket (makePageId 1 0 0 0) 0 (λ id, [id]);
             loadedPacket (makePageId 1 0 0 0) 1 (λ id, [id + 1])]
        ∧ outstandingRequests p' = 0.
Proof.
  destruct (synchronous_request_delivers (makePageId 1 0 0 0) twoFileSyncProvider
              [λ id, [id]; λ id, [id + 1]])
    as (p' & Hadd & Hout & _ & Hq & _).
  - reflexivity.
  - vm_compute. discriminate.
  - vm_compute. reflexivity.
  - exists p'. split; [exact Hadd|]. split; [exact Hq|exact Hout].
Defined.

Lemma step_counts_pending ev p p' :
  outstandingRequests p = Z.of_nat (length (dispatched p)) →
  step ev p = Some p' →
  outstandingRequests p' = Z.of_nat (length (dispatched p')).
Proof.
  intros Hp Hstep. destruct ev as [requestId|k|]; cbn [step] in Hstep.
  - unfold addPageRequest in Hstep. case_decide.
    { injection Hstep as <-. done. }
    destruct (forceSynchronous p); cbn [negb] in Hstep.
    + unfold runImmediateRequest in Hstep.
      destruct (registeredTextures p !! _) as [tex|]; [|done].
      cbn [mbind option_bind fmap option_fmap option_map] in Hstep.
      injection Hstep as <-. rewrite foldli_load_eq. done.
    + unfold runAsyncRequest in Hstep.
      destruct (registeredTextures p !! _) as [tex|]; [|done].
      cbn [mbind option_bind fmap option_fmap option_map] in Hstep.
      injection Hstep as <-. rewrite foldli_dispatch_eq.
      cbn. rewrite length_app, length_imap. lia.
  - unfold workerRuns in Hstep.
    destruct (dispatched p !! k) as [ctx|] eqn:Hk; [|done].
    cbn [mbind option_bind] in Hstep. case_decide; [done|].
    injection Hstep as <-. cbn. rewrite length_delete by eauto.
    apply lookup_lt_Some in Hk. lia.
  - injection Hstep as <-. done.
Qed.

(** X9.  The counter is the number of dispatched loads that have not
    completed, whatever events have run; the loads of the synchronous
    mode never count. *)
Theorem outstandingRequests_counts_pending evs : ∀ p p',
  outstandingRequests p = Z.of_nat (length (dispatched p)) →
  run evs p = Some p' →
  outstandingRequests p' = Z.of_nat (length (dispatched p'))
  ∧ 0 ≤ outstandingRequests p'.
Proof.
  induction evs as [|ev evs IH]; intros p p' Hp Hrun.
  - injection Hrun as <-. split; [done|lia].
  - cbn [run] in Hrun. destruct (step ev p) as [p1|] eqn:Hstep; [|done].
    cbn [mbind option_bind] in Hrun.
    apply (IH p1 p'); [|done]. by eapply step_counts_pending.
Qed.

Lemma outstandingRequests_counts_pending_witness :
  ∃ p', run [AddPageRequest 0; AddPageRequest 1; Completion 1; GetReadyQueue]
          threeFileProvider = Some p'
        ∧ outstandingRequests p' = Z.of_nat (length (dispatched p')).
Proof.
  eexists. split; [vm_compute; reflexivity|].
  match goal with |- outstandingRequests ?x = _ => set (p' := x) end.
  refine (proj1 (outstandingRequests_counts_pending
            [AddPageRequest 0; AddPageRequest 1; Completion 1; GetReadyQueue]
            threeFileProvider p' _ _)).
  - reflexivity.
  - vm_compute. reflexivity.
Defined.

Lemma outstanding_bound_single_file_witness :
  ∃ p', run (replicate 300 (AddPageRequest 0) ++ [Completion 0; AddPageRequest 0])
          oneFileProvider = Some p'
        ∧ outstandingRequests p' ≤ MaxOutstandingPageRequests.
Proof.
  eexists. split; [vm_compute; reflexivity|].
  match goal with |- outstandingRequests ?x ≤ _ => set (p' := x) end.
  refine (outstanding_bound_single_file
            (replicate 300 (AddPageRequest 0) ++ [Completion 0; AddPageRequest 0])
            oneFileProvider p' _ _ _).
  - repeat constructor.
  - vm_compute. discriminate.
  - vm_compute. reflexivity.
Defined.

End ProviderExtras.

Section ResolverExtras.
Import PageResolver.

Lemma miss_then_dropped c id :
  cache_inv c → inRange (PageCacheMgr.cachePageTree c) id →
  CachePageTree.getId (PageCacheMgr.cachePageTree c) id = Some Null →
  ∃ c1 c2,
    PageCacheMgr.lookupPage id c = Some (Unavailable, c1)
    ∧ PageCacheMgr.notifyDroppedRequest id c1 = Some c2
    ∧ PageCacheMgr.cachePageTree c2 = PageCacheMgr.cachePageTree c
    ∧ PageCacheMgr.cacheEntryPool c2 = PageCacheMgr.cacheEntryPool c
    ∧ PageCacheMgr.mru c2 = PageCacheMgr.mru c
    ∧ PageCacheMgr.lru c2 = PageCacheMgr.lru c
    ∧ PageCacheMgr.stats c2
      = PageCacheMgr.incDropped (PageCacheMgr.incNew (PageCacheMgr.incTotal
          (PageCacheMgr.stats c))).
Proof.
  intros Hinv Hr Hnull. pose proof (ci_tree _ Hinv) as Hwf.
  destruct (lookupPage_miss c id Hwf Hr Hnull) as (tr1 & Hlook & Hg1 & Hp1).
  set (c1 := {| PageCacheMgr.stats := PageCacheMgr.incNew (PageCacheMgr.incTotal
                                        (PageCacheMgr.stats c));
                PageCacheMgr.mru := PageCacheMgr.mru c;
                PageCacheMgr.lru := PageCacheMgr.lru c;
                PageCacheMgr.cachePageTree := tr1;
                PageCacheMgr.cacheEntryPool := PageCacheMgr.cacheEntryPool c |}) in *.
  assert (Hwf1 : tree_wf (PageCacheMgr.cachePageTree c1)) by (by eapply same_geometry_wf).
  assert (Hr1 : inRange (PageCacheMgr.cachePageTree c1) id)
    by (by apply (same_geometry_inRange (PageCacheMgr.cachePageTree c) tr1)).
  assert (Hfl : CachePageTree.getId (PageCacheMgr.cachePageTree c1) id
                = Some RequestedPageDummy)
    by (by apply (getId_insert_slot (PageCacheMgr.cachePageTree c) tr1)).
  destruct (notifyDroppedRequest_in_flight c1 id Hwf1 Hr1 Hfl) as (tr2 & Hdrop & Hg2 & Hp2).
  eexists c1, _. split; [exact Hlook|]. split; [exact Hdrop|].
  assert (tr2 = PageCacheMgr.cachePageTree c) as ->.
  { apply tree_eq; [by eapply same_geometry_trans|].
    rewrite Hp2. unfold c1. cbn [PageCacheMgr.cachePageTree]. rewrite Hp1.
    rewrite (slot_of_same_geometry (PageCacheMgr.cachePageTree c) tr1) by done.
    rewrite list_insert_insert_eq. apply list_insert_id.
    destruct (getId_slot_of _ id Hwf Hr) as [<- _]. done. }
  done.
Qed.

(** X11.  A request that the provider refuses because its limit is reached
    counts as no new request and leaves the provider, the tree, the entry
    pool and the ends of the LRU chain as they were: the page can be
    requested again in a later frame.  Of the statistics the lookup has
    counted the request in [totalFrameRequests] and [newFrameRequests]
    and the drop has counted it in [droppedRequests]; each of the three
    is one higher and the other counters are unchanged. *)
Theorem processPageRequest_dropped c pageProvider requestId :
  cache_inv c → inRange (PageCacheMgr.cachePageTree c) requestId →
  CachePageTree.getId (PageCacheMgr.cachePageTree c) requestId = Some Null →
  PageProvider.outstandingRequests pageProvider = PageProvider.MaxOutstandingPageRequests →
  ∃ c',
    processPageRequest requestId c pageProvider = Some (0, c', pageProvider)
    ∧ PageCacheMgr.cachePageTree c' = PageCacheMgr.cachePageTree c
    ∧ PageCacheMgr.cacheEntryPool c' = PageCacheMgr.cacheEntryPool c
    ∧ PageCacheMgr.mru c' = PageCacheMgr.mru c
    ∧ PageCacheMgr.lru c' = PageCacheMgr.lru c
    ∧ PageCacheMgr.stats c'
      = PageCacheMgr.incDropped (PageCacheMgr.incNew (PageCacheMgr.incTotal
          (PageCacheMgr.stats c)))
    ∧ PageCacheMgr.totalFrameRequests (PageCacheMgr.stats c')
      = PageCacheMgr.totalFrameRequests (PageCacheMgr.stats c) + 1
    ∧ PageCacheMgr.newFrameRequests (PageCacheMgr.stats c')
      = PageCacheMgr.newFrameRequests (PageCacheMgr.stats c) + 1
    ∧ PageCacheMgr.droppedRequests (PageCacheMgr.stats c')
      = PageCacheMgr.droppedRequests (PageCacheMgr.stats c) + 1
    ∧ PageCacheMgr.reFrameRequests (PageCacheMgr.stats c')
      = PageCacheMgr.reFrameRequests (PageCacheMgr.stats c)
    ∧ PageCacheMgr.servicedRequests (PageCacheMgr.stats c')
      = PageCacheMgr.servicedRequests (PageCacheMgr.stats c)
    ∧ PageCacheMgr.hitFrameRequests (PageCacheMgr.stats c')
      = PageCacheMgr.hitFrameRequests (PageCacheMgr.stats c).
Proof.
  intros Hinv Hr Hnull Hfull.
  destruct (miss_then_dropped c requestId Hinv Hr Hnull)
    as (c1 & c2 & Hlook & Hdrop & Htr & Hpool & Hm & Hl & Hst).
  exists c2. unfold processPageRequest. rewrite Hlook. cbn [mbind option_bind].
  unfold PageProvider.addPageRequest. rewrite decide_True by done.
  cbn [mbind option_bind]. rewrite Hdrop. cbn [mbind option_bind].
  split; [done|]. split; [done|]. split; [done|]. split; [done|]. split; [done|].
  rewrite Hst. repeat split; reflexivity.
Qed.

(** X12.  A page that is cached or already in flight is not requested from
    the provider again; it counts as a request of the frame. *)
Theorem processPageRequest_known c pageProvider requestId slot :
  cache_inv c → inRange (PageCacheMgr.cachePageTree c) requestId →
  CachePageTree.getId (PageCacheMgr.cachePageTree c) requestId = Some slot →
  slot ≠ Null →
  ∃ c',
    processPageRequest requestId c pageProvider = Some (1, c', pageProvider)
    ∧ PageCacheMgr.cachePageTree c' = PageCacheMgr.cachePageTree c
    ∧ cache_inv c'.
Proof.
  intros Hinv Hr Hslot Hne.
  destruct (lookupPage_inv c requestId Hinv Hr) as (r & c' & Hlook & Hinv' & _).
  pose proof Hinv as [Hwf Hlen [order Hch] Hslots Hids].
  destruct slot as [| |e]; [done| |].
  - rewrite (lookupPage_inflight c requestId Hr Hslot) in Hlook.
    injection Hlook as <- <-.
    eexists. unfold processPageRequest.
    rewrite (lookupPage_inflight c requestId Hr Hslot). cbn [mbind option_bind].
    split; [reflexivity|]. split; [done|]. exact Hinv'.
  - destruct (get_inRange _ requestId Hwf Hr) as (i & s & Hi & Hs & Hget).
    unfold CachePageTree.getId in Hslot. rewrite Hget in Hslot. injection Hslot as ->.
    assert (He : (e < PageCacheMgr.TotalCachePages)%nat).
    { eapply Forall_lookup_1 in Hslots; [|exact Hs]. by apply Hslots. }
    pose proof (lru_chain_full c order e Hch Hlen He) as Hin.
    apply list_elem_of_split in Hin as (l1 & l2 & ->).
    destruct (lookupPage_hit c requestId e l1 l2 Hwf Hr Hget Hch)
      as (c1 & Hl' & _ & Htr & _).
    rewrite Hl' in Hlook. injection Hlook as <- <-.
    exists c1. unfold processPageRequest. rewrite Hl'. cbn [mbind option_bind].
    split; [done|]. split; [done|]. exact Hinv'.
Qed.

(** X13.  The loop stops at the limit of the frame: it never counts more new
    requests than [maxPageRequestsPerFrame] as a [size_t], nor more than
    one for each page, and it changes neither the limit nor
    [visiblePages]. *)
Theorem requestLoop_limit pages : ∀ newRequests r pageProvider newRequests' r' pageProvider',
  requestLoop pages newRequests r pageProvider = Some (newRequests', r', pageProvider') →
  newRequests ≤ newRequests'
  ∧ newRequests' ≤ Z.max newRequests (toSizeT (maxPageRequestsPerFrame r))
  ∧ newRequests' ≤ newRequests + Z.of_nat (length pages)
  ∧ maxPageRequestsPerFrame r' = maxPageRequestsPerFrame r
  ∧ visiblePages r' = visiblePages r
  ∧ length (registeredTextures r') = length (registeredTextures r).
Proof.
  induction pages as [|id rest IH]; intros n r prov n' r' prov' H.
  - cbn [requestLoop] in H. injection H as <- <- <-. cbn [length]. lia.
  - cbn [requestLoop] in H. case_decide as Hlt.
    + destruct (registeredTextures r !! _) as [pc|]; [|done].
      cbn [mbind option_bind] in H.
      destruct (processPageRequest _ _ _) as [[[k pc'] prov1]|] eqn:E; [|done].
      cbn [mbind option_bind] in H.
      apply processPageRequest_count in E.
      apply IH in H as (H1 & H2 & H3 & H4 & H5 & H6).
      cbn [maxPageRequestsPerFrame visiblePages registeredTextures] in *.
      rewrite length_insert in H6. cbn [length]. lia.
    + injection H as <- <- <-. cbn [length]. lia.
Qed.

Lemma countPages_sentinels (framePages : list PageId) :
  Forall (λ p, p = InvalidPageId) framePages → countPages framePages = ∅.
Proof.
  unfold countPages. generalize (∅ : gmap Z Z).
  induction framePages as [|p ps IH]; intros m Hall; [done|].
  apply Forall_cons in Hall as [-> Hall]. cbn [foldl].
  rewrite decide_False by (intros H; by apply H). by apply IH.
Qed.

(** X14.  A feedback buffer that shows no virtual texture makes no request:
    the analysis sets [visiblePages] to zero and leaves the limit, the
    caches and the provider as they were. *)
Theorem feedbackBufferAnalysis_no_pages (framePages : list PageId) r pageProvider :
  Forall (λ p, p = InvalidPageId) framePages →
  feedbackBufferAnalysis framePages r pageProvider
  = Some ({| maxPageRequestsPerFrame := maxPageRequestsPerFrame r;
             visiblePages := 0;
             registeredTextures := registeredTextures r |}, pageProvider).
Proof.
  intros Hall. unfold feedbackBufferAnalysis.
  rewrite (countPages_sentinels framePages Hall).
  unfold sortPages. rewrite map_to_list_empty, map_size_empty.
  rewrite decide_False by (unfold TotalTablePages, TableSizeInPages; lia).
  reflexivity.
Qed.

Lemma feedbackBufferAnalysis_no_pages_witness :
  feedbackBufferAnalysis (replicate 4 InvalidPageId)
    {| maxPageRequestsPerFrame := 8; visiblePages := 5; registeredTextures := [] |}
    threeFileProvider
  = Some ({| maxPageRequestsPerFrame := 8; visiblePages := 0; registeredTextures := [] |},
          threeFileProvider).
Proof.
  apply (feedbackBufferAnalysis_no_pages (replicate 4 InvalidPageId)
           {| maxPageRequestsPerFrame := 8; visiblePages := 5; registeredTextures := [] |}).
  repeat constructor.
Defined.

(** X15.  When 256 or more distinct pages are visible the analysis lowers the
    limit of requests per frame to 256, and nothing in it raises the
    limit again; with fewer pages the limit stays as it was. *)
Theorem feedbackBufferAnalysis_overload (framePages : list PageId) r pageProvider r'
    pageProvider' :
  feedbackBufferAnalysis framePages r pageProvider = Some (r', pageProvider') →
  maxPageRequestsPerFrame r'
  = (if decide (Z.of_nat (length (uniquePages framePages)) >= TotalTablePages)
     then TotalTablePages else maxPageRequestsPerFrame r)
  ∧ length (registeredTextures r') = length (registeredTextures r).
Proof.
  intros H. unfold feedbackBufferAnalysis in H.
  destruct (requestLoop _ _ _ _) as [[[n r1] p1]|] eqn:E; [|done].
  cbn [mbind option_bind] in H. injection H as <- <-.
  assert (Z.of_nat (size (countPages framePages))
          = Z.of_nat (length (uniquePages framePages))) as Hsize.
  { f_equal. rewrite <- (Permutation_length (keys_countPages framePages)).
    rewrite length_fmap. symmetry. apply length_map_to_list. }
  rewrite Hsize in E.
  assert (∀ pages n r p n' r' p', requestLoop pages n r p = Some (n', r', p') →
            length (registeredTextures r') = length (registeredTextures r)) as Hlen.
  { clear. induction pages as [|id rest IH]; intros n r p n' r' p' H.
    - cbn [requestLoop] in H. by injection H as <- <- <-.
    - cbn [requestLoop] in H. case_decide.
      + destruct (registeredTextures r !! _) as [pc|]; [|done].
        cbn [mbind option_bind] in H.
        destruct (processPageRequest _ _ _) as [[[k pc'] prov1]|]; [|done].
        cbn [mbind option_bind] in H. apply IH in H.
        cbn [registeredTextures] in H. by rewrite length_insert in H.
      + by injection H as <- <- <-. }
  pose proof (Hlen _ _ _ _ _ _ _ E) as Hl.
  apply requestLoop_visiblePages in E as (_ & Hmax & _).
  cbn [maxPageRequestsPerFrame registeredTextures] in *. rewrite Hmax. done.
Qed.

Lemma feedbackBufferAnalysis_overload_witness :
  ∃ c, PageCacheMgr.make [2; 1] [2; 1] 2 = Some c
       ∧ ∃ r' pageProvider',
           feedbackBufferAnalysis sixPixels
             {| maxPageRequestsPerFrame := 8; visiblePages := 0;
                registeredTextures := [c] |}
             threeFileProvider
           = Some (r', pageProvider')
           ∧ maxPageRequestsPerFrame r' = 8.
Proof.
  eexists. split; [vm_compute; reflexivity|].
  match goal with |- ∃ _ _, ?lhs = _ ∧ _ => destruct lhs as [[r' p']|] eqn:Hrun end;
    [|vm_compute in Hrun; discriminate].
  exists r', p'. split; [reflexivity|].
  rewrite (proj1 (feedbackBufferAnalysis_overload _ _ _ _ _ Hrun)).
  vm_compute. reflexivity.
Defined.

Lemma processPageRequest_dropped_witness :
  ∃ c, PageCacheMgr.make [2; 1] [2; 1] 2 = Some c
       ∧ ∃ c', processPageRequest (makePageId 1 0 0 0) c fullProvider
               = Some (0, c', fullProvider)
               ∧ PageCacheMgr.cachePageTree c' = PageCacheMgr.cachePageTree c
               ∧ PageCacheMgr.totalFrameRequests (PageCacheMgr.stats c') = 1
               ∧ PageCacheMgr.newFrameRequests (PageCacheMgr.stats c') = 1
               ∧ PageCacheMgr.droppedRequests (PageCacheMgr.stats c') = 1.
Proof.
  eexists.
  match goal with |- PageCacheMgr.make _ _ _ = Some ?x ∧ _ =>
    assert (Hmake : PageCacheMgr.make [2; 1] [2; 1] 2 = Some x) by (vm_compute; reflexivity);
    set (c0 := x) in *
  end.
  split; [exact Hmake|].
  destruct (make_inv _ _ _ _ Hmake) as [Hinv _].
  destruct (processPageRequest_dropped c0 fullProvider (makePageId 1 0 0 0) Hinv)
    as (c' & Hp & Htr & _ & _ & _ & _ & Htotal & Hnew & Hdropped & _).
  - vm_compute. repeat split; reflexivity.
  - vm_compute. reflexivity.
  - reflexivity.
  - exists c'. split; [exact Hp|]. split; [exact Htr|].
    rewrite Htotal, Hnew, Hdropped. repeat split; reflexivity.
Defined.

Lemma processPageRequest_known_witness :
  ∃ c r c1,
    PageCacheMgr.make [2; 1] [2; 1] 2 = Some c
    ∧ PageCacheMgr.lookupPage (makePageId 1 0 0 0) c = Some (r, c1)
    ∧ ∃ c', processPageRequest (makePageId 1 0 0 0) c1 threeFileProvider
            = Some (1, c', threeFileProvider).
Proof.
  eexists.
  match goal with |- ∃ _ _, PageCacheMgr.make _ _ _ = Some ?x ∧ _ =>
    assert (Hmake : PageCacheMgr.make [2; 1] [2; 1] 2 = Some x) by (vm_compute; reflexivity);
    set (c0 := x) in *
  end.
  destruct (make_inv _ _ _ _ Hmake) as [Hinv _].
  assert (Hr : inRange (PageCacheMgr.cachePageTree c0) (makePageId 1 0 0 0))
    by (vm_compute; repeat split; reflexivity).
  destruct (lookupPage_inv c0 (makePageId 1 0 0 0) Hinv Hr) as (r & c1 & Hlook & Hinv1 & Hg).
  exists r, c1. split; [exact Hmake|]. split; [exact Hlook|].
  assert (Hr1 : inRange (PageCacheMgr.cachePageTree c1) (makePageId 1 0 0 0))
    by (by apply (same_geometry_inRange _ _ _ Hg)).
  assert (Hslot : CachePageTree.getId (PageCacheMgr.cachePageTree c1) (makePageId 1 0 0 0)
                  = Some RequestedPageDummy).
  { assert (Hc : PageCacheMgr.lookupPage (makePageId 1 0 0 0) c0
                 = Some (Unavailable,
                         default c0 (snd <$> PageCacheMgr.lookupPage (makePageId 1 0 0 0) c0)))
      by (vm_compute; reflexivity).
    rewrite Hc in Hlook. injection Hlook as <- <-. vm_compute. reflexivity. }
  destruct (processPageRequest_known c1 threeFileProvider (makePageId 1 0 0 0)
              RequestedPageDummy Hinv1 Hr1 Hslot) as (c' & Hp & _).
  - discriminate.
  - exists c'. exact Hp.
Defined.

Lemma requestLoop_limit_witness :
  ∃ c, PageCacheMgr.make [2; 1] [2; 1] 2 = Some c
       ∧ ∃ n' r' pageProvider',
           requestLoop [makePageId 0 0 1 0; makePageId 1 0 0 0; makePageId 0 1 0 0] 0
             {| maxPageRequestsPerFrame := 2; visiblePages := 3;
                registeredTextures := [c] |}
             threeFileProvider
           = Some (n', r', pageProvider')
           ∧ n' ≤ 2.
Proof.
  eexists. split; [vm_compute; reflexivity|].
  match goal with |- ∃ _ _ _, ?lhs = _ ∧ _ => destruct lhs as [[[n' r'] p']|] eqn:Hrun end;
    [|vm_compute in Hrun; discriminate].
  exists n', r', p'. split; [reflexivity|].
  destruct (requestLoop_limit _ _ _ _ _ _ _ Hrun) as (_ & H & _).
  cbn [maxPageRequestsPerFrame] in H. change (toSizeT 2) with 2 in H. lia.
Defined.

End ResolverExtras.

(** ** Further properties of the indirection tables *)

Section IndirectionMake.
Context {E : Type}.
Import PageIndirectionTable.
Implicit Types tb : PageIndirectionTable.t E.

Lemma entriesBefore_with_pool (pool : list E) tb n :
  entriesBefore (with_pool pool tb) n = entriesBefore tb n.
Proof. induction n as [|n IH]; [done|]. cbn [entriesBefore]. by rewrite IH. Qed.

Lemma initial_pool (defaultEntry : Z → E) tb (n : nat) :
  (∀ l, 0 ≤ l < Z.of_nat n → 0 ≤ getNumPagesX tb l * getNumPagesY tb l) →
  let pool := l ← seqZ 0 (Z.of_nat n);
              replicate (Z.to_nat (getNumPagesX tb l * getNumPagesY tb l)) (defaultEntry l) in
  Z.of_nat (length pool) = entriesBefore tb n
  ∧ ∀ l idx, 0 ≤ l < Z.of_nat n → 0 ≤ idx < getNumPagesX tb l * getNumPagesY tb l →
      pool !! Z.to_nat (entriesBefore tb (Z.to_nat l) + idx) = Some (defaultEntry l).
Proof.
  induction n as [|n IH]; intros Hpos pool.
  - split; [done|]. intros; lia.
  - subst pool. rewrite seqZ_S, bind_app. cbn [mbind list_bind foldr].
    rewrite Z.add_0_l, app_nil_r.
    destruct IH as [Hlen Hget]; [intros; apply Hpos; lia|].
    pose proof (Hpos (Z.of_nat n) ltac:(lia)) as Hn.
    split.
    + rewrite length_app, length_replicate, Nat2Z.inj_add, Hlen.
      cbn [entriesBefore]. lia.
    + intros l idx Hl Hidx. destruct (decide (l < Z.of_nat n)) as [Hlt|Hge].
      * rewrite lookup_app_l.
        -- apply Hget; lia.
        -- assert (entriesBefore tb (Z.to_nat l) + getNumPagesX tb l * getNumPagesY tb l
                   ≤ entriesBefore tb n).
           { clear -Hpos Hl Hlt. 
             assert (∀ (a b : nat), (a ≤ b)%nat → (b ≤ n)%nat →
                       entriesBefore tb a ≤ entriesBefore tb b) as Hmono.
             { intros a b Hab Hb. induction b as [|b IHb].
               - by replace a with 0%nat by lia.
               - destruct (decide (a = S b)) as [->|]; [done|]. cbn [entriesBefore].
                 pose proof (Hpos (Z.of_nat b) ltac:(lia)).
                 assert (entriesBefore tb a ≤ entriesBefore tb b) by (apply IHb; lia). lia. }
             pose proof (Hmono (S (Z.to_nat l)) n ltac:(lia) ltac:(lia)) as H.
             cbn [entriesBefore] in H. rewrite Z2Nat.id in H by lia. done. }
           assert (0 ≤ entriesBefore tb (Z.to_nat l)).
           { clear -Hpos Hl Hlt. 
             assert (∀ (b : nat), (b ≤ n)%nat → 0 ≤ entriesBefore tb b) as Hnn.
             { induction b as [|b IHb]; intros Hb; [done|]. cbn [entriesBefore].
               pose proof (Hpos (Z.of_nat b) ltac:(lia)).
               assert (0 ≤ entriesBefore tb b) by (apply IHb; lia). lia. }
             apply Hnn. lia. }
           lia.
      * assert (l = Z.of_nat n) as -> by lia. rewrite Nat2Z.id.
        rewrite lookup_app_r by lia.
        rewrite lookup_replicate_2; [done|]. lia.
Qed.

(** X16.  The constructor and [initTexture]: what the loops of
    [updateIndirectionTexture] rely on, and every entry of a level at
    its default. *)
Theorem initTexture_entries (defaultEntry : Z → E) vtPagesX vtPagesY vtNumLevels tb :
  PageIndirectionTable.make defaultEntry vtPagesX vtPagesY vtNumLevels = Some tb →
  numLevels tb = vtNumLevels
  ∧ 0 < vtNumLevels ≤ MaxVTMipLevels
  ∧ levels_wf tb
  ∧ (∀ l, 0 ≤ l < vtNumLevels →
       vtPagesX !! Z.to_nat l = Some (getNumPagesX tb l)
       ∧ vtPagesY !! Z.to_nat l = Some (getNumPagesY tb l))
  ∧ Z.of_nat (length (tableEntryPool tb)) = entriesBefore tb (Z.to_nat (numLevels tb))
  ∧ (∀ l index, 0 ≤ l < vtNumLevels →
       0 ≤ index < getNumPagesX tb l * getNumPagesY tb l →
       readEntry tb l index = Some (defaultEntry l)).
Proof.
  unfold PageIndirectionTable.make. case_decide as Hn; [|done].
  case_decide as Hok; [|done]. destruct Hok as (Hlx & Hly & Hpx & Hpy).
  intros [= <-].
  set (n := Z.to_nat vtNumLevels) in *.
  set (pad := replicate (Z.to_nat MaxVTMipLevels - n)%nat 0) in *.
  set (tb0 := {| numLevels := vtNumLevels; numPagesX := take n vtPagesX ++ pad;
                 numPagesY := take n vtPagesY ++ pad; tableEntryPool := [] |}) in *.
  assert (Hgeo : ∀ l, 0 ≤ l < vtNumLevels →
            vtPagesX !! Z.to_nat l = Some (getNumPagesX tb0 l)
            ∧ vtPagesY !! Z.to_nat l = Some (getNumPagesY tb0 l)
            ∧ 0 < getNumPagesX tb0 l ∧ 0 < getNumPagesY tb0 l).
  { intros l Hl. unfold getNumPagesX, getNumPagesY, tb0. cbn [numPagesX numPagesY].
    assert (Z.to_nat l < n)%nat as Hlt by lia.
    rewrite !lookup_app_l by lia. rewrite !lookup_take_lt by lia.
    destruct (lookup_lt_is_Some_2 (take n vtPagesX) (Z.to_nat l)) as [vx Hvx]; [lia|].
    destruct (lookup_lt_is_Some_2 (take n vtPagesY) (Z.to_nat l)) as [vy Hvy]; [lia|].
    pose proof (Forall_lookup_1 _ _ _ _ Hpx Hvx). pose proof (Forall_lookup_1 _ _ _ _ Hpy Hvy).
    rewrite lookup_take_lt in Hvx, Hvy by lia. rewrite Hvx, Hvy. done. }
  destruct (initial_pool defaultEntry tb0 n) as [Hlen Hget].
  { intros l Hl. destruct (Hgeo l) as (_ & _ & ? & ?); [lia|]. lia. }
  replace (Z.of_nat n) with vtNumLevels in * by lia.
  split; [done|]. split; [done|].
  split. { intros l Hl. destruct (Hgeo l Hl) as (_ & _ & ? & ?). done. }
  split. { intros l Hl. destruct (Hgeo l Hl) as (? & ? & _). done. }
  split.
  { cbn [tableEntryPool with_pool numLevels]. rewrite entriesBefore_with_pool. exact Hlen. }
  intros l index Hl Hidx. unfold readEntry, poolIndex. rewrite entriesBefore_with_pool.
  cbn [tableEntryPool with_pool].
  assert (0 ≤ entriesBefore tb0 (Z.to_nat l)).
  { assert (∀ (b : nat), (b ≤ n)%nat → 0 ≤ entriesBefore tb0 b) as Hnn.
    { induction b as [|b IHb]; intros Hb; [done|]. cbn [entriesBefore].
      destruct (Hgeo (Z.of_nat b)) as (_ & _ & ? & ?); [lia|].
      assert (0 ≤ entriesBefore tb0 b) by (apply IHb; lia). lia. }
    apply Hnn. lia. }
  rewrite decide_True by lia. by apply Hget.
Qed.

End IndirectionMake.

Lemma initTexture_entries_witness :
  ∃ tb, PageIndirectionTableRgb565.make [4; 2; 1] [2; 1; 1] 3 = Some tb
        ∧ PageIndirectionTable.readEntry (PageIndirectionTableRgb565.table tb) 1 1
          = Some (PageIndirectionTableRgb565.defaultEntry 2 1).
Proof.
  eexists. split; [vm_compute; reflexivity|].
  match goal with |- PageIndirectionTable.readEntry ?x _ _ = _ => set (tb := x) end.
  refine (proj2 (proj2 (proj2 (proj2 (proj2
            (initTexture_entries (PageIndirectionTableRgb565.defaultEntry 2)
               [4; 2; 1] [2; 1; 1] 3 tb _))))) 1 1 _ _).
  - vm_compute. reflexivity.
  - lia.
  - vm_compute. split; [discriminate|reflexivity].
Defined.

Section IndirectionWrites.
Context {E : Type}.
Import PageIndirectionTable.
Implicit Types tb : PageIndirectionTable.t E.

Section Update.
Variable entryFor : Z → CacheEntry → E.

Lemma writePage_written l (cacheEntry : CacheEntry) tb tb' :
  writePage entryFor l cacheEntry tb = Some tb' →
  pageId cacheEntry ≠ InvalidPageId → pageIdExtractMipLevel (pageId cacheEntry) = l →
  poolAt tb' (poolIndex tb l (pageIndex tb l cacheEntry)) = Some (entryFor l cacheEntry).
Proof.
  unfold writePage. intros H Hid Hl. rewrite decide_False in H by tauto.
  case_decide; [|done]. case_decide; [|done].
  apply writeEntry_spec in H as (_ & Hw & _). exact Hw.
Qed.

Lemma writePages_written l (pages : list CacheEntry) (idx : Z) (v : E) (ps : list nat) :
  ∀ tb tb',
  forEach ps (λ p tb, cacheEntry ← pages !! p; writePage entryFor l cacheEntry tb) tb
    = Some tb' →
  (∀ p e, p ∈ ps → pages !! p = Some e → pageId e ≠ InvalidPageId →
     pageIdExtractMipLevel (pageId e) = l → pageIndex tb l e = idx → entryFor l e = v) →
  (poolAt tb (poolIndex tb l idx) = Some v
   ∨ ∃ p e, p ∈ ps ∧ pages !! p = Some e ∧ pageId e ≠ InvalidPageId
            ∧ pageIdExtractMipLevel (pageId e) = l ∧ pageIndex tb l e = idx) →
  poolAt tb' (poolIndex tb l idx) = Some v.
Proof.
  induction ps as [|p ps IH]; intros tb tb' H Hval Hcase.
  { cbn [forEach] in H. injection H as <-. destruct Hcase as [?|(p & e & Hp & _)]; [done|].
    by apply elem_of_nil in Hp. }
  cbn [forEach] in H.
  destruct (pages !! p) as [e|] eqn:Hp; [|done]. cbn [mbind option_bind] in H.
  destruct (writePage entryFor l e tb) as [tb1|] eqn:Hw; [|done].
  cbn [mbind option_bind] in H.
  pose proof (writePage_spec entryFor l e tb tb1 Hw) as [Hs1 Hf1].
  rewrite <- (poolIndex_shape tb tb1) by done.
  apply (IH tb1 tb' H).
  - intros p' e' Hp' He' Hid' Hl' Hidx'. rewrite (pageIndex_shape tb tb1) in Hidx' by done.
    apply (Hval p' e'); [by right|done..].
  - rewrite (poolIndex_shape tb tb1) by done.
    destruct (decide (pageId e ≠ InvalidPageId ∧ pageIdExtractMipLevel (pageId e) = l
                      ∧ pageIndex tb l e = idx)) as [(Hid & Hl & Hidx)|Hnot].
    + left. rewrite <- Hidx. rewrite (writePage_written l e tb tb1 Hw Hid Hl).
      f_equal. apply (Hval p e); [left|done..].
    + destruct Hcase as [Hold|(p' & e' & Hp' & He' & Hid' & Hl' & Hidx')].
      * left. rewrite Hf1; [done|]. intros (? & ? & Heq). apply Hnot.
        split; [done|]. split; [done|]. unfold poolIndex in Heq. lia.
      * apply elem_of_cons in Hp' as [->|Hp'].
        -- rewrite Hp in He'. injection He' as ->. exfalso. apply Hnot. done.
        -- right. exists p', e'. rewrite (pageIndex_shape tb tb1) by done. done.
Qed.

Lemma updateLevel_written (pages : list CacheEntry) l tb tb' p e :
  levels_wf tb → 0 ≤ l < numLevels tb →
  updateLevel entryFor pages l tb = Some tb' →
  (p < PageCacheMgr.TotalCachePages)%nat → pages !! p = Some e →
  pageId e ≠ InvalidPageId → pageIdExtractMipLevel (pageId e) = l →
  (∀ p' e', (p' < PageCacheMgr.TotalCachePages)%nat → pages !! p' = Some e' →
     pageId e' ≠ InvalidPageId → pageIdExtractMipLevel (pageId e') = l →
     pageIndex tb l e' = pageIndex tb l e → entryFor l e' = entryFor l e) →
  poolAt tb' (poolIndex tb l (pageIndex tb l e)) = Some (entryFor l e).
Proof.
  intros Hwf Hl H Hp He Hid Hlev Huniq. unfold updateLevel in H.
  destruct (writePages entryFor l pages tb) as [tb1|] eqn:Hw; [|done].
  cbn [mbind option_bind] in H.
  assert (Hwritten : poolAt tb1 (poolIndex tb l (pageIndex tb l e)) = Some (entryFor l e)).
  { unfold writePages in Hw.
    apply (writePages_written l pages (pageIndex tb l e) (entryFor l e) _ tb tb1 Hw).
    - intros p' e' Hp' He' Hid' Hl' Hidx'. apply elem_of_seq in Hp'.
      apply (Huniq p' e'); [lia|done..].
    - right. exists p, e. split; [apply elem_of_seq; lia|done]. }
  apply writePages_spec in Hw as [Hs1 _].
  case_decide as Hl0; [|by injection H as <-].
  apply upsample_spec in H as (_ & _ & Hfr);
    [|by eapply levels_wf_shape|destruct Hs1 as [<- _]; lia].
  rewrite Hfr; [done|]. rewrite (poolIndex_shape tb tb1) by done.
  destruct (Hwf l Hl) as [HW _].
  pose proof (pageIdExtractPageX_range (pageId e)).
  pose proof (pageIdExtractPageY_range (pageId e)).
  unfold poolIndex, pageIndex. nia.
Qed.

Lemma levels_run_shape (pages : list CacheEntry) (ls : list Z) : ∀ tb tb',
  levels_wf tb → Forall (λ k, 0 ≤ k < numLevels tb) ls →
  forEach ls (updateLevel entryFor pages) tb = Some tb' → same_shape tb tb'.
Proof.
  induction ls as [|k ls IH]; intros tb tb' Hwf Hall H.
  { cbn [forEach] in H. injection H as <-. apply same_shape_refl. }
  apply Forall_cons in Hall as [Hk Hall]. cbn [forEach] in H.
  destruct (updateLevel entryFor pages k tb) as [tb1|] eqn:Hstep; [|done].
  cbn [mbind option_bind] in H.
  apply updateLevel_spec in Hstep as (Hs1 & _); [|done|done].
  apply (same_shape_trans tb tb1 tb'); [done|].
  apply IH; [by eapply levels_wf_shape| |done].
  destruct Hs1 as [<- _]. done.
Qed.

Lemma levels_split (N l : Z) :
  0 ≤ l < N →
  reverse (seqZ 0 N) = reverse (seqZ (l + 1) (N - l - 1)) ++ l :: reverse (seqZ 0 l).
Proof.
  intros Hl. replace N with (l + (N - l)) at 1 by lia.
  rewrite seqZ_app by lia. rewrite Z.add_0_l.
  rewrite (seqZ_cons l) by lia. rewrite reverse_app, reverse_cons.
  rewrite <- app_assoc. do 2 f_equal; lia.
Qed.

Lemma updateLevels_written (pages : list CacheEntry) tb tb' p e :
  levels_wf tb →
  updateLevels entryFor pages tb = Some tb' →
  (p < PageCacheMgr.TotalCachePages)%nat → pages !! p = Some e →
  pageId e ≠ InvalidPageId →
  pageIdExtractMipLevel (pageId e) < numLevels tb →
  (∀ p' e', (p' < PageCacheMgr.TotalCachePages)%nat → pages !! p' = Some e' →
     pageId e' ≠ InvalidPageId →
     pageIdExtractMipLevel (pageId e') = pageIdExtractMipLevel (pageId e) →
     pageIndex tb (pageIdExtractMipLevel (pageId e)) e'
     = pageIndex tb (pageIdExtractMipLevel (pageId e)) e →
     entryFor (pageIdExtractMipLevel (pageId e)) e'
     = entryFor (pageIdExtractMipLevel (pageId e)) e) →
  same_shape tb tb'
  ∧ readEntry tb' (pageIdExtractMipLevel (pageId e))
      (pageIndex tb' (pageIdExtractMipLevel (pageId e)) e)
    = Some (entryFor (pageIdExtractMipLevel (pageId e)) e).
Proof.
  intros Hwf H Hp He Hid Hlev Huniq.
  set (l := pageIdExtractMipLevel (pageId e)) in *.
  pose proof (pageIdExtractMipLevel_range (pageId e)) as Hl0. fold l in Hl0.
  unfold updateLevels in H. rewrite (levels_split (numLevels tb) l) in H by lia.
  rewrite forEach_app in H.
  destruct (forEach (reverse (seqZ (l + 1) (numLevels tb - l - 1))) _ tb) as [tb1|] eqn:H1;
    [|done].
  cbn [mbind option_bind forEach] in H.
  destruct (updateLevel entryFor pages l tb1) as [tb2|] eqn:H2; [|done].
  cbn [mbind option_bind] in H.
  assert (Hs1 : same_shape tb tb1).
  { apply (levels_run_shape pages (reverse (seqZ (l + 1) (numLevels tb - l - 1)))
             tb tb1 Hwf); [|done].
    apply Forall_forall. intros k Hk. apply elem_of_reverse, elem_of_seqZ in Hk. lia. }
  assert (Hwf1 : levels_wf tb1) by (by eapply levels_wf_shape).
  assert (Hl1 : 0 ≤ l < numLevels tb1) by (destruct Hs1 as [<- _]; lia).
  assert (Hw : poolAt tb2 (poolIndex tb1 l (pageIndex tb1 l e)) = Some (entryFor l e)).
  { apply (updateLevel_written pages l tb1 tb2 p e Hwf1 Hl1 H2 Hp He Hid eq_refl).
    intros p' e' Hp' He' Hid' Hl' Hidx'.
    rewrite !(pageIndex_shape tb tb1) in Hidx' by done. by apply (Huniq p' e'). }
  rewrite (pageIndex_shape tb tb1), (poolIndex_shape tb tb1) in Hw by done.
  apply updateLevel_spec in H2 as (Hs2 & _ & _ & Hup); [|done|done].
  assert (Hs12 : same_shape tb tb2) by (by eapply same_shape_trans).
  rewrite <- (Z2Nat.id l) in H by lia.
  apply updateLevels_run in H as (Hs3 & Hfr & _);
    [|by eapply levels_wf_shape|destruct Hs12 as [<- _]; lia|].
  2:{ intros _ Hpos x y Hx Hy. rewrite !Z2Nat.id in * by lia.
      rewrite !(getNumPagesX_shape tb1 tb2), !(getNumPagesY_shape tb1 tb2),
        !(poolIndex_shape tb1 tb2) in * by done.
      apply Hup; [lia|done|done]. }
  rewrite Z2Nat.id in Hfr by lia.
  assert (Hs : same_shape tb tb') by (by eapply same_shape_trans).
  split; [done|].
  rewrite readEntry_poolAt, (pageIndex_shape tb tb'), (poolIndex_shape tb tb') by done.
  rewrite Hfr; [done|]. rewrite (poolIndex_shape tb tb2) by done.
  destruct (Hwf l) as [HW _]; [lia|].
  pose proof (pageIdExtractPageX_range (pageId e)).
  pose proof (pageIdExtractPageY_range (pageId e)).
  unfold poolIndex, pageIndex. fold l. nia.
Qed.

End Update.
End IndirectionWrites.

Section IndirectionPurge.
Context {E : Type}.
Import PageIndirectionTable.
Implicit Types tb : PageIndirectionTable.t E.
Variable entryFor : Z → CacheEntry → E.

Lemma updateLevels_no_pages (pages : list CacheEntry) tb tb' :
  levels_wf tb →
  (∀ p e, pages !! p = Some e → pageId e = InvalidPageId) →
  updateLevels entryFor pages tb = Some tb' →
  same_shape tb tb'
  ∧ (∀ index, 0 ≤ index →
       readEntry tb' (numLevels tb' - 1) index = readEntry tb (numLevels tb - 1) index)
  ∧ (∀ L x y, 0 < L < numLevels tb' →
       0 ≤ x < getNumPagesX tb' (L - 1) → 0 ≤ y < getNumPagesY tb' (L - 1) →
       ∃ entry,
         readEntry tb' (L - 1) (x + y * getNumPagesX tb' (L - 1)) = Some entry
         ∧ readEntry tb' L (x / 2 + y / 2 * getNumPagesX tb' L) = Some entry).
Proof.
  intros Hwf Hinv H.
  assert (Hno : ∀ tb0 l idx, ¬ overwrites pages tb0 l idx).
  { intros tb0 l idx (p & e & _ & He & Hid & _). by apply Hid, (Hinv p e). }
  destruct (updateLevels_upsampled entryFor pages tb tb' Hwf H) as [Hs Hup].
  split; [done|]. split.
  - intros index Hidx. unfold updateLevels in H.
    destruct (decide (0 < numLevels tb)) as [Hn|Hn].
    + destruct (Z.to_nat (numLevels tb)) as [|k] eqn:Hk; [lia|].
      assert (numLevels tb = Z.of_nat (S k)) as HN by lia.
      rewrite HN in H. rewrite seqZ_S, reverse_snoc in H. cbn [forEach] in H.
      rewrite Z.add_0_l in H.
      destruct (updateLevel entryFor pages (Z.of_nat k) tb) as [tb1|] eqn:Hstep; [|done].
      cbn [mbind option_bind] in H.
      apply updateLevel_spec in Hstep as (Hs1 & _ & Hkeep & Hup1); [|done|lia].
      apply updateLevels_run in H as (_ & Hfr & _);
        [|by eapply levels_wf_shape|destruct Hs1 as [<- _]; lia|].
      2:{ intros _ Hpos x y Hx Hy.
          rewrite !(getNumPagesX_shape tb tb1), !(getNumPagesY_shape tb tb1),
            !(poolIndex_shape tb tb1) in * by done.
          apply Hup1; [lia|done|done]. }
      pose proof Hs as Hs'. destruct Hs as [<- _]. rewrite HN.
      replace (Z.of_nat (S k) - 1) with (Z.of_nat k) by lia.
      rewrite !readEntry_poolAt.
      rewrite (poolIndex_shape tb tb') by done.
      rewrite (poolIndex_shape tb tb1) in Hfr by done.
      rewrite Hfr by (unfold poolIndex; lia).
      apply Hkeep; [done|apply Hno].
    + rewrite seqZ_nil in H by lia. cbn [forEach] in H. by injection H as <-.
  - intros L x y HL Hx Hy. apply (Hup L x y HL Hx Hy). apply Hno.
Qed.

End IndirectionPurge.

Section IndirectionExtras.

(** X17.  After [updateIndirectionTexture] the table entry of a page that the
    cache holds carries the cache coordinates of that page, in both
    tables. *)
Theorem updateIndirectionTexture_maps_pages :
  (∀ pages (tb tb' : PageIndirectionTableRgba8888.t) p e,
     levels_wf tb → page_cached pages tb p e →
     PageIndirectionTableRgba8888.updateIndirectionTexture pages tb = Some tb' →
     ∃ entry,
       PageIndirectionTable.readEntry tb' (pageIdExtractMipLevel (pageId e))
         (pageIndex tb' (pageIdExtractMipLevel (pageId e)) e) = Some entry
       ∧ entry = PageIndirectionTableRgba8888.entryFor tb (pageIdExtractMipLevel (pageId e)) e
       ∧ PageIndirectionTableRgba8888.cachePageX entry = coordX (cacheCoord e)
       ∧ PageIndirectionTableRgba8888.cachePageY entry = coordY (cacheCoord e))
  ∧ (∀ pages (tb tb' : PageIndirectionTableRgb565.t) p e,
       levels_wf (PageIndirectionTableRgb565.table tb) →
       page_cached pages (PageIndirectionTableRgb565.table tb) p e →
       PageIndirectionTableRgb565.updateIndirectionTexture pages tb = Some tb' →
       PageIndirectionTable.readEntry (PageIndirectionTableRgb565.table tb')
         (pageIdExtractMipLevel (pageId e))
         (pageIndex (PageIndirectionTableRgb565.table tb')
            (pageIdExtractMipLevel (pageId e)) e)
       = Some (PageIndirectionTableRgb565.entryFor tb (pageIdExtractMipLevel (pageId e)) e)).
Proof.
  split.
  - intros pages tb tb' p e Hwf (Hp & He & Hid & Hl & Huniq) H.
    destruct (updateLevels_written (PageIndirectionTableRgba8888.entryFor tb)
                pages tb tb' p e Hwf H Hp He Hid Hl) as [_ Hr].
    { intros p' e' Hp' He' Hid' Hl' Hidx'.
      unfold PageIndirectionTableRgba8888.entryFor.
      by rewrite (Huniq p' e' Hp' He' Hid' Hl' Hidx'). }
    eexists. split; [exact Hr|]. done.
  - intros pages tb tb' p e Hwf (Hp & He & Hid & Hl & Huniq) H.
    unfold PageIndirectionTableRgb565.updateIndirectionTexture in H.
    destruct (PageIndirectionTable.updateLevels _ _ _) as [t'|] eqn:Hu; [|done].
    cbn [mbind option_bind] in H. injection H as <-.
    cbn [PageIndirectionTableRgb565.table].
    destruct (updateLevels_written (PageIndirectionTableRgb565.entryFor tb)
                pages _ t' p e Hwf Hu Hp He Hid Hl) as [_ Hr]; [|exact Hr].
    intros p' e' Hp' He' Hid' Hl' Hidx'.
    unfold PageIndirectionTableRgb565.entryFor.
    by rewrite (Huniq p' e' Hp' He' Hid' Hl' Hidx').
Qed.

Lemma updateIndirectionTexture_maps_pages_witness :
  ∃ tb, PageIndirectionTableRgba8888.make [2; 1] [2; 1] 2 = Some tb
        ∧ ∃ tb', PageIndirectionTableRgba8888.updateIndirectionTexture onePageEntries tb
                 = Some tb'
                 ∧ ∃ entry,
                     PageIndirectionTable.readEntry tb' 0 1 = Some entry
                     ∧ PageIndirectionTableRgba8888.cachePageX entry = 3
                     ∧ PageIndirectionTableRgba8888.cachePageY entry = 4.
Proof.
  eexists. split; [vm_compute; reflexivity|].
  match goal with
  | |- ∃ _, PageIndirectionTableRgba8888.updateIndirectionTexture _ ?x = _ ∧ _ =>
      set (tb := x)
  end.
  eexists. split; [vm_compute; reflexivity|].
  match goal with |- ∃ _, PageIndirectionTable.readEntry ?x _ _ = _ ∧ _ => set (tb' := x) end.
  destruct (proj1 updateIndirectionTexture_maps_pages onePageEntries tb tb' 0%nat
              {| prev := None; next := Some 1%nat; pageId := makePageId 1 0 0 0;
                 cacheCoord := {| coordX := 3; coordY := 4 |} |})
    as (entry & Hr & _ & Hx & Hy).
  - intros l Hl. change (PageIndirectionTable.numLevels tb) with 2 in Hl.
    assert (l = 0 ∨ l = 1) as [-> | ->] by lia; vm_compute; done.
  - split; [vm_compute; lia|]. split; [vm_compute; reflexivity|].
    split; [vm_compute; discriminate|]. split; [vm_compute; reflexivity|].
    intros p' e' _ He' Hid' _ _.
    assert (Forall (λ e, pageId e = InvalidPageId
                         ∨ (coordX (cacheCoord e) = 3 ∧ coordY (cacheCoord e) = 4))
              onePageEntries) as Hall.
    { apply (bool_decide_unpack _). vm_compute. reflexivity. }
    destruct (Forall_lookup_1 _ _ _ _ Hall He') as [?|[Hx Hy]]; [done|].
    destruct (cacheCoord e'). cbn in Hx, Hy. by subst.
  - vm_compute. reflexivity.
  - exists entry. split; [exact Hr|]. split; [exact Hx|exact Hy].
Defined.

(** X18.  Updating the table from a cache that holds no page, as
    [VirtualTexture::purgeCache] does after purging the cache, does not
    reset the table: the top level keeps its entries and every level
    below becomes a copy of them. *)
Theorem updateIndirectionTexture_after_purge :
  (∀ c (tb tb' : PageIndirectionTableRgba8888.t),
     levels_wf tb →
     PageIndirectionTableRgba8888.updateIndirectionTexture
       (PageCacheMgr.cacheEntryPool (PageCacheMgr.purgeCache c)) tb = Some tb' →
     top_level_spread tb tb')
  ∧ (∀ c (tb tb' : PageIndirectionTableRgb565.t),
       levels_wf (PageIndirectionTableRgb565.table tb) →
       PageIndirectionTableRgb565.updateIndirectionTexture
         (PageCacheMgr.cacheEntryPool (PageCacheMgr.purgeCache c)) tb = Some tb' →
       top_level_spread (PageIndirectionTableRgb565.table tb)
         (PageIndirectionTableRgb565.table tb')).
Proof.
  split.
  - intros c tb tb' Hwf H.
    apply (updateLevels_no_pages (PageIndirectionTableRgba8888.entryFor tb)
             (PageCacheMgr.cacheEntryPool (PageCacheMgr.purgeCache c)) tb tb' Hwf); [|exact H].
    intros p e He. by eapply purgeCache_pageIds.
  - intros c tb tb' Hwf H.
    unfold PageIndirectionTableRgb565.updateIndirectionTexture in H.
    destruct (PageIndirectionTable.updateLevels _ _ _) as [t'|] eqn:Hu; [|done].
    cbn [mbind option_bind] in H. injection H as <-.
    cbn [PageIndirectionTableRgb565.table].
    apply (updateLevels_no_pages (PageIndirectionTableRgb565.entryFor tb)
             (PageCacheMgr.cacheEntryPool (PageCacheMgr.purgeCache c)) _ t' Hwf); [|exact Hu].
    intros p e He. by eapply purgeCache_pageIds.
Qed.

End IndirectionExtras.

Lemma updateIndirectionTexture_after_purge_witness :
  ∃ c tb tb',
    PageCacheMgr.make [2; 1] [2; 1] 2 = Some c
    ∧ PageIndirectionTableRgb565.make [2; 1] [2; 1] 2 = Some tb
    ∧ PageIndirectionTableRgb565.updateIndirectionTexture
        (PageCacheMgr.cacheEntryPool (PageCacheMgr.purgeCache c)) tb = Some tb'
    ∧ PageIndirectionTable.readEntry (PageIndirectionTableRgb565.table tb') 1 0
      = PageIndirectionTable.readEntry (PageIndirectionTableRgb565.table tb) 1 0.
Proof.
  eexists _, _, _. split; [vm_compute; reflexivity|].
  split; [vm_compute; reflexivity|].
  match goal with
  | |- PageIndirectionTableRgb565.updateIndirectionTexture
         (PageCacheMgr.cacheEntryPool (PageCacheMgr.purgeCache ?x)) ?y = Some ?z ∧ _ =>
      set (c := x); set (tb := y);
      assert (Hrun : PageIndirectionTableRgb565.updateIndirectionTexture
                       (PageCacheMgr.cacheEntryPool (PageCacheMgr.purgeCache c)) tb = Some z)
        by (vm_compute; reflexivity);
      set (tb' := z) in *
  end.
  split; [exact Hrun|].
  refine (proj1 (proj2 updateIndirectionTexture_after_purge c tb tb' _ Hrun) 0 _); [|lia].
  intros l Hl. change (PageIndirectionTable.numLevels _) with 2 in Hl.
  assert (l = 0 ∨ l = 1) as [-> | ->] by lia; vm_compute; split; reflexivity.
Defined.

Section EntryFormats.

Lemma pack565_fields :
  Forall (λ x, Forall (λ y, Forall (λ d,
    Z.shiftr (pack565 x y d) 11 = 2 * x
    ∧ Z.land (Z.shiftr (pack565 x y d) 5) 63 = d
    ∧ Z.land (pack565 x y d) 31 = 2 * y)
    (seqZ 0 64)) (seqZ 0 16)) (seqZ 0 16).
Proof. apply (bool_decide_unpack _). vm_compute. reflexivity. Qed.

(** X19.  An entry of the RGB-5:6:5 table packs the cache coordinates, each
    doubled, into the red and blue bits and the level offset into the
    green bits, and the three fields can be read back. *)
Theorem Rgb565_entry_fields (tb : PageIndirectionTableRgb565.t) (l : Z) (e : CacheEntry) :
  0 ≤ coordX (cacheCoord e) < PageCacheMgr.CacheSizeInPages →
  0 ≤ coordY (cacheCoord e) < PageCacheMgr.CacheSizeInPages →
  0 ≤ PageIndirectionTableRgb565.log2VirtPagesWide tb - l < 64 →
  let entry := PageIndirectionTableRgb565.entryFor tb l e in
  0 ≤ entry < 65536
  ∧ Z.shiftr entry 11 = 2 * coordX (cacheCoord e)
  ∧ Z.land (Z.shiftr entry 5) 63 = PageIndirectionTableRgb565.log2VirtPagesWide tb - l
  ∧ Z.land entry 31 = 2 * coordY (cacheCoord e).
Proof.
  intros Hx Hy Hd entry. unfold PageCacheMgr.CacheSizeInPages, TableSizeInPages in Hx, Hy.
  split; [apply Z.mod_pos_bound; lia|].
  change entry with (pack565 (coordX (cacheCoord e)) (coordY (cacheCoord e))
                       (PageIndirectionTableRgb565.log2VirtPagesWide tb - l)).
  pose proof pack565_fields as H.
  rewrite Forall_forall in H. specialize (H (coordX (cacheCoord e))).
  rewrite elem_of_seqZ in H. specialize (H ltac:(lia)).
  rewrite Forall_forall in H. specialize (H (coordY (cacheCoord e))).
  rewrite elem_of_seqZ in H. specialize (H ltac:(lia)).
  rewrite Forall_forall in H.
  specialize (H (PageIndirectionTableRgb565.log2VirtPagesWide tb - l)).
  rewrite elem_of_seqZ in H. specialize (H ltac:(lia)).
  exact H.
Qed.

Lemma Rgb565_entry_fields_witness :
  Z.shiftr (PageIndirectionTableRgb565.entryFor
              {| PageIndirectionTableRgb565.table :=
                   {| PageIndirectionTable.numLevels := 1;
                      PageIndirectionTable.numPagesX := [1];
                      PageIndirectionTable.numPagesY := [1];
                      PageIndirectionTable.tableEntryPool := [0] |};
                 PageIndirectionTableRgb565.log2VirtPagesWide := 5 |}
              2
              {| prev := None; next := None; pageId := makePageId 1 0 2 0;
                 cacheCoord := {| coordX := 3; coordY := 4 |} |}) 11
  = 2 * 3.
Proof.
  refine (proj1 (proj2 (Rgb565_entry_fields _ 2
            {| prev := None; next := None; pageId := makePageId 1 0 2 0;
               cacheCoord := {| coordX := 3; coordY := 4 |} |} _ _ _)));
    vm_compute; split; discriminate || reflexivity.
Defined.

(** X20.  An entry of the RGBA-8:8:8:8 table carries the cache coordinates of
    the page and the 16-bit scale of its level in two bytes, the low
    byte in [scaleHigh] and the high byte in [scaleLow]. *)
Theorem Rgba8888_entry_scale (tb : PageIndirectionTableRgba8888.t) (l : Z) (e : CacheEntry) :
  0 ≤ l →
  0 ≤ PageIndirectionTable.getNumPagesX tb 0 < 4096 →
  let entry := PageIndirectionTableRgba8888.entryFor tb l e in
  PageIndirectionTableRgba8888.cachePageX entry = coordX (cacheCoord e)
  ∧ PageIndirectionTableRgba8888.cachePageY entry = coordY (cacheCoord e)
  ∧ 0 ≤ PageIndirectionTableRgba8888.scaleHigh entry < 256
  ∧ 0 ≤ PageIndirectionTableRgba8888.scaleLow entry < 256
  ∧ PageIndirectionTableRgba8888.scaleHigh entry
    + 256 * PageIndirectionTableRgba8888.scaleLow entry
    = PageIndirectionTable.getNumPagesX tb 0 * 16 / 2 ^ l.
Proof.
  intros Hl Hn entry. subst entry. unfold PageIndirectionTableRgba8888.entryFor.
  cbn [PageIndirectionTableRgba8888.cachePageX PageIndirectionTableRgba8888.cachePageY
       PageIndirectionTableRgba8888.scaleHigh PageIndirectionTableRgba8888.scaleLow].
  split; [done|]. split; [done|].
  unfold PageIndirectionTableRgba8888.scale.
  set (n := PageIndirectionTable.getNumPagesX tb 0) in *.
  rewrite (Z.shiftr_div_pow2 (n * 16)) by lia.
  assert (0 < 2 ^ l) by (apply Z.pow_pos_nonneg; lia).
  assert (0 ≤ n * 16 / 2 ^ l < 65536) as Hs.
  { split; [apply Z.div_pos; lia|].
    apply Z.div_lt_upper_bound; [lia|]. nia. }
  rewrite (Z.mod_small (n * 16 / 2 ^ l)) by lia.
  set (s := n * 16 / 2 ^ l) in *.
  change 0xFF with (Z.ones 8). rewrite Z.land_ones by lia.
  rewrite Z.shiftr_div_pow2 by lia. change (2 ^ 8) with 256.
  rewrite Z.mod_mod by lia.
  assert (0 ≤ s / 256 < 256).
  { split; [apply Z.div_pos; lia|apply Z.div_lt_upper_bound; lia]. }
  rewrite (Z.mod_small (s / 256)) by lia.
  split; [apply Z.mod_pos_bound; lia|]. split; [done|].
  pose proof (Z.div_mod s 256 ltac:(lia)). lia.
Qed.

Lemma Rgba8888_entry_scale_witness :
  ∃ tb, PageIndirectionTableRgba8888.make [32; 16] [32; 16] 2 = Some tb
        ∧ PageIndirectionTableRgba8888.scaleHigh
            (PageIndirectionTableRgba8888.entryFor tb 1
               {| prev := None; next := None; pageId := makePageId 1 0 1 0;
                  cacheCoord := {| coordX := 3; coordY := 4 |} |})
          + 256 * PageIndirectionTableRgba8888.scaleLow
                    (PageIndirectionTableRgba8888.entryFor tb 1
                       {| prev := None; next := None; pageId := makePageId 1 0 1 0;
                          cacheCoord := {| coordX := 3; coordY := 4 |} |})
          = 256.
Proof.
  eexists. split; [vm_compute; reflexivity|].
  match goal with |- context [PageIndirectionTableRgba8888.entryFor ?x _ _] => set (tb := x) end.
  rewrite (proj2 (proj2 (proj2 (proj2 (Rgba8888_entry_scale tb 1
            {| prev := None; next := None; pageId := makePageId 1 0 1 0;
               cacheCoord := {| coordX := 3; coordY := 4 |} |} ltac:(lia)
            ltac:(vm_compute; split; discriminate || reflexivity)))))).
  vm_compute. reflexivity.
Defined.

End EntryFormats.

(** ** Further properties of the byte helpers, the page files and frameUpdate *)

Section ByteHelpers.

Lemma reverseByte_table :
  Forall (λ b, reverseByte (reverseByte b) = b
               ∧ 0 ≤ reverseByte b < 256
               ∧ Forall (λ i, Z.testbit (reverseByte b) i = Z.testbit b (7 - i)) (seqZ 0 8))
         (seqZ 0 256).
Proof. apply (bool_decide_unpack _). vm_compute. reflexivity. Qed.

(** X21.  [reverseByte] reverses the bits of a byte: bit [i] of the result is
    bit [7 - i] of the argument, so reversing twice gives the byte
    back. *)
Theorem reverseByte_reverses (b i : Z) :
  0 ≤ b < 256 → 0 ≤ i < 8 →
  0 ≤ reverseByte b < 256
  ∧ Z.testbit (reverseByte b) i = Z.testbit b (7 - i)
  ∧ reverseByte (reverseByte b) = b.
Proof.
  intros Hb Hi. pose proof reverseByte_table as H.
  rewrite Forall_forall in H. specialize (H b). rewrite elem_of_seqZ in H.
  destruct (H ltac:(lia)) as (H2 & H3 & H4).
  rewrite Forall_forall in H4. specialize (H4 i). rewrite elem_of_seqZ in H4.
  specialize (H4 ltac:(lia)). done.
Qed.

Lemma reverseByte_reverses_witness :
  0 ≤ reverseByte 6 < 256
  ∧ Z.testbit (reverseByte 6) 5 = Z.testbit 6 (7 - 5)
  ∧ reverseByte (reverseByte 6) = 6.
Proof. apply (reverseByte_reverses 6 5); lia. Defined.

Lemma join_replicate_lookup {A} (c : list A) (n k j : nat) :
  (j < length c)%nat → (k < n)%nat →
  mjoin (replicate n c) !! (length c * k + j)%nat = c !! j.
Proof.
  revert k. induction n as [|n IH]; intros k Hj Hkn; [lia|].
  csimpl. destruct k as [|k].
  - rewrite lookup_app_l by lia. f_equal. lia.
  - rewrite lookup_app_r by lia.
    replace (length c * S k + j - length c)%nat with (length c * k + j)%nat by lia.
    apply IH; lia.
Qed.

Lemma join_replicate_length {A} (c : list A) (n : nat) :
  length (mjoin (replicate n c)) = (length c * n)%nat.
Proof. induction n as [|n IH]; csimpl; [lia|]. rewrite length_app, IH. lia. Qed.

(** X22.  A page of the debug page file has one colour in all its pixels,
    and the colour tells the page's x and y: reversing the bits of the
    red and green bytes gives them back. *)
Theorem DebugPageFile_loadPage_color (dbg : Z → Z → Z → list Z → list Z) (pageId : PageId)
    (k : nat) :
  (k < DebugPageFile.TotalPagePixels)%nat →
  let pageData := DebugPageFile.loadPage dbg false pageId in
  length pageData = (4 * DebugPageFile.TotalPagePixels)%nat
  ∧ (∃ r g b,
       pageData !! (4 * k)%nat = Some r
       ∧ pageData !! (4 * k + 1)%nat = Some g
       ∧ pageData !! (4 * k + 2)%nat = Some b
       ∧ pageData !! (4 * k + 3)%nat = Some 255
       ∧ reverseByte r = pageIdExtractPageX pageId
       ∧ reverseByte g = pageIdExtractPageY pageId
       ∧ b = reverseByte (clampByte (pageIdExtractMipLevel pageId
                                     + pageIdExtractTextureIndex pageId))).
Proof.
  intros Hk pageData. subst pageData. unfold DebugPageFile.loadPage.
  assert (Hlen : length (DebugPageFile.color pageId) = 4%nat) by done.
  split; [by rewrite join_replicate_length, Hlen|].
  exists (reverseByte (pageIdExtractPageX pageId)),
    (reverseByte (pageIdExtractPageY pageId)),
    (reverseByte (clampByte (pageIdExtractMipLevel pageId
                             + pageIdExtractTextureIndex pageId))).
  pose proof (λ j, join_replicate_lookup (DebugPageFile.color pageId)
                     DebugPageFile.TotalPagePixels k j) as Hjoin.
  rewrite Hlen in Hjoin.
  replace (4 * k)%nat with (4 * k + 0)%nat at 1 by lia.
  rewrite !Hjoin by lia.
  split; [done|]. split; [done|]. split; [done|]. split; [done|].
  pose proof (pageIdExtractPageX_range pageId) as Hx.
  pose proof (pageIdExtractPageY_range pageId) as Hy.
  pose proof reverseByte_table as H. rewrite Forall_forall in H.
  split; [apply (H (pageIdExtractPageX pageId)); apply elem_of_seqZ; lia|].
  split; [apply (H (pageIdExtractPageY pageId)); apply elem_of_seqZ; lia|done].
Qed.

Lemma DebugPageFile_loadPage_color_witness :
  length (DebugPageFile.loadPage (λ _ _ _ bs, bs) false (makePageId 3 7 2 1))
  = (4 * DebugPageFile.TotalPagePixels)%nat.
Proof.
  refine (proj1 (DebugPageFile_loadPage_color (λ _ _ _ bs, bs) (makePageId 3 7 2 1) 5 _)).
  vm_compute. lia.
Defined.

End ByteHelpers.

Section PageFileExtras.

(** X23.  On 32-bit values [isPowerOfTwo] accepts the powers of two and
    zero, and nothing else. *)
Theorem isPowerOfTwo_characterised (size : Z) :
  0 ≤ size < 2 ^ 32 →
  VTFFPageFile.isPowerOfTwo size = true ↔ size = 0 ∨ ∃ k, 0 ≤ k < 32 ∧ size = 2 ^ k.
Proof.
  intros Hs. unfold VTFFPageFile.isPowerOfTwo. rewrite bool_decide_eq_true.
  destruct (decide (size = 0)) as [->|Hne].
  { split; [by left|]. intros _. apply Z.land_0_l. }
  rewrite (Z.mod_small (size - 1)) by lia.
  set (k := Z.log2 size).
  assert (0 ≤ k) as Hk0 by apply Z.log2_nonneg.
  destruct (Z.log2_spec size ltac:(lia)) as [Hlo Hhi]. fold k in Hlo, Hhi.
  assert (k < 32) as Hk32 by (apply Z.log2_lt_pow2; lia).
  split.
  - intros Hland. right. exists k. split; [lia|].
    destruct (decide (size = 2 ^ k)) as [|Hnp]; [done|]. exfalso.
    assert (Z.log2 (size - 1) = k) as Hlog.
    { apply Z.log2_unique; [done|]. rewrite <- Z.add_1_r. fold k. lia. }
    assert (Z.testbit (Z.land size (size - 1)) k = true) as Hbit.
    { rewrite Z.land_spec. unfold k at 1. rewrite Z.bit_log2 by lia.
      rewrite <- Hlog. rewrite Z.bit_log2; [done|]. 
      assert (0 < 2 ^ k) by (apply Z.pow_pos_nonneg; lia). lia. }
    rewrite Hland, Z.bits_0 in Hbit. done.
  - intros [?|(j & Hj & ->)]; [done|].
    replace (2 ^ j - 1) with (Z.ones j) by (rewrite Z.ones_equiv; lia).
    rewrite Z.land_ones by lia. apply Z.mod_same.
    assert (0 < 2 ^ j) by (apply Z.pow_pos_nonneg; lia). lia.
Qed.

Lemma isPowerOfTwo_characterised_witness :
  VTFFPageFile.isPowerOfTwo 96 = true ↔ 96 = 0 ∨ ∃ k, 0 ≤ k < 32 ∧ 96 = 2 ^ k.
Proof. apply (isPowerOfTwo_characterised 96). lia. Defined.

(** X24.  The constructor rejects a stream that is not a VTFF file of the
    supported layout before it reads any level: it throws, with the
    error logged, when the header cannot be read, when the magic number
    or the version is wrong, when the layout of the pages is not the
    compiled-in one, and when the pixels are not 8-bit RGBA. *)
Theorem VTFFPageFile_make_rejects (io : Stdio) (fileStream : FILE io) (filename : string)
    (debug : bool) (log : list LogEntry) (r : option (list Z)) (f : FILE io) :
  fread io fileStream VTFF.sizeofHeader = (r, f) →
  match r with
  | None =>
      VTFFPageFile.make io fileStream filename debug log
      = (log ++ [LogError "Unable to read file header!"],
         Thrown "Unable to read file header!")
  | Some bs =>
      let header := VTFF.decodeHeader bs in
      (VTFF.magic header ≠ VTFF.Magic ∨ VTFF.version header ≠ VTFF.Version →
       VTFFPageFile.make io fileStream filename debug log
       = (log ++ [LogError "Wrong file type / bad file version!"],
          Thrown "Wrong file type / bad file version!"))
      ∧ (VTFF.magic header = VTFF.Magic → VTFF.version header = VTFF.Version →
         VTFF.numMipMapLevels header = 0
         ∨ VTFF.numMipMapLevels header > MaxVTMipLevels
         ∨ VTFF.pageSize header ≠ PageSizeInPixels
         ∨ VTFF.borderSize header ≠ PageBorderSizeInPixels
         ∨ VTFF.pageContentSize header ≠ PageSizeInPixels - PageBorderSizeInPixels * 2 →
         VTFFPageFile.make io fileStream filename debug log
         = (log ++ [LogError "Bad file format! Data layout is incompatible."],
            Thrown "Bad file format! Data layout is incompatible."))
      ∧ (VTFF.magic header = VTFF.Magic → VTFF.version header = VTFF.Version →
         VTFF.numMipMapLevels header ≠ 0 →
         VTFF.numMipMapLevels header ≤ MaxVTMipLevels →
         VTFF.pageSize header = PageSizeInPixels →
         VTFF.borderSize header = PageBorderSizeInPixels →
         VTFF.pageContentSize header = PageSizeInPixels - PageBorderSizeInPixels * 2 →
         VTFF.pixelFormat header ≠ RgbaU8 →
         VTFFPageFile.make io fileStream filename debug log
         = (log ++ [LogError "Currently, we only support 8bits RGBA page files!"],
            Thrown "Currently, we only support 8bits RGBA page files!"))
  end.
Proof.
  intros Hread. unfold VTFFPageFile.make, VTFFPageFile.freadItem. rewrite Hread.
  destruct r as [bs|]; [|reflexivity].
  cbv zeta. split; [|split].
  - intros Hbad. unfold bindRun at 1. unfold ret at 1.
    unfold bindRun at 1. rewrite bool_decide_eq_true_2 by done. reflexivity.
  - intros Hm Hv Hbad. unfold bindRun at 1. unfold ret at 1.
    unfold bindRun at 1.
    rewrite (bool_decide_eq_false_2 (VTFF.magic _ ≠ _ ∨ _)) by tauto.
    cbn [when]. unfold ret at 1.
    unfold bindRun at 1. rewrite bool_decide_eq_true_2 by done. reflexivity.
  - intros Hm Hv Hn0 Hn Hps Hbs Hcs Hpf. unfold bindRun at 1. unfold ret at 1.
    unfold bindRun at 1.
    rewrite (bool_decide_eq_false_2 (VTFF.magic _ ≠ _ ∨ _)) by tauto.
    cbn [when]. unfold ret at 1.
    unfold bindRun at 1.
    rewrite (bool_decide_eq_false_2 (VTFF.numMipMapLevels _ = 0 ∨ _)) by (intros H; lia).
    cbn [when]. unfold ret at 1.
    unfold bindRun at 1. rewrite bool_decide_eq_true_2 by done. reflexivity.
Qed.

Lemma VTFFPageFile_make_rejects_witness :
  VTFFPageFile.make memStdio zeroHeaderFile "zeros.vt" false []
  = ([LogError "Wrong file type / bad file version!"],
     Thrown "Wrong file type / bad file version!").
Proof.
  refine (proj1 (VTFFPageFile_make_rejects memStdio zeroHeaderFile "zeros.vt" false []
                   (Some (replicate 28 0)) (replicate 28 0, 28%nat) _) _).
  - vm_compute. reflexivity.
  - left. vm_compute. discriminate.
Defined.

End PageFileExtras.

Section FrameUpdateExtras.

(** X25.  [frameUpdate] returns on every queue of packets whose pages are in
    range, keeps the invariant of the cache and the texture index, and
    puts no page in flight: it only settles pages that were. *)
Theorem frameUpdate_keeps_invariant (vt : VirtualTexture.t)
    (pageRequestUploads : FulfilledPageRequestQueue) :
  cache_inv (VirtualTexture.pageCacheMgr vt) →
  Forall (request_ok vt) pageRequestUploads →
  ∃ vt',
    VirtualTexture.frameUpdate pageRequestUploads vt = Some vt'
    ∧ cache_inv (VirtualTexture.pageCacheMgr vt')
    ∧ same_geometry (PageCacheMgr.cachePageTree (VirtualTexture.pageCacheMgr vt))
        (PageCacheMgr.cachePageTree (VirtualTexture.pageCacheMgr vt'))
    ∧ VirtualTexture.textureIndex vt' = VirtualTexture.textureIndex vt
    ∧ (∀ s, CachePageTree.cacheEntryPtrPool
              (PageCacheMgr.cachePageTree (VirtualTexture.pageCacheMgr vt)) !! s
            ≠ Some RequestedPageDummy →
            CachePageTree.cacheEntryPtrPool
              (PageCacheMgr.cachePageTree (VirtualTexture.pageCacheMgr vt')) !! s
            ≠ Some RequestedPageDummy).
Proof.
  intros Hinv Hall. unfold VirtualTexture.frameUpdate. case_decide as Hq.
  - exists vt. split; [done|]. split; [done|]. split; [apply same_geometry_refl|done].
  - destruct (processRequests_run pageRequestUploads pageRequestUploads (vt, None) Hinv Hall)
      as (st' & Hrun & Hinv' & Hg & Hti & Hnf).
    exists st'.1. rewrite Hrun. split; [done|]. split; [done|]. split; [done|].
    split; [done|]. exact Hnf.
Qed.

Lemma frameUpdate_keeps_invariant_witness :
  ∃ c, PageCacheMgr.make [2; 1] [2; 1] 2 = Some c
       ∧ ∃ vt',
           VirtualTexture.frameUpdate
             [{| PageRequestDataPacket.pageId := makePageId 1 0 0 0;
                 PageRequestDataPacket.fileId := 0;
                 PageRequestDataPacket.pageData := [7] |}]
             {| VirtualTexture.textureIndex := 0;
                VirtualTexture.numPageTables := 1;
                VirtualTexture.pageCacheMgr := c;
                VirtualTexture.numPageUploads := 0;
                VirtualTexture.glCalls := [] |}
           = Some vt'
           ∧ VirtualTexture.textureIndex vt' = 0.
Proof.
  eexists. split; [vm_compute; reflexivity|].
  match goal with
  | |- ∃ _, VirtualTexture.frameUpdate _ (VirtualTexture.Build_t _ _ ?x _ _) = _ ∧ _ =>
      set (c0 := x)
  end.
  assert (Hmake : PageCacheMgr.make [2; 1] [2; 1] 2 = Some c0) by (vm_compute; reflexivity).
  destruct (make_inv _ _ _ _ Hmake) as [Hinv _].
  destruct (frameUpdate_keeps_invariant
              {| VirtualTexture.textureIndex := 0;
                 VirtualTexture.numPageTables := 1;
                 VirtualTexture.pageCacheMgr := c0;
                 VirtualTexture.numPageUploads := 0;
                 VirtualTexture.glCalls := [] |}
              [{| PageRequestDataPacket.pageId := makePageId 1 0 0 0;
                  PageRequestDataPacket.fileId := 0;
                  PageRequestDataPacket.pageData := [7] |}] Hinv)
    as (vt' & Hrun & _ & _ & Hti & _).
  - repeat apply Forall_cons_2; try apply Forall_nil_2;
      intros _ _; vm_compute; repeat split; reflexivity.
  - exists vt'. split; [exact Hrun|exact Hti].
Defined.

End FrameUpdateExtras.

(** ** The drain of the ready queue by frameUpdate *)

Section FrameUpdateDrain.

Abbreviation cache_of st := (VirtualTexture.pageCacheMgr (fst st)).
Abbreviation tree_of st := (PageCacheMgr.cachePageTree (VirtualTexture.pageCacheMgr (fst st))).














End FrameUpdateDrain.


(** ** The order of the page requests of feedbackBufferAnalysis *)

Section RequestOrder.
Import PageResolver.









End RequestOrder.

